(** * Spark job scheduling: exhaustive exploration of arrival scenarios

    A shallow embedding of [src/Spark_job_Schedule.py] and the
    properties of its timeline states, scheduling policies, exploration
    driver and classifiers.  The file holds three copies of the script;
    the classes and functions embedded here are those of the last copy
    (lines 683-1020).  The copies agree on them, except that the first
    has no [Spark.computeViolations].

    Conventions of the embedding.
    - Python [int] is [Z]; [fractions.Fraction] is a [Q] kept in lowest
      terms by [Qred] after every operation, as [Fraction] does.
    - A [dict] keyed by [App] is an association list in insertion order:
      the order is observable through [min]/[max] tie-breaks, through
      [list(running.keys())] and through [repr].  Keys are compared as
      [App.__eq__] and [App.__hash__] do, by [id] alone.
    - A call that can raise returns a [Result]; code that mutates
      objects and can raise is written in a small state-and-exception
      monad, so that the mutations done before the raise stay visible.
    - The scheduler object is shared by every [Spark] state of one
      exploration, so it is not a field of the state record: its
      mutable fields are threaded through [tick] and [simulate]. *)

From Stdlib Require Import String Ascii DecimalString.
From Stdlib Require Import ZArith QArith Qreduction List Bool Lia Permutation.
Import ListNotations.
Local Open Scope Z_scope.

(** ** Exceptions and results *)

Inductive Exn : Type :=
| KeyError
| IndexError
| ValueError
| ZeroDivisionError.

Inductive Result (A : Type) : Type :=
| Ok (a : A)
| Raise (e : Exn).

Arguments Ok {A} a.
Arguments Raise {A} e.

(** ** Fractions *)

Module Fraction.

(** [Fraction(n, d)]; the constructor raises when [d = 0], which
      callers exclude. *)
Definition make (n d : Z) : Q := Qred (inject_Z n / inject_Z d).

Definition of_int (n : Z) : Q := inject_Z n.

Definition add (a b : Q) : Q := Qred (a + b).
Definition sub (a b : Q) : Q := Qred (a - b).
Definition mul (a b : Q) : Q := Qred (a * b).
Definition div (a b : Q) : Q := Qred (a / b).

Definition leb (a b : Q) : bool := Qle_bool a b.
Definition ltb (a b : Q) : bool := negb (Qle_bool b a).
Definition eqb (a b : Q) : bool := Qeq_bool a b.

(** [repr(Fraction(n, d))] *)
Definition str_int (z : Z) : string := NilZero.string_of_int (Z.to_int z).

Definition repr (q : Q) : string :=
    ("Fraction(" ++ str_int (Qnum q) ++ ", " ++ str_int (Zpos (Qden q)) ++ ")")%string.

End Fraction.

(** ** Jobs *)

Record App : Type := mkApp {
  id : Z;
  duration : Z;   (* required processing time *)
  deadline : Z    (* deadline, in time units after submission *)
}.

(** [self.nominalRate = Fraction(1, duration)] *)
Definition nominalRate (a : App) : Q := Fraction.make 1 (duration a).

(** [App.__eq__] (and [App.__hash__], which returns [id]). *)
Definition App_eqb (a b : App) : bool := id a =? id b.

(** [App.__repr__] *)
Definition App_repr (a : App) : string := ("app" ++ Fraction.str_int (id a))%string.

(** ** Dictionaries keyed by jobs *)

Section Dict.

Context {V : Type}.

Definition dict : Type := list (App * V).

(** [d[k]]; [None] stands for [KeyError]. *)
Fixpoint dict_get (k : App) (d : dict) : option V :=
    match d with
    | [] => None
    | (k', v) :: d' => if App_eqb k k' then Some v else dict_get k d'
    end.

(** [k in d] *)
Definition dict_mem (k : App) (d : dict) : bool :=
    match dict_get k d with Some _ => true | None => false end.

(** [d[k] = v]: an existing key keeps its place and its key object, a
      new key goes to the end. *)
Fixpoint dict_set (k : App) (v : V) (d : dict) : dict :=
    match d with
    | [] => [(k, v)]
    | (k', v') :: d' =>
        if App_eqb k k' then (k', v) :: d' else (k', v') :: dict_set k v d'
    end.

(** [del d[k]] for a key that is present. *)
Definition dict_del (k : App) (d : dict) : dict :=
    filter (fun e => negb (App_eqb k (fst e))) d.

(** [d.keys()] in iteration order. *)
Definition dict_keys (d : dict) : list App := map fst d.

(** [not d] *)
Definition dict_is_empty (d : dict) : bool :=
    match d with [] => true | _ => false end.

(** [d1 == d2]: same size, and every key of [d1] is bound in [d2] to an
      equal value.  Insertion order plays no part. *)
Definition dict_eqb (veq : V -> V -> bool) (d1 d2 : dict) : bool :=
    (length d1 =? length d2)%nat &&
    forallb (fun e => match dict_get (fst e) d2 with
                      | Some v' => veq (snd e) v'
                      | None => false
                      end) d1.

(** The representation invariant of a dictionary: no two entries with
      equal keys. *)
Definition dict_ok (d : dict) : Prop := NoDup (map id (dict_keys d)).

End Dict.

Arguments dict V : clear implicits.

(** ** Timeline states *)

Record Spark : Type := mkSpark {
  running : dict (Z * Q);   (* job -> (submissionTime, progress) *)
  ended : dict (Z * Z)      (* job -> (submissionTime, finishTime) *)
}.

Definition RDict : Type := dict (Z * Q).
Definition EDict : Type := dict (Z * Z).


(** ** The state-and-exception monad of [addProgress]

    [addProgress(self, running, time)] mutates two objects: the
    dictionary it is handed and the scheduler itself. *)

Record Mem (Self : Type) : Type := mkMem {
  self : Self;
  run : RDict
}.

Arguments mkMem {Self} _ _.
Arguments self {Self} _.
Arguments run {Self} _.

Definition M (Self A : Type) : Type := Mem Self -> Mem Self * Result A.

Definition ret {Self A : Type} (a : A) : M Self A := fun m => (m, Ok a).

Definition raise {Self A : Type} (e : Exn) : M Self A := fun m => (m, Raise e).

Definition bind {Self A B : Type} (c : M Self A) (k : A -> M Self B) : M Self B :=
  fun m => match c m with
           | (m', Ok a) => k a m'
           | (m', Raise e) => (m', Raise e)
           end.

Notation "x <- c ;; k" := (bind c (fun x => k))
  (at level 61, c at next level, right associativity).
Notation "c ;;; k" := (bind c (fun _ => k))
  (at level 61, right associativity).

Definition get_running {Self : Type} : M Self RDict := fun m => (m, Ok (run m)).

Definition get_self {Self : Type} : M Self Self := fun m => (m, Ok (self m)).

Definition set_self {Self : Type} (o : Self) : M Self unit :=
  fun m => (mkMem o (run m), Ok tt).

(** [running[app]] *)
Definition getitem {Self : Type} (app : App) : M Self (Z * Q) :=
  fun m => match dict_get app (run m) with
           | Some v => (m, Ok v)
           | None => (m, Raise KeyError)
           end.

(** [running[app] = v] *)
Definition setitem {Self : Type} (app : App) (v : Z * Q) : M Self unit :=
  fun m => (mkMem (self m) (dict_set app v (run m)), Ok tt).

(** [running[app] = (running[app][0], running[app][1] + delta)] *)
Definition credit {Self : Type} (app : App) (delta : Q) : M Self unit :=
  v0 <- getitem app ;;
  v1 <- getitem app ;;
  setitem app (fst v0, Fraction.add (snd v1) delta).

(** [for x in l: body(x)] *)
Fixpoint for_each {Self A : Type} (l : list A) (body : A -> M Self unit) : M Self unit :=
  match l with
  | [] => ret tt
  | x :: l' => body x ;;; for_each l' body
  end.

(** The scan of [min(l, key=...)] and [max(l, key=...)] after the first
    element: the candidate changes only on a strictly better key, so the
    first of several best elements wins. *)
Fixpoint select {Self K : Type} (better : K -> K -> bool) (key : App -> M Self K)
    (best : App) (kbest : K) (l : list App) : M Self App :=
  match l with
  | [] => ret best
  | a :: l' =>
      ka <- key a ;;
      if better ka kbest then select better key a ka l'
      else select better key best kbest l'
  end.

Definition py_min {Self K : Type} (lt : K -> K -> bool) (key : App -> M Self K)
    (l : list App) : M Self App :=
  match l with
  | [] => raise ValueError
  | a :: l' => ka <- key a ;; select lt key a ka l'
  end.

Definition py_max {Self K : Type} (lt : K -> K -> bool) (key : App -> M Self K)
    (l : list App) : M Self App :=
  match l with
  | [] => raise ValueError
  | a :: l' => ka <- key a ;; select (fun new old => lt old new) key a ka l'
  end.

(** ** Python list indexing *)

(** The position [l[i]] denotes: a negative index counts from the end,
    anything outside [-len(l), len(l)) is an [IndexError]. *)
Definition py_pos {A : Type} (l : list A) (i : Z) : option nat :=
  let n := Z.of_nat (length l) in
  if (0 <=? i) && (i <? n) then Some (Z.to_nat i)
  else if (- n <=? i) && (i <? 0) then Some (Z.to_nat (n + i))
  else None.

Definition py_index {A : Type} (l : list A) (i : Z) : option A :=
  match py_pos l i with
  | Some k => nth_error l k
  | None => None
  end.

Fixpoint list_update {A : Type} (l : list A) (k : nat) (x : A) : list A :=
  match l, k with
  | [], _ => []
  | _ :: l', O => x :: l'
  | y :: l', S k' => y :: list_update l' k' x
  end.

(** [range(n)] *)
Definition py_range (n : Z) : list Z := map Z.of_nat (seq 0 (Z.to_nat n)).

(** [app in q] and [q.remove(app)] on a list of jobs. *)
Definition list_mem (app : App) (q : list App) : bool := existsb (App_eqb app) q.

Fixpoint list_remove (app : App) (q : list App) : list App :=
  match q with
  | [] => []
  | a :: q' => if App_eqb app a then q' else a :: list_remove app q'
  end.

(** ** Scheduling policies *)

Record RoundRobinObj : Type := mkRoundRobin {
  time_slice : Z;
  last_index : Z
}.

Record MLFQObj : Type := mkMLFQ {
  num_queues : Z;
  time_slices : list Z;
  queues : list (list App);
  app_queue : dict Z
}.

Inductive Scheduler : Type :=
| FIFO
| Fair
| EDFAll
| EDFPure
| RoundRobin (o : RoundRobinObj)
| ShortestJobNext
| LeastLaxityFirst
| PriorityScheduler (priorities : dict Z)
| MultilevelFeedbackQueue (o : MLFQObj).

(** [RoundRobin.__init__] *)
Definition RoundRobin_init (ts : Z) : Scheduler := RoundRobin (mkRoundRobin ts (-1)).

(** [MultilevelFeedbackQueue.__init__] *)
Definition MultilevelFeedbackQueue_init (n : Z) (ts : list Z) : Scheduler :=
  MultilevelFeedbackQueue (mkMLFQ n ts (map (fun _ => []) (py_range n)) []).

Definition FIFO_addProgress (time : Z) : M unit unit :=
  running <- get_running ;;
  if dict_is_empty running then ret tt else
  first_app <- py_min Z.ltb (fun app => v <- getitem app ;; ret (fst v))
                      (dict_keys running) ;;
  credit first_app (nominalRate first_app).

Definition Fair_addProgress (time : Z) : M unit unit :=
  running <- get_running ;;
  if dict_is_empty running then ret tt else
  let cnt := Z.of_nat (length running) in
  for_each (dict_keys running)
    (fun app => credit app (Fraction.div (nominalRate app) (Fraction.of_int cnt))).

Definition EDFAll_addProgress (time : Z) : M unit unit :=
  running <- get_running ;;
  if dict_is_empty running then ret tt else
  for_each (dict_keys running) (fun app => credit app (nominalRate app)).

Definition EDFPure_addProgress (time : Z) : M unit unit :=
  running <- get_running ;;
  if dict_is_empty running then ret tt else
  earliest_app <- py_min Z.ltb (fun app => ret (deadline app)) (dict_keys running) ;;
  credit earliest_app (nominalRate earliest_app).

Definition RoundRobin_addProgress (time : Z) : M RoundRobinObj unit :=
  running <- get_running ;;
  let apps_list := dict_keys running in
  match apps_list with
  | [] => ret tt
  | _ =>
      o <- get_self ;;
      set_self (mkRoundRobin (time_slice o)
                  ((last_index o + 1) mod Z.of_nat (length apps_list))) ;;;
      o <- get_self ;;
      match py_index apps_list (last_index o) with
      | None => raise IndexError
      | Some app =>
          o <- get_self ;;
          credit app (Fraction.mul (nominalRate app) (Fraction.of_int (time_slice o)))
      end
  end.

Definition ShortestJobNext_addProgress (time : Z) : M unit unit :=
  running <- get_running ;;
  if dict_is_empty running then ret tt else
  shortest_app <- py_min Z.ltb (fun app => ret (duration app)) (dict_keys running) ;;
  credit shortest_app (nominalRate shortest_app).

(** The local function [laxity] of [LeastLaxityFirst.addProgress]. *)
Definition laxity (time : Z) (app : App) : M unit Q :=
  v <- getitem app ;;
  let remaining_time := Fraction.sub (Fraction.of_int 1) (snd v) in
  ret (Fraction.sub (Fraction.of_int (deadline app - time)) remaining_time).

Definition LeastLaxityFirst_addProgress (time : Z) : M unit unit :=
  running <- get_running ;;
  if dict_is_empty running then ret tt else
  least_lax_app <- py_min Fraction.ltb (laxity time) (dict_keys running) ;;
  credit least_lax_app (nominalRate least_lax_app).

(** [self.priorities[app]] *)
Definition priority_of (app : App) : M (dict Z) Z :=
  priorities <- get_self ;;
  match dict_get app priorities with
  | Some p => ret p
  | None => raise KeyError
  end.

Definition PriorityScheduler_addProgress (time : Z) : M (dict Z) unit :=
  running <- get_running ;;
  if dict_is_empty running then ret tt else
  highest_priority_app <- py_max Z.ltb priority_of (dict_keys running) ;;
  credit highest_priority_app (nominalRate highest_priority_app).

(** *** The multilevel feedback queue *)

Definition set_queues (qs : list (list App)) : M MLFQObj unit :=
  o <- get_self ;;
  set_self (mkMLFQ (num_queues o) (time_slices o) qs (app_queue o)).

Definition set_app_queue (aq : dict Z) : M MLFQObj unit :=
  o <- get_self ;;
  set_self (mkMLFQ (num_queues o) (time_slices o) (queues o) aq).

(** [self.queues[i]] *)
Definition queue_at (i : Z) : M MLFQObj (list App) :=
  o <- get_self ;;
  match py_index (queues o) i with
  | Some q => ret q
  | None => raise IndexError
  end.

(** The list object [self.queues[i]] becomes [q] (the effect of
    [remove], [append] and [pop] on it). *)
Definition queue_store (i : Z) (q : list App) : M MLFQObj unit :=
  o <- get_self ;;
  match py_pos (queues o) i with
  | Some k => set_queues (list_update (queues o) k q)
  | None => raise IndexError
  end.

(** [self.queues[i].append(app)] *)
Definition queue_append (i : Z) (app : App) : M MLFQObj unit :=
  q <- queue_at i ;;
  queue_store i (q ++ [app]).

(** [self.app_queue[app]] *)
Definition app_queue_get (app : App) : M MLFQObj Z :=
  o <- get_self ;;
  match dict_get app (app_queue o) with
  | Some i => ret i
  | None => raise KeyError
  end.

(** [self.app_queue[app] = i] *)
Definition app_queue_set (app : App) (i : Z) : M MLFQObj unit :=
  o <- get_self ;;
  set_app_queue (dict_set app i (app_queue o)).

(** [del self.app_queue[app]] *)
Definition app_queue_del (app : App) : M MLFQObj unit :=
  o <- get_self ;;
  if dict_mem app (app_queue o) then set_app_queue (dict_del app (app_queue o))
  else raise KeyError.

(** [self.time_slices[i]] *)
Definition time_slice_at (i : Z) : M MLFQObj Z :=
  o <- get_self ;;
  match py_index (time_slices o) i with
  | Some ts => ret ts
  | None => raise IndexError
  end.

(** First loop: forget the jobs that are no longer running. *)
Definition MLFQ_purge (app : App) : M MLFQObj unit :=
  running <- get_running ;;
  if negb (dict_mem app running) then
    queue_idx <- app_queue_get app ;;
    q <- queue_at queue_idx ;;
    (if list_mem app q then queue_store queue_idx (list_remove app q) else ret tt) ;;;
    app_queue_del app
  else ret tt.

(** Second loop: new running jobs enter queue 0. *)
Definition MLFQ_enrol (app : App) : M MLFQObj unit :=
  o <- get_self ;;
  if negb (dict_mem app (app_queue o)) then
    queue_append 0 app ;;;
    app_queue_set app 0
  else ret tt.

(** Third loop, which stops at the first non-empty queue. *)
Fixpoint MLFQ_service (levels : list Z) : M MLFQObj unit :=
  match levels with
  | [] => ret tt
  | i :: rest =>
      q <- queue_at i ;;
      match q with
      | [] => MLFQ_service rest
      | app :: q' =>
          queue_store i q' ;;;                      (* app = self.queues[i].pop(0) *)
          running <- get_running ;;
          if dict_mem app running then
            ts <- time_slice_at i ;;
            let progress_increment := Fraction.mul (nominalRate app) (Fraction.of_int ts) in
            credit app progress_increment ;;;
            v <- getitem app ;;
            if Fraction.ltb (snd v) (Fraction.of_int 1) then
              o <- get_self ;;
              let next_queue := Z.min (i + 1) (num_queues o - 1) in
              queue_append next_queue app ;;;
              app_queue_set app next_queue
            else app_queue_del app
          else ret tt
      end
  end.

Definition MultilevelFeedbackQueue_addProgress (time : Z) : M MLFQObj unit :=
  running <- get_running ;;
  if dict_is_empty running then ret tt else
  o <- get_self ;;
  for_each (dict_keys (app_queue o)) MLFQ_purge ;;;
  running <- get_running ;;
  for_each (dict_keys running) MLFQ_enrol ;;;
  o <- get_self ;;
  MLFQ_service (py_range (num_queues o)).

(** ** Dispatch on the scheduler object *)

Definition exec {Self : Type} (c : M Self unit) (o : Self) (running : RDict)
    : Self * RDict * Result unit :=
  match c (mkMem o running) with
  | (m, r) => (self m, run m, r)
  end.

Definition lift {Self : Type} (wrap : Self -> Scheduler)
    (x : Self * RDict * Result unit) : Scheduler * RDict * Result unit :=
  match x with
  | (o, running, r) => (wrap o, running, r)
  end.

(** [scheduler.addProgress(running, time)]: the scheduler and the
    dictionary after the call, and whether the call returned or raised. *)
Definition addProgress (sched : Scheduler) (running : RDict) (time : Z)
    : Scheduler * RDict * Result unit :=
  match sched with
  | FIFO => lift (fun _ => FIFO) (exec (FIFO_addProgress time) tt running)
  | Fair => lift (fun _ => Fair) (exec (Fair_addProgress time) tt running)
  | EDFAll => lift (fun _ => EDFAll) (exec (EDFAll_addProgress time) tt running)
  | EDFPure => lift (fun _ => EDFPure) (exec (EDFPure_addProgress time) tt running)
  | RoundRobin o => lift RoundRobin (exec (RoundRobin_addProgress time) o running)
  | ShortestJobNext =>
      lift (fun _ => ShortestJobNext) (exec (ShortestJobNext_addProgress time) tt running)
  | LeastLaxityFirst =>
      lift (fun _ => LeastLaxityFirst) (exec (LeastLaxityFirst_addProgress time) tt running)
  | PriorityScheduler p =>
      lift PriorityScheduler (exec (PriorityScheduler_addProgress time) p running)
  | MultilevelFeedbackQueue o =>
      lift MultilevelFeedbackQueue (exec (MultilevelFeedbackQueue_addProgress time) o running)
  end.

(** ** Transitions of a timeline state *)

(** [app in self.running or app in self.ended] *)
Definition present (s : Spark) (app : App) : bool :=
  dict_mem app (running s) || dict_mem app (ended s).

(** The [for ... else] search of [schedule]: [true] when the loop
    reaches [break]. *)
Fixpoint has_predecessor (all_apps : list App) (app : App) : bool :=
  match all_apps with
  | [] => false
  | a :: rest => if id a =? id app - 1 then true else has_predecessor rest app
  end.

Definition schedule (s : Spark) (app : App) (time : Z) : Spark :=
  if present s app then s
  else
    let all_apps := dict_keys (running s) ++ dict_keys (ended s) in
    if has_predecessor all_apps app
    then mkSpark (dict_set app (time, Fraction.of_int 0) (running s)) (ended s)
    else s.

(** First loop of [tick]: finished jobs are recorded in [ended]. *)
Definition tick_finish (time : Z) (running : RDict) (ended : EDict) : EDict :=
  fold_left (fun ended e =>
               if Fraction.leb (Fraction.of_int 1) (snd (snd e))
               then dict_set (fst e) (fst (snd e), time) ended
               else ended)
            running ended.

(** Second loop of [tick]: whatever is in [ended] leaves [running]. *)
Definition tick_retire (ended : EDict) (running : RDict) : RDict :=
  fold_left (fun running app =>
               if dict_mem app running then dict_del app running else running)
            (dict_keys ended) running.

Definition tick (sched : Scheduler) (s : Spark) (time : Z) : Result (Scheduler * Spark) :=
  if dict_is_empty (running s) then Ok (sched, s)
  else
    match addProgress sched (running s) time with
    | (sched', running1, Raise e) => Raise e
    | (sched', running1, Ok _) =>
        let ended1 := tick_finish time running1 (ended s) in
        let running2 := tick_retire ended1 running1 in
        Ok (sched', mkSpark running2 ended1)
    end.

(** ** Classifiers *)

Definition computeViolations (s : Spark) (apps : list App) (steps : Z) : bool :=
  existsb (fun app =>
             match dict_get app (ended s) with
             | Some v => deadline app <? snd v - fst v
             | None => false
             end) apps.

Definition computeUnfeasibility (s : Spark) (apps : list App) (steps : Z) : bool :=
  existsb (fun app =>
             (negb (dict_mem app (ended s)) && negb (dict_mem app (running s)))
             || match dict_get app (running s) with
                | Some v => steps <? fst v + duration app
                | None => false
                end) apps.

Definition computeScenarioViolations (s : Spark) (apps : list App) (steps : Z) : bool :=
  if computeViolations s apps steps || computeUnfeasibility s apps steps then false
  else
    existsb (fun app =>
               negb (dict_mem app (ended s))
               && match dict_get app (running s) with
                  | Some v => fst v + duration app <=? steps
                  | None => false
                  end) apps.

Definition computeNonViolations (s : Spark) (apps : list App) (steps : Z) : bool :=
  negb (computeViolations s apps steps)
  && negb (computeScenarioViolations s apps steps)
  && negb (computeUnfeasibility s apps steps).

(** ** Metrics

    The script computes these with [float]s; the embedding keeps exact
    rationals in their place, which leaves the control flow and the
    divisors as they are.  Of the figures themselves only what rounding
    to [float] keeps is stated below: which error is raised, signs and
    zeros, and bounds by numbers a [float] holds exactly. *)

(** [x / n] for a number [x] and an [int] divisor. *)
Definition py_truediv (x : Q) (n : Z) : Result Q :=
  if n =? 0 then Raise ZeroDivisionError else Ok (x / inject_Z n)%Q.

(** The loop of [Spark.error]: the pair [(eA, eD)] after the entries. *)
Fixpoint error_loop (entries : EDict) (eA eD : Q) : Result (Q * Q) :=
  match entries with
  | [] => Ok (eA, eD)
  | (app, v) :: rest =>
      let exec_time := snd v - fst v in
      if deadline app =? 0 then Raise ZeroDivisionError
      else
        let e := Fraction.make (deadline app - exec_time) (deadline app) in
        if Fraction.ltb e (Fraction.of_int 0)
        then error_loop rest eA (Fraction.add eD (Qred (- e)))
        else error_loop rest (Fraction.add eA e) eD
  end.

Definition error (s : Spark) (apps : list App) : Result (Q * Q) :=
  match error_loop (ended s) (Fraction.of_int 0) (Fraction.of_int 0) with
  | Raise e => Raise e
  | Ok (eA, eD) =>
      let n := Z.of_nat (length apps) in
      if 0 <? n then Ok ((eA / inject_Z n)%Q, (eD / inject_Z n)%Q) else Ok (0%Q, 0%Q)
  end.

Record Tally : Type := mkTally {
  total_turnaround : Z;
  total_waiting : Z;
  count_tasks : Z;
  on_time_tasks : Z
}.

Definition tally_app (s : Spark) (acc : Tally) (app : App) : Tally :=
  match dict_get app (ended s) with
  | Some (sub_time, finish_time) =>
      let turnaround := finish_time - sub_time in
      let waiting := Z.max 0 (turnaround - duration app) in
      mkTally (total_turnaround acc + turnaround)
              (total_waiting acc + waiting)
              (count_tasks acc + 1)
              (if turnaround <=? deadline app then on_time_tasks acc + 1
               else on_time_tasks acc)
  | None => acc
  end.

Definition tally (states : list Spark) (apps : list App) : Tally :=
  fold_left (fun acc s => fold_left (tally_app s) apps acc) states (mkTally 0 0 0 0).

(** [sum(state.error(apps)[i] for state in states)] *)
Fixpoint sum_errors (proj : Q * Q -> Q) (states : list Spark) (apps : list App)
    : Result Q :=
  match states with
  | [] => Ok 0%Q
  | s :: rest =>
      match error s apps with
      | Raise e => Raise e
      | Ok p =>
          match sum_errors proj rest apps with
          | Raise e => Raise e
          | Ok x => Ok (proj p + x)%Q
          end
      end
  end.

(** [len([s for s in states if f(s)]) / len(states) * 100] *)
Definition share (f : Spark -> bool) (states : list Spark) : Result Q :=
  match py_truediv (inject_Z (Z.of_nat (length (filter f states))))
                   (Z.of_nat (length states)) with
  | Raise e => Raise e
  | Ok x => Ok (x * 100)%Q
  end.

Record Metrics : Type := mkMetrics {
  avg_turnaround_time : Q;
  avg_waiting_time : Q;
  deadline_adherence_pct : Q;
  eA_pct : Q;
  eD_pct : Q;
  violations_pct : Q;
  scenario_violations_pct : Q;
  unfeasibles_pct : Q;
  non_violations_pct : Q;
  num_states : Z;
  num_tasks : Z
}.

Definition and_then {A B : Type} (r : Result A) (k : A -> Result B) : Result B :=
  match r with
  | Ok a => k a
  | Raise e => Raise e
  end.

Definition computeMetrics (states : list Spark) (apps : list App) (steps : Z)
    : Result Metrics :=
  let t := tally states apps in
  let n := Z.of_nat (length states) in
  let guarded (x : Z) : Q :=
    if count_tasks t =? 0 then 0%Q else (inject_Z x / inject_Z (count_tasks t))%Q in
  let avg_turnaround := guarded (total_turnaround t) in
  let avg_waiting := guarded (total_waiting t) in
  let deadline_adherence :=
    if count_tasks t =? 0 then 0%Q
    else (inject_Z (on_time_tasks t) / inject_Z (count_tasks t) * 100)%Q in
  and_then (sum_errors fst states apps) (fun sA =>
  and_then (py_truediv sA n) (fun eA_total =>
  and_then (sum_errors snd states apps) (fun sD =>
  and_then (py_truediv sD n) (fun eD_total =>
  and_then (share (fun s => computeViolations s apps steps) states) (fun v =>
  and_then (share (fun s => computeScenarioViolations s apps steps) states) (fun sv =>
  and_then (share (fun s => computeUnfeasibility s apps steps) states) (fun u =>
  and_then (share (fun s => computeNonViolations s apps steps) states) (fun nv =>
  Ok (mkMetrics avg_turnaround avg_waiting deadline_adherence
                (eA_total * 100)%Q (eD_total * 100)%Q v sv u nv n (count_tasks t)))))))))).

(** ** Equality, [repr] and hashing of timeline states *)

Definition running_value_eqb (v w : Z * Q) : bool :=
  (fst v =? fst w) && Fraction.eqb (snd v) (snd w).

Definition ended_value_eqb (v w : Z * Z) : bool :=
  (fst v =? fst w) && (snd v =? snd w).

(** [Spark.__eq__] *)
Definition Spark_eqb (s other : Spark) : bool :=
  dict_eqb running_value_eqb (running s) (running other)
  && dict_eqb ended_value_eqb (ended s) (ended other).

Definition running_value_repr (v : Z * Q) : string :=
  ("(" ++ Fraction.str_int (fst v) ++ ", " ++ Fraction.repr (snd v) ++ ")")%string.

Definition ended_value_repr (v : Z * Z) : string :=
  ("(" ++ Fraction.str_int (fst v) ++ ", " ++ Fraction.str_int (snd v) ++ ")")%string.

(** [repr] of a dictionary: the entries in insertion order. *)
Definition dict_repr {V : Type} (vrepr : V -> string) (d : dict V) : string :=
  ("{" ++ String.concat ", "
            (map (fun e => App_repr (fst e) ++ ": " ++ vrepr (snd e)) d) ++ "}")%string.

(** [Spark.__repr__] *)
Definition Spark_repr (s : Spark) : string :=
  ("r:" ++ dict_repr running_value_repr (running s)
   ++ ", e:" ++ dict_repr ended_value_repr (ended s))%string.

(** ** Exploration

    [str_hash] is the built-in [hash] on strings and [set_iter] the order
    in which a [for] loop visits a set whose elements were inserted in
    the given order; the script fixes neither. *)

Section Exploration.

Variable str_hash : string -> Z.
Variable set_iter : list Spark -> list Spark.

(** [Spark.__hash__] *)
Definition Spark_hash (s : Spark) : Z := str_hash (Spark_repr s).

(** When a set takes a stored element and a candidate for the same
    element: equal hashes, and [==]. *)
Definition same_elem (stored x : Spark) : bool :=
  (Spark_hash stored =? Spark_hash x) && Spark_eqb stored x.

(** [x in l] for a set [l] *)
Definition set_mem (x : Spark) (l : list Spark) : bool :=
  existsb (fun stored => same_elem stored x) l.

Definition set_add (x : Spark) (l : list Spark) : list Spark :=
  if set_mem x l then l else l ++ [x].

(** [a | b], and the result of [a |= b] *)
Definition set_union (a b : list Spark) : list Spark :=
  fold_left (fun acc x => set_add x acc) b a.

Fixpoint nextStates (apps : list App) (state : Spark) (time : Z) : list Spark :=
  match apps with
  | [] => [state]
  | app :: rest =>
      let state_sched := schedule state app time in
      set_union (nextStates rest state_sched time) (nextStates rest state time)
  end.

(** The inner loop of [simulate] at time [t]: [todo] are the states still
    to visit, [newStates] the set built so far. *)
Fixpoint simulate_tick (apps : list App) (sched : Scheduler) (todo : list Spark)
    (t : Z) (newStates : list Spark) : Result (Scheduler * list Spark) :=
  match todo with
  | [] => Ok (sched, newStates)
  | state :: todo' =>
      match tick sched state t with
      | Raise e => Raise e
      | Ok (sched', ticked) =>
          simulate_tick apps sched' todo' t (set_union newStates (nextStates apps ticked t))
      end
  end.

(** The outer loop of [simulate] over the remaining times. *)
Fixpoint simulate_loop (apps : list App) (sched : Scheduler) (states : list Spark)
    (times : list Z) : Result (Scheduler * list Spark) :=
  match times with
  | [] => Ok (sched, states)
  | t :: times' =>
      match simulate_tick apps sched (set_iter states) t [] with
      | Raise e => Raise e
      | Ok (sched', newStates) => simulate_loop apps sched' newStates times'
      end
  end.

(** [simulate(initial, apps, steps)], where [sched] is [initial.scheduler]. *)
Definition simulate (sched : Scheduler) (initial : Spark) (apps : list App) (steps : Z)
    : Result (list Spark) :=
  match simulate_loop apps sched [initial] (py_range (steps + 1)) with
  | Raise e => Raise e
  | Ok (_, states) => Ok states
  end.

End Exploration.

(** ** Timeline states as objects in a store

    [tick] works on copies: [dict(self.running)] and [dict(self.ended)]
    are new dictionaries, [addProgress] and the two loops mutate those,
    and [Spark(...)] copies them once more.  The store keeps one cell per
    dictionary object, so that what each statement writes to is
    explicit. *)

Record Store : Type := mkStore {
  rcells : list RDict;
  ecells : list EDict
}.

Record SparkObj : Type := mkSparkObj {
  running_ref : nat;
  ended_ref : nat
}.

Definition load_r (st : Store) (k : nat) : RDict := nth k (rcells st) [].

Definition load_e (st : Store) (k : nat) : EDict := nth k (ecells st) [].

(** The timeline state an object stands for. *)
Definition view (st : Store) (o : SparkObj) : Spark :=
  mkSpark (load_r st (running_ref o)) (load_e st (ended_ref o)).

(** [dict(d)]: a new cell holding a copy. *)
Definition new_r (st : Store) (d : RDict) : Store * nat :=
  (mkStore (rcells st ++ [d]) (ecells st), length (rcells st)).

Definition new_e (st : Store) (d : EDict) : Store * nat :=
  (mkStore (rcells st) (ecells st ++ [d]), length (ecells st)).

(** In-place mutation of the dictionary in cell [k]. *)
Definition store_r (st : Store) (k : nat) (d : RDict) : Store :=
  mkStore (list_update (rcells st) k d) (ecells st).

Definition store_e (st : Store) (k : nat) (d : EDict) : Store :=
  mkStore (rcells st) (list_update (ecells st) k d).

(** [Spark.__init__(scheduler, running, ended)] *)
Definition Spark_init (st : Store) (running ended : nat) : Store * SparkObj :=
  let (st1, r) := new_r st (load_r st running) in
  let (st2, e) := new_e st1 (load_e st1 ended) in
  (st2, mkSparkObj r e).

(** [Spark.tick] on objects. *)
Definition tick_obj (sched : Scheduler) (st : Store) (self : SparkObj) (time : Z)
    : Store * Result (Scheduler * SparkObj) :=
  if dict_is_empty (load_r st (running_ref self)) then (st, Ok (sched, self))
  else
    let (st1, running) := new_r st (load_r st (running_ref self)) in
    let (st2, ended) := new_e st1 (load_e st1 (ended_ref self)) in
    match addProgress sched (load_r st2 running) time with
    | (sched', running1, res) =>
        let st3 := store_r st2 running running1 in
        match res with
        | Raise e => (st3, Raise e)
        | Ok _ =>
            let st4 :=
              store_e st3 ended (tick_finish time (load_r st3 running) (load_e st3 ended)) in
            let st5 :=
              store_r st4 running (tick_retire (load_e st4 ended) (load_r st4 running)) in
            let (st6, o) := Spark_init st5 running ended in
            (st6, Ok (sched', o))
        end
    end.

(** ** Predicates of the specification *)

(** A job appears in at most one of the two mappings. *)
Definition disjoint (s : Spark) : Prop :=
  forall app, dict_mem app (running s) = true -> dict_mem app (ended s) = false.

Definition Spark_ok (s : Spark) : Prop :=
  dict_ok (running s) /\ dict_ok (ended s).

(** Some job with id [k] is in [running] or in [ended]. *)
Definition has_id (s : Spark) (k : Z) : bool :=
  existsb (fun a => id a =? k) (dict_keys (running s) ++ dict_keys (ended s)).

(** The dependency order: a job with id above 1 has its predecessor in
    the same state. *)
Definition dep_ok (s : Spark) : Prop :=
  forall k, 1 < k -> has_id s k = true -> has_id s (k - 1) = true.

(** [finished e]: the test [value[1] >= 1] of [tick] on an entry. *)
Definition finished (e : App * (Z * Q)) : bool :=
  Fraction.leb (Fraction.of_int 1) (snd (snd e)).

(** [r'] has the keys of [r], in the same order and with the same
    submission times, and the progress of each job is related by [R]. *)
Definition evolves (R : Q -> Q -> Prop) (r r' : RDict) : Prop :=
  dict_keys r' = dict_keys r /\
  forall app sub p, dict_get app r = Some (sub, p) ->
    exists p', dict_get app r' = Some (sub, p') /\ R p p'.

(** What the policies need of their configuration: time slices are not
    negative, and the jobs a multilevel queue holds have a positive
    duration, as every job has. *)
Definition Scheduler_ok (sched : Scheduler) : Prop :=
  match sched with
  | RoundRobin o => 0 <= time_slice o
  | MultilevelFeedbackQueue o =>
      Forall (fun ts => 0 <= ts) (time_slices o) /\
      Forall (Forall (fun a => 0 < duration a)) (queues o)
  | _ => True
  end.

(** The policies whose [addProgress] has no failing lookup. *)
Definition never_raises (sched : Scheduler) : bool :=
  match sched with
  | PriorityScheduler _ | MultilevelFeedbackQueue _ => false
  | _ => true
  end.


(** ** Definitions used in the proofs *)

(** Some job with id [k] is among the keys of [running] and [ended]. *)
Definition id_in (k : Z) (s : Spark) : Prop :=
  exists a, In a (dict_keys (running s) ++ dict_keys (ended s)) /\ id a = k.

(** [wp c Q E m]: started in [m], the computation [c] ends in a memory
    satisfying [Q a] when it returns [a], and [E] when it raises. *)
Definition wp {Self A : Type} (c : M Self A) (Q : A -> Mem Self -> Prop)
    (E : Mem Self -> Prop) (m : Mem Self) : Prop :=
  match c m with
  | (m', Ok a) => Q a m'
  | (m', Raise _) => E m'
  end.

(** The dictionary evolved from [r0], and the scheduler object is as it
    should be. *)
Definition Inv {Self : Type} (R : Q -> Q -> Prop) (r0 : RDict) (J : Self -> Prop)
    (m : Mem Self) : Prop :=
  evolves R r0 (run m) /\ J (self m).

(** A job whose increment is [good] at every level of a multilevel
    queue with time slices [tss]. *)
Definition level_ok (good : Q -> Prop) (tss : list Z) (a : App) : Prop :=
  forall ts, In ts tss -> good (Fraction.mul (nominalRate a) (Fraction.of_int ts)).

Definition MLFQ_J (good : Q -> Prop) (tss : list Z) (o : MLFQObj) : Prop :=
  time_slices o = tss /\ Forall (Forall (level_ok good tss)) (queues o).

(** The increments a scheduler hands out to the jobs of [running] are
    all [good]. *)
Definition increments_good (good : Q -> Prop) (sched : Scheduler) (running : RDict) : Prop :=
  match sched with
  | Fair =>
      forall a, In a (dict_keys running) ->
        good (Fraction.div (nominalRate a) (Fraction.of_int (Z.of_nat (length running))))
  | RoundRobin o =>
      forall a, In a (dict_keys running) ->
        good (Fraction.mul (nominalRate a) (Fraction.of_int (time_slice o)))
  | MultilevelFeedbackQueue o =>
      (forall a, In a (dict_keys running) -> level_ok good (time_slices o) a) /\
      Forall (Forall (level_ok good (time_slices o))) (queues o)
  | _ => forall a, In a (dict_keys running) -> good (nominalRate a)
  end.

(** The scan of [select] when the key only reads the state: [None] is a
    failed lookup. *)
Fixpoint select_opt {K : Type} (better : K -> K -> bool) (f : App -> option K)
    (best : App) (kbest : K) (l : list App) : option App :=
  match l with
  | [] => Some best
  | a :: l' =>
      match f a with
      | None => None
      | Some ka =>
          if better ka kbest then select_opt better f a ka l'
          else select_opt better f best kbest l'
      end
  end.

Definition lookup_result {A : Type} (o : option A) : Result A :=
  match o with
  | Some a => Ok a
  | None => Raise KeyError
  end.

(** A multilevel queue object in a consistent state: at least one
    queue, a time slice for each, every tracked job at a level that
    exists, every queued job tracked at the level of its queue, and no
    job twice in a queue. *)
Definition MLFQ_wf (o : MLFQObj) : Prop :=
  1 <= num_queues o /\
  Z.of_nat (length (queues o)) = num_queues o /\
  num_queues o <= Z.of_nat (length (time_slices o)) /\
  dict_ok (app_queue o) /\
  (forall app i, dict_get app (app_queue o) = Some i -> 0 <= i < num_queues o) /\
  (forall k q app, nth_error (queues o) k = Some q -> list_mem app q = true ->
     dict_get app (app_queue o) = Some (Z.of_nat k)) /\
  Forall (fun q => NoDup (map id q)) (queues o).

(** No queue holds the job. *)
Definition unqueued (app : App) (o : MLFQObj) : Prop :=
  forall k q, nth_error (queues o) k = Some q -> list_mem app q = false.

Definition with_queues (o : MLFQObj) (qs : list (list App)) : MLFQObj :=
  mkMLFQ (num_queues o) (time_slices o) qs (app_queue o).

Definition with_app_queue (o : MLFQObj) (aq : dict Z) : MLFQObj :=
  mkMLFQ (num_queues o) (time_slices o) (queues o) aq.

(** A scheduler set up so that [addProgress] returns on every state of
    the exploration from [initial] over [apps]: a priority for each job
    that can run, a consistent multilevel queue; the other policies need
    nothing. *)
Definition returns_on (sched : Scheduler) (initial : Spark) (apps : list App) : Prop :=
  match sched with
  | PriorityScheduler priorities =>
      forall a, In a (dict_keys (running initial)) \/ In a apps ->
                dict_get a priorities <> None
  | MultilevelFeedbackQueue o => MLFQ_wf o
  | _ => True
  end.

(** ** Definitions used in the further properties *)

Definition laxity_value (time : Z) (app : App) (p : Q) : Q :=
  Fraction.sub (Fraction.of_int (deadline app - time))
               (Fraction.sub (Fraction.of_int 1) p).

(** Every entry credited with the increment [g] gives its key. *)
Definition credit_all (g : App -> Q) (running : RDict) : RDict :=
  map (fun e => (fst e, (fst (snd e), Fraction.add (snd (snd e)) (g (fst e))))) running.

(** The job was running in [seed], submitted at [sub]. *)
Definition seeded (seed : Spark) (a : App) (sub : Z) : Prop :=
  exists p0, dict_get a (running seed) = Some (sub, p0).

(** The time stamps of a state that enters iteration [t] of the
    exploration from [seed]: a job is either one of the seed, with the
    submission time it had there, or arrived at some earlier iteration;
    what ended during the exploration did so at an earlier iteration,
    and after it arrived. *)
Definition stamps_ok (seed : Spark) (t : Z) (s : Spark) : Prop :=
  dict_ok (running s) /\
  (forall a, present seed a = true -> present s a = true) /\
  (forall a sub p, dict_get a (running s) = Some (sub, p) ->
     seeded seed a sub \/ (present seed a = false /\ 0 <= sub < t)) /\
  (forall a sub fin, dict_get a (ended s) = Some (sub, fin) ->
     dict_get a (ended seed) = Some (sub, fin) \/
     (seeded seed a sub /\ 0 <= fin < t) \/
     (present seed a = false /\ 0 <= sub < fin /\ fin < t)).

(** [c / n * 100], the percentage [computeMetrics] makes of a count. *)
Definition percent (c n : Z) : Q := (inject_Z c / inject_Z n * 100)%Q.

(** Two lookups agree: both fail, or both give values that are equal. *)
Definition same_entry {V : Type} (veq : V -> V -> bool) (x y : option V) : Prop :=
  match x, y with
  | Some v, Some w => veq v w = true
  | None, None => True
  | _, _ => False
  end.

(** [r'] is [r], or [r] after one job was credited with its nominal
    rate. *)
Definition credited_once (r r' : RDict) : Prop :=
  r' = r \/
  exists best v,
    In best (dict_keys r) /\ dict_get best r = Some v /\
    r' = dict_set best (fst v, Fraction.add (snd v) (nominalRate best)) r.

(** The policies that hand a job at most its nominal rate per call. *)
Definition nominal (sched : Scheduler) : bool :=
  match sched with
  | RoundRobin _ | MultilevelFeedbackQueue _ => false
  | _ => true
  end.

(** A state that enters iteration [t] of the exploration from [seed]
    over [apps] at the pace of its jobs: a job that arrived at [sub] has
    received at most [t - 1 - sub] ticks' worth of progress, and one
    that has ended took at least its duration. *)
Definition paced (seed : Spark) (apps : list App) (t : Z) (s : Spark) : Prop :=
  Spark_ok s /\ disjoint s /\
  (forall a, present seed a = true -> present s a = true) /\
  (forall k sub p, In (k, (sub, p)) (running s) -> present seed k = false ->
     In k apps /\ (p * inject_Z (duration k) <= inject_Z (t - 1 - sub))%Q) /\
  (forall k sub fin, In (k, (sub, fin)) (ended s) -> present seed k = false ->
     duration k <= fin - sub).

(** An entry after a credit of [g] of its key. *)
Definition credit_entry (g : App -> Q) (e : App * (Z * Q)) : App * (Z * Q) :=
  (fst e, (fst (snd e), Fraction.add (snd (snd e)) (g (fst e)))).

(** [k] calls of [addProgress] in a row on the same dictionary object;
    a call that raises ends the sequence. *)
Fixpoint addProgress_times (k : nat) (sched : Scheduler) (running : RDict) (time : Z)
    : Scheduler * RDict * Result unit :=
  match k with
  | O => (sched, running, Ok tt)
  | S k' =>
      match addProgress sched running time with
      | (sched', running', Ok _) => addProgress_times k' sched' running' time
      | (sched', running', Raise e) => (sched', running', Raise e)
      end
  end.

(** A round robin with time slice [ts] that started at cursor [c] on the
    dictionary [r0], after [j] calls: the jobs at the [j] positions that
    follow [c] cyclically have been credited once, the others not. *)
Definition round_state (r0 : RDict) (ts c j : Z) (o : RoundRobinObj) (r : RDict) : Prop :=
  time_slice o = ts /\
  last_index o = (if j =? 0 then c else (c + j) mod Z.of_nat (length r0)) /\
  length r = length r0 /\
  forall i e, nth_error r0 i = Some e ->
    nth_error r i =
      Some (if (Z.of_nat i - c - 1) mod Z.of_nat (length r0) <? j
            then credit_entry (fun app => Fraction.mul (nominalRate app)
                                            (Fraction.of_int ts)) e
            else e).

(** ** The order of insertion in an exploration *)













(** * Properties *)

(** ** Keys *)

Lemma App_eqb_eq (a b : App) : App_eqb a b = true <-> id a = id b.
Proof. unfold App_eqb. apply Z.eqb_eq. Qed.

Lemma App_eqb_neq (a b : App) : App_eqb a b = false <-> id a <> id b.
Proof. unfold App_eqb. apply Z.eqb_neq. Qed.

Lemma App_eqb_refl (a : App) : App_eqb a a = true.
Proof. apply App_eqb_eq. reflexivity. Qed.

Lemma App_eqb_sym (a b : App) : App_eqb a b = App_eqb b a.
Proof. unfold App_eqb. apply Z.eqb_sym. Qed.

Lemma App_eqb_congr (a b c : App) :
  App_eqb a b = true -> App_eqb a c = App_eqb b c.
Proof.
  unfold App_eqb. intros H. apply Z.eqb_eq in H. rewrite H. reflexivity.
Qed.

(** Closes a goal whose hypotheses on key comparisons contradict each
    other. *)
Ltac by_ids :=
  exfalso;
  repeat match goal with
         | H : App_eqb _ _ = true |- _ => apply App_eqb_eq in H
         | H : App_eqb _ _ = false |- _ => apply App_eqb_neq in H
         end;
  congruence.

(** ** Dictionaries *)

Section DictFacts.

Context {V : Type}.
Implicit Types (d : dict V) (k : App) (v : V).

Lemma dict_get_congr k k' d :
  App_eqb k k' = true -> dict_get k d = dict_get k' d.
Proof.
  intros H. induction d as [|[k0 v0] d IH]; simpl; [reflexivity|].
  rewrite (App_eqb_congr _ _ k0 H), IH. reflexivity.
Qed.

Lemma dict_mem_congr k k' d :
  App_eqb k k' = true -> dict_mem k d = dict_mem k' d.
Proof. intros H. unfold dict_mem. rewrite (dict_get_congr _ _ _ H). reflexivity. Qed.

Lemma dict_mem_true k d : dict_mem k d = true <-> exists v, dict_get k d = Some v.
Proof.
  unfold dict_mem. destruct (dict_get k d) as [v|]; split; intros H.
  - exists v. reflexivity.
  - reflexivity.
  - discriminate.
  - destruct H as [v H]. discriminate.
Qed.

Lemma dict_mem_false k d : dict_mem k d = false <-> dict_get k d = None.
Proof. unfold dict_mem. destruct (dict_get k d); split; congruence. Qed.

Lemma dict_mem_existsb k d :
  dict_mem k d = existsb (App_eqb k) (dict_keys d).
Proof.
  unfold dict_mem. induction d as [|[k0 v0] d IH]; simpl; [reflexivity|].
  destruct (App_eqb k k0); simpl; [reflexivity | exact IH].
Qed.

Lemma dict_get_In k v d : dict_get k d = Some v -> exists k', In (k', v) d /\ App_eqb k k' = true.
Proof.
  induction d as [|[k0 v0] d IH]; simpl; [discriminate|].
  destruct (App_eqb k k0) eqn:E; intros H.
  - injection H as <-. exists k0. auto.
  - destruct (IH H) as (k' & Hin & Hk). exists k'. auto.
Qed.

Lemma In_dict_mem k v d : In (k, v) d -> dict_mem k d = true.
Proof.
  intros H. rewrite dict_mem_existsb. apply existsb_exists.
  exists k. split; [|apply App_eqb_refl].
  unfold dict_keys. apply (in_map fst) in H. exact H.
Qed.

Lemma dict_get_set k k' v d :
  dict_get k (dict_set k' v d) = if App_eqb k k' then Some v else dict_get k d.
Proof.
  induction d as [|[k0 v0] d IH]; simpl.
  - destruct (App_eqb k k'); reflexivity.
  - destruct (App_eqb k' k0) eqn:E0; simpl;
      destruct (App_eqb k k0) eqn:E1; destruct (App_eqb k k') eqn:E;
      try reflexivity; try exact IH; by_ids.
Qed.

Lemma dict_mem_set k k' v d :
  dict_mem k (dict_set k' v d) = App_eqb k k' || dict_mem k d.
Proof.
  unfold dict_mem. rewrite dict_get_set. destruct (App_eqb k k'); reflexivity.
Qed.

Lemma dict_keys_set_present k v d :
  dict_mem k d = true -> dict_keys (dict_set k v d) = dict_keys d.
Proof.
  unfold dict_mem. induction d as [|[k0 v0] d IH]; simpl; [discriminate|].
  destruct (App_eqb k k0); simpl; intros H; [reflexivity|].
  f_equal. apply IH. exact H.
Qed.

Lemma dict_set_absent k v d :
  dict_mem k d = false -> dict_set k v d = d ++ [(k, v)].
Proof.
  unfold dict_mem. induction d as [|[k0 v0] d IH]; simpl; [reflexivity|].
  destruct (App_eqb k k0); simpl; intros H; [discriminate|].
  f_equal. apply IH. exact H.
Qed.

Lemma dict_get_del k k' d :
  dict_get k (dict_del k' d) = if App_eqb k k' then None else dict_get k d.
Proof.
  unfold dict_del. induction d as [|[k0 v0] d IH]; simpl.
  - destruct (App_eqb k k'); reflexivity.
  - destruct (App_eqb k' k0) eqn:E0; simpl;
      destruct (App_eqb k k0) eqn:E1; destruct (App_eqb k k') eqn:E;
      try reflexivity; try exact IH; by_ids.
Qed.

Lemma dict_mem_del k k' d :
  dict_mem k (dict_del k' d) = negb (App_eqb k k') && dict_mem k d.
Proof.
  unfold dict_mem. rewrite dict_get_del. destruct (App_eqb k k'); reflexivity.
Qed.

Lemma dict_del_absent k d : dict_mem k d = false -> dict_del k d = d.
Proof.
  unfold dict_del, dict_mem. induction d as [|[k0 v0] d IH]; simpl; [reflexivity|].
  destruct (App_eqb k k0); simpl; intros H; [discriminate|].
  f_equal. apply IH. exact H.
Qed.

Lemma dict_ok_cons k v d :
  dict_ok ((k, v) :: d) <-> dict_mem k d = false /\ dict_ok d.
Proof.
  unfold dict_ok. simpl. rewrite NoDup_cons_iff.
  assert (X : In (id k) (map id (dict_keys d)) <-> dict_mem k d = true).
  { rewrite dict_mem_existsb, existsb_exists, in_map_iff. split.
    - intros (a & Ha & Hin). exists a. split; [exact Hin|]. apply App_eqb_eq. auto.
    - intros (a & Hin & Ha). exists a. apply App_eqb_eq in Ha. auto. }
  rewrite X. destruct (dict_mem k d); intuition congruence.
Qed.

Lemma dict_ok_get k v d : dict_ok d -> In (k, v) d -> dict_get k d = Some v.
Proof.
  induction d as [|[k0 v0] d IH]; simpl; intros Hok Hin; [contradiction|].
  apply dict_ok_cons in Hok. destruct Hok as [Hk0 Hok].
  destruct Hin as [Hin|Hin].
  - injection Hin as -> ->. rewrite App_eqb_refl. reflexivity.
  - destruct (App_eqb k k0) eqn:E.
    + apply In_dict_mem in Hin. rewrite (dict_mem_congr _ _ _ E) in Hin. congruence.
    + apply IH; assumption.
Qed.

Lemma In_keys_get k d : In k (dict_keys d) -> exists v, dict_get k d = Some v.
Proof.
  intros H. apply dict_mem_true. rewrite dict_mem_existsb. apply existsb_exists.
  exists k. split; [exact H|apply App_eqb_refl].
Qed.

End DictFacts.

(** ** Weakest preconditions in [M]

    [wp c Q E m]: started in [m], the computation [c] ends in a memory
    satisfying [Q a] when it returns [a], and [E] when it raises. *)

Section WP.

Context {Self : Type}.

Lemma wp_ret {A} (a : A) Q E (m : Mem Self) : Q a m -> wp (ret a) Q E m.
Proof. intros H. exact H. Qed.

Lemma wp_raise {A} e (Q : A -> Mem Self -> Prop) E (m : Mem Self) : E m -> wp (raise e) Q E m.
Proof. intros H. exact H. Qed.

Lemma wp_bind {A B} (c : M Self A) (k : A -> M Self B) Q E (m : Mem Self) :
  wp c (fun a m' => wp (k a) Q E m') E m -> wp (bind c k) Q E m.
Proof.
  unfold wp, bind. destruct (c m) as [m' [a|e]]; intros H; exact H.
Qed.

Lemma wp_mono {A} (c : M Self A) (Q Q' : A -> Mem Self -> Prop) (E E' : Mem Self -> Prop) (m : Mem Self) :
  (forall a m', Q a m' -> Q' a m') -> (forall m', E m' -> E' m') ->
  wp c Q E m -> wp c Q' E' m.
Proof.
  unfold wp. intros HQ HE. destruct (c m) as [m' [a|e]]; auto.
Qed.

Lemma wp_get_running Q E (m : Mem Self) : Q (run m) m -> wp get_running Q E m.
Proof. intros H. exact H. Qed.

Lemma wp_get_self Q E (m : Mem Self) : Q (self m) m -> wp get_self Q E m.
Proof. intros H. exact H. Qed.

Lemma wp_set_self o Q E (m : Mem Self) : Q tt (mkMem o (run m)) -> wp (set_self o) Q E m.
Proof. intros H. exact H. Qed.

Lemma wp_getitem app Q E (m : Mem Self) :
  match dict_get app (run m) with Some v => Q v m | None => E m end ->
  wp (getitem app) Q E m.
Proof.
  unfold wp, getitem. destruct (dict_get app (run m)); intros H; exact H.
Qed.

Lemma wp_setitem app v Q E (m : Mem Self) :
  Q tt (mkMem (self m) (dict_set app v (run m))) -> wp (setitem app v) Q E m.
Proof. intros H. exact H. Qed.

Lemma wp_credit app delta Q E (m : Mem Self) :
  match dict_get app (run m) with
  | Some v => Q tt (mkMem (self m) (dict_set app (fst v, Fraction.add (snd v) delta) (run m)))
  | None => E m
  end ->
  wp (credit app delta) Q E m.
Proof.
  intros H. unfold credit. apply wp_bind, wp_getitem.
  destruct (dict_get app (run m)) as [v|] eqn:G; [|exact H].
  apply wp_bind, wp_getitem. rewrite G. apply wp_setitem. exact H.
Qed.

(** A loop keeps an invariant that each round keeps. *)
Lemma wp_for_each {A} (l : list A) (body : A -> M Self unit) (I E : Mem Self -> Prop) :
  (forall x m, In x l -> I m -> wp (body x) (fun _ => I) E m) ->
  forall m, I m -> wp (for_each l body) (fun _ => I) E m.
Proof.
  induction l as [|x l IH]; simpl; intros Hbody m Hm.
  - apply wp_ret. exact Hm.
  - apply wp_bind. eapply wp_mono; [| |apply Hbody; auto].
    + intros u m' Hm'. apply IH; auto.
    + auto.
Qed.

(** The scan of [min] and [max] returns one of the candidates, and
    keeps an invariant that the key function keeps. *)
Lemma wp_select {K} (better : K -> K -> bool) (key : App -> M Self K)
    (I E : Mem Self -> Prop) (l : list App) :
  (forall a m, In a l -> I m -> wp (key a) (fun _ => I) E m) ->
  forall best kbest m, I m ->
    wp (select better key best kbest l) (fun a m' => I m' /\ In a (best :: l)) E m.
Proof.
  induction l as [|a l IH]; simpl; intros Hkey best kbest m Hm.
  - apply wp_ret. auto.
  - apply wp_bind. eapply wp_mono; [| |apply (Hkey a); auto]; [|auto].
    intros ka m' Hm'. simpl.
    destruct (better ka kbest).
    + eapply wp_mono; [| |apply IH; auto]; [|auto].
      simpl. intros x m'' [? [?|?]]; auto.
    + eapply wp_mono; [| |apply IH; auto]; [|auto].
      simpl. intros x m'' [? [?|?]]; auto.
Qed.

Lemma wp_py_min {K} (lt : K -> K -> bool) (key : App -> M Self K)
    (I E : Mem Self -> Prop) (l : list App) (m : Mem Self) :
  (forall a m, In a l -> I m -> wp (key a) (fun _ => I) E m) ->
  l <> [] -> I m ->
  wp (py_min lt key l) (fun a m' => I m' /\ In a l) E m.
Proof.
  intros Hkey Hl Hm. destruct l as [|a l]; [congruence|]. unfold py_min.
  apply wp_bind. eapply wp_mono; [| |apply (Hkey a); simpl; auto]; [|auto].
  intros ka m' Hm'. simpl. apply wp_select; auto.
  intros b m0 Hb. apply Hkey. simpl. auto.
Qed.

Lemma wp_py_max {K} (lt : K -> K -> bool) (key : App -> M Self K)
    (I E : Mem Self -> Prop) (l : list App) (m : Mem Self) :
  (forall a m, In a l -> I m -> wp (key a) (fun _ => I) E m) ->
  l <> [] -> I m ->
  wp (py_max lt key l) (fun a m' => I m' /\ In a l) E m.
Proof.
  intros Hkey Hl Hm. destruct l as [|a l]; [congruence|]. unfold py_max.
  apply wp_bind. eapply wp_mono; [| |apply (Hkey a); simpl; auto]; [|auto].
  intros ka m' Hm'. simpl. apply wp_select; auto.
  intros b m0 Hb. apply Hkey. simpl. auto.
Qed.

End WP.

(** ** What [addProgress] does to the dictionary it is handed

    The section is generic in the relation [R] between the progress of a
    job before and after, and in the increments [good] for it: with [<=]
    and the non-negative increments it gives monotonicity, with the full
    relation it gives the facts that need no assumption (keys and
    submission times stay). *)

Section Evolution.

Variable R : Q -> Q -> Prop.
Variable good : Q -> Prop.
Hypothesis R_refl : forall p, R p p.
Hypothesis R_trans : forall p q r, R p q -> R q r -> R p r.
Hypothesis R_add : forall p d, good d -> R p (Fraction.add p d).

Lemma evolves_refl (r : RDict) : evolves R r r.
Proof.
  split; [reflexivity|]. intros app sub p H. exists p. auto.
Qed.

Lemma evolves_trans (r1 r2 r3 : RDict) :
  evolves R r1 r2 -> evolves R r2 r3 -> evolves R r1 r3.
Proof.
  intros [K12 H12] [K23 H23]. split; [congruence|].
  intros app sub p H. destruct (H12 _ _ _ H) as (p' & H' & Hp).
  destruct (H23 _ _ _ H') as (p'' & H'' & Hp'). exists p''. eauto.
Qed.

Lemma evolves_credit (r : RDict) (app : App) (v : Z * Q) (d : Q) :
  dict_get app r = Some v -> good d ->
  evolves R r (dict_set app (fst v, Fraction.add (snd v) d) r).
Proof.
  intros G Hd. split.
  - apply dict_keys_set_present. apply dict_mem_true. eauto.
  - intros a sub p H. rewrite dict_get_set. destruct (App_eqb a app) eqn:E.
    + rewrite (dict_get_congr _ _ _ E), G in H. injection H as ->. simpl.
      eexists. split; [reflexivity|]. apply R_add. exact Hd.
    + exists p. auto.
Qed.

Section Invariant.

Context {Self : Type}.
Variable r0 : RDict.
Variable J : Self -> Prop.

Local Notation "'Inv0'" := (Inv R r0 J).

Lemma Inv_keys m : Inv0 m -> dict_keys (run m) = dict_keys r0.
Proof. intros [[H _] _]. exact H. Qed.

Lemma credit_inv app d m :
  good d -> Inv0 m -> wp (credit app d) (fun _ => Inv0) Inv0 m.
Proof.
  intros Hd [Hev HJ]. apply wp_credit.
  destruct (dict_get app (run m)) as [v|] eqn:G; [|split; assumption].
  split; [|exact HJ]. simpl.
  eapply evolves_trans; [exact Hev|]. apply evolves_credit; assumption.
Qed.

Lemma getitem_inv app m : Inv0 m -> wp (getitem app) (fun _ => Inv0) Inv0 m.
Proof.
  intros H. apply wp_getitem. destruct (dict_get app (run m)); exact H.
Qed.

(** For a key of the dictionary neither the lookup nor the update can
    fail, whatever [E] is asked of a failure. *)
Lemma getitem_sure (E : Mem Self -> Prop) app m :
  In app (dict_keys r0) -> Inv0 m -> wp (getitem app) (fun _ => Inv0) E m.
Proof.
  intros Hin Hm. apply wp_getitem.
  destruct (In_keys_get app (run m)) as [v G].
  { rewrite (Inv_keys m Hm). exact Hin. }
  rewrite G. exact Hm.
Qed.

Lemma credit_sure (E : Mem Self -> Prop) app d m :
  In app (dict_keys r0) -> good d -> Inv0 m -> wp (credit app d) (fun _ => Inv0) E m.
Proof.
  intros Hin Hd Hm. apply wp_credit.
  destruct (In_keys_get app (run m)) as [v G].
  { rewrite (Inv_keys m Hm). exact Hin. }
  rewrite G. destruct Hm as [Hev HJ]. split; [|exact HJ]. simpl.
  eapply evolves_trans; [exact Hev|]. apply evolves_credit; assumption.
Qed.

(** The shape of five policies: choose one running job, give it a full
    increment. *)
Lemma pick_credit_inv (pick : M Self App) (l : list App) m :
  (forall a, In a l -> good (nominalRate a)) ->
  wp pick (fun a m' => Inv0 m' /\ In a l) Inv0 m ->
  wp (a <- pick ;; credit a (nominalRate a)) (fun _ => Inv0) Inv0 m.
Proof.
  intros Hgood Hpick. apply wp_bind. eapply wp_mono; [| |exact Hpick]; [|auto].
  intros a m' [Hm' Ha]. apply credit_inv; auto.
Qed.

Lemma pick_credit_sure (E : Mem Self -> Prop) (pick : M Self App) m :
  (forall a, In a (dict_keys r0) -> good (nominalRate a)) ->
  wp pick (fun a m' => Inv0 m' /\ In a (dict_keys r0)) E m ->
  wp (a <- pick ;; credit a (nominalRate a)) (fun _ => Inv0) E m.
Proof.
  intros Hgood Hpick. apply wp_bind. eapply wp_mono; [| |exact Hpick]; [|auto].
  intros a m' [Hm' Ha]. apply credit_sure; auto.
Qed.

Lemma nonempty_keys (d : RDict) : dict_is_empty d = false -> dict_keys d <> [].
Proof. destruct d; simpl; congruence. Qed.

End Invariant.

(** *** The policies without a table: they cannot raise *)

Section Stateless.

Variable r0 : RDict.
Variable E : Mem unit -> Prop.
Local Notation "'I'" := (Inv R r0 (fun _ : unit => True)).

Lemma FIFO_inv time m :
  (forall a, In a (dict_keys r0) -> good (nominalRate a)) ->
  I m -> wp (FIFO_addProgress time) (fun _ => I) E m.
Proof.
  intros Hgood Hm. unfold FIFO_addProgress. apply wp_bind, wp_get_running.
  destruct (dict_is_empty (run m)) eqn:Em; [apply wp_ret; exact Hm|].
  apply nonempty_keys in Em. rewrite (Inv_keys _ _ _ Hm) in *.
  apply pick_credit_sure; [exact Hgood|].
  apply wp_py_min; [|exact Em|exact Hm].
  intros a m0 Ha Hm0. apply wp_bind.
  eapply wp_mono; [| |apply (getitem_sure r0 (fun _ => True) E); [exact Ha|exact Hm0]]; [|auto].
  intros v m1 Hm1. apply wp_ret. exact Hm1.
Qed.

Lemma EDFPure_inv time m :
  (forall a, In a (dict_keys r0) -> good (nominalRate a)) ->
  I m -> wp (EDFPure_addProgress time) (fun _ => I) E m.
Proof.
  intros Hgood Hm. unfold EDFPure_addProgress. apply wp_bind, wp_get_running.
  destruct (dict_is_empty (run m)) eqn:Em; [apply wp_ret; exact Hm|].
  apply nonempty_keys in Em. rewrite (Inv_keys _ _ _ Hm) in *.
  apply pick_credit_sure; [exact Hgood|].
  apply wp_py_min; [|exact Em|exact Hm].
  intros a m0 _ Hm0. apply wp_ret. exact Hm0.
Qed.

Lemma ShortestJobNext_inv time m :
  (forall a, In a (dict_keys r0) -> good (nominalRate a)) ->
  I m -> wp (ShortestJobNext_addProgress time) (fun _ => I) E m.
Proof.
  intros Hgood Hm. unfold ShortestJobNext_addProgress. apply wp_bind, wp_get_running.
  destruct (dict_is_empty (run m)) eqn:Em; [apply wp_ret; exact Hm|].
  apply nonempty_keys in Em. rewrite (Inv_keys _ _ _ Hm) in *.
  apply pick_credit_sure; [exact Hgood|].
  apply wp_py_min; [|exact Em|exact Hm].
  intros a m0 _ Hm0. apply wp_ret. exact Hm0.
Qed.

Lemma LeastLaxityFirst_inv time m :
  (forall a, In a (dict_keys r0) -> good (nominalRate a)) ->
  I m -> wp (LeastLaxityFirst_addProgress time) (fun _ => I) E m.
Proof.
  intros Hgood Hm. unfold LeastLaxityFirst_addProgress. apply wp_bind, wp_get_running.
  destruct (dict_is_empty (run m)) eqn:Em; [apply wp_ret; exact Hm|].
  apply nonempty_keys in Em. rewrite (Inv_keys _ _ _ Hm) in *.
  apply pick_credit_sure; [exact Hgood|].
  apply wp_py_min; [|exact Em|exact Hm].
  intros a m0 Ha Hm0. unfold laxity. apply wp_bind.
  eapply wp_mono; [| |apply (getitem_sure r0 (fun _ => True) E); [exact Ha|exact Hm0]]; [|auto].
  intros v m1 Hm1. apply wp_ret. exact Hm1.
Qed.

Lemma Fair_inv time m :
  (forall a, In a (dict_keys r0) ->
     good (Fraction.div (nominalRate a) (Fraction.of_int (Z.of_nat (length r0))))) ->
  I m -> wp (Fair_addProgress time) (fun _ => I) E m.
Proof.
  intros Hgood Hm. unfold Fair_addProgress. apply wp_bind, wp_get_running.
  destruct (dict_is_empty (run m)) eqn:Em; [apply wp_ret; exact Hm|].
  assert (L : length (run m) = length r0).
  { pose proof (Inv_keys _ _ _ Hm) as K. unfold dict_keys in K.
    rewrite <- (length_map fst (run m)), K. apply length_map. }
  rewrite L, (Inv_keys _ _ _ Hm).
  apply wp_for_each; [|exact Hm].
  intros a m0 Ha Hm0. apply credit_sure; auto.
Qed.

Lemma EDFAll_inv time m :
  (forall a, In a (dict_keys r0) -> good (nominalRate a)) ->
  I m -> wp (EDFAll_addProgress time) (fun _ => I) E m.
Proof.
  intros Hgood Hm. unfold EDFAll_addProgress. apply wp_bind, wp_get_running.
  destruct (dict_is_empty (run m)) eqn:Em; [apply wp_ret; exact Hm|].
  rewrite (Inv_keys _ _ _ Hm).
  apply wp_for_each; [|exact Hm].
  intros a m0 Ha Hm0. apply credit_sure; auto.
Qed.

End Stateless.

(** *** Round robin *)

Lemma py_index_In {A : Type} (l : list A) (i : Z) (x : A) :
  py_index l i = Some x -> In x l.
Proof.
  unfold py_index. destruct (py_pos l i) as [k|]; [|discriminate].
  apply nth_error_In.
Qed.

(** The cursor of round robin always falls inside the list. *)
Lemma py_index_mod {A : Type} (l : list A) (x : Z) :
  l <> [] -> py_index l (x mod Z.of_nat (length l)) <> None.
Proof.
  intros Hl. assert (0 < Z.of_nat (length l)) by (destruct l; simpl; [congruence|lia]).
  pose proof (Z.mod_pos_bound x (Z.of_nat (length l)) H) as [Lo Hi].
  unfold py_index, py_pos.
  apply Z.leb_le in Lo. rewrite Lo. apply Z.ltb_lt in Hi. rewrite Hi. simpl.
  apply nth_error_Some. apply Z.ltb_lt in Hi. apply Z.leb_le in Lo. lia.
Qed.

Lemma RoundRobin_inv (r0 : RDict) (ts : Z) (E : Mem RoundRobinObj -> Prop) time m :
  (forall a, In a (dict_keys r0) ->
     good (Fraction.mul (nominalRate a) (Fraction.of_int ts))) ->
  Inv R r0 (fun o => time_slice o = ts) m ->
  wp (RoundRobin_addProgress time) (fun _ => Inv R r0 (fun o => time_slice o = ts)) E m.
Proof.
  intros Hgood Hm. unfold RoundRobin_addProgress. apply wp_bind, wp_get_running.
  rewrite (Inv_keys _ _ _ Hm).
  destruct (dict_keys r0) as [|a0 l0] eqn:K; [apply wp_ret; exact Hm|].
  apply wp_bind, wp_get_self, wp_bind, wp_set_self, wp_bind, wp_get_self.
  cbn [self run last_index time_slice].
  set (idx := (last_index (self m) + 1) mod Z.of_nat (length (a0 :: l0))).
  assert (Hm' : Inv R r0 (fun o => time_slice o = ts)
                  (mkMem (mkRoundRobin (time_slice (self m)) idx) (run m))).
  { destruct Hm as [Hev HJ]. split; [exact Hev|exact HJ]. }
  destruct (py_index (a0 :: l0) idx) as [app|] eqn:P.
  - apply wp_bind, wp_get_self. cbn [self time_slice]. apply credit_sure; [| |exact Hm'].
    + rewrite K. apply py_index_In in P. exact P.
    + destruct Hm as [_ HJ]. rewrite HJ. apply Hgood.
      apply py_index_In in P. exact P.
  - exfalso. apply (py_index_mod (a0 :: l0) (last_index (self m) + 1)); [discriminate|].
    exact P.
Qed.

(** *** Priorities *)

Lemma PriorityScheduler_inv (r0 : RDict) time m :
  (forall a, In a (dict_keys r0) -> good (nominalRate a)) ->
  Inv R r0 (fun _ : dict Z => True) m ->
  wp (PriorityScheduler_addProgress time)
     (fun _ => Inv R r0 (fun _ => True)) (Inv R r0 (fun _ => True)) m.
Proof.
  intros Hgood Hm. unfold PriorityScheduler_addProgress. apply wp_bind, wp_get_running.
  destruct (dict_is_empty (run m)) eqn:Em; [apply wp_ret; exact Hm|].
  apply pick_credit_inv with (l := dict_keys (run m)).
  - rewrite (Inv_keys _ _ _ Hm). exact Hgood.
  - apply wp_py_max; [|apply nonempty_keys; exact Em|exact Hm].
    intros a m0 _ Hm0. unfold priority_of. apply wp_bind, wp_get_self.
    destruct (dict_get a (self m0)); [apply wp_ret|apply wp_raise]; exact Hm0.
Qed.

(** *** The multilevel feedback queue *)

Section MLFQ.

Variable r0 : RDict.
Variable tss : list Z.

Local Notation "'I'" := (Inv R r0 (MLFQ_J good tss)).
Local Notation "'level'" := (level_ok good tss).

Lemma Forall_list_update {A : Type} (P : A -> Prop) (l : list A) (k : nat) (x : A) :
  Forall P l -> P x -> Forall P (list_update l k x).
Proof.
  intros Hl Hx. revert k. induction Hl as [|y l Hy Hl IH]; intros k; simpl.
  - constructor.
  - destruct k; constructor; auto.
Qed.

Lemma Forall_list_remove (P : App -> Prop) (app : App) (q : list App) :
  Forall P q -> Forall P (list_remove app q).
Proof.
  induction 1 as [|a q Ha Hq IH]; simpl; [constructor|].
  destruct (App_eqb app a); [exact Hq|constructor; assumption].
Qed.

Lemma queue_at_inv i m :
  I m -> wp (queue_at i) (fun q m' => I m' /\ Forall level q) I m.
Proof.
  intros Hm. unfold queue_at. apply wp_bind, wp_get_self.
  destruct (py_index (queues (self m)) i) as [q|] eqn:P.
  - apply wp_ret. split; [exact Hm|].
    destruct Hm as [_ [_ HQ]]. rewrite Forall_forall in HQ.
    apply HQ. apply py_index_In in P. exact P.
  - apply wp_raise. exact Hm.
Qed.

Lemma queue_store_inv i q m :
  Forall level q -> I m -> wp (queue_store i q) (fun _ => I) I m.
Proof.
  intros Hq Hm. unfold queue_store. apply wp_bind, wp_get_self.
  destruct (py_pos (queues (self m)) i) as [k|]; [|apply wp_raise; exact Hm].
  unfold set_queues. apply wp_bind, wp_get_self, wp_set_self.
  destruct Hm as [Hev [Hts HQ]]. split; [exact Hev|]. split; [exact Hts|]. simpl.
  apply Forall_list_update; assumption.
Qed.

Lemma queue_append_inv i app m :
  level app -> I m -> wp (queue_append i app) (fun _ => I) I m.
Proof.
  intros Ha Hm. unfold queue_append. apply wp_bind.
  eapply wp_mono; [| |apply queue_at_inv; exact Hm]; [|auto].
  intros q m' [Hm' Hq]. apply queue_store_inv; [|exact Hm'].
  apply Forall_app. split; [exact Hq|]. constructor; [exact Ha|constructor].
Qed.

Lemma set_app_queue_inv aq m : I m -> wp (set_app_queue aq) (fun _ => I) I m.
Proof.
  intros Hm. unfold set_app_queue. apply wp_bind, wp_get_self, wp_set_self.
  destruct Hm as [Hev [Hts HQ]]. split; [exact Hev|]. split; assumption.
Qed.

Lemma app_queue_get_inv app m : I m -> wp (app_queue_get app) (fun _ => I) I m.
Proof.
  intros Hm. unfold app_queue_get. apply wp_bind, wp_get_self.
  destruct (dict_get app (app_queue (self m))); [apply wp_ret|apply wp_raise]; exact Hm.
Qed.

Lemma app_queue_set_inv app i m : I m -> wp (app_queue_set app i) (fun _ => I) I m.
Proof.
  intros Hm. unfold app_queue_set. apply wp_bind, wp_get_self.
  apply set_app_queue_inv. exact Hm.
Qed.

Lemma app_queue_del_inv app m : I m -> wp (app_queue_del app) (fun _ => I) I m.
Proof.
  intros Hm. unfold app_queue_del. apply wp_bind, wp_get_self.
  destruct (dict_mem app (app_queue (self m)));
    [apply set_app_queue_inv|apply wp_raise]; exact Hm.
Qed.

Lemma time_slice_at_inv i m :
  I m -> wp (time_slice_at i) (fun ts m' => I m' /\ In ts tss) I m.
Proof.
  intros Hm. unfold time_slice_at. apply wp_bind, wp_get_self.
  destruct (py_index (time_slices (self m)) i) as [ts|] eqn:P.
  - apply wp_ret. split; [exact Hm|].
    destruct Hm as [_ [Hts _]]. rewrite <- Hts. apply py_index_In in P. exact P.
  - apply wp_raise. exact Hm.
Qed.

Lemma MLFQ_purge_inv app m : I m -> wp (MLFQ_purge app) (fun _ => I) I m.
Proof.
  intros Hm. unfold MLFQ_purge. apply wp_bind, wp_get_running.
  destruct (dict_mem app (run m)); simpl; [apply wp_ret; exact Hm|].
  apply wp_bind. eapply wp_mono; [| |apply app_queue_get_inv; exact Hm]; [|auto].
  intros queue_idx m1 Hm1. apply wp_bind.
  eapply wp_mono; [| |apply queue_at_inv; exact Hm1]; [|auto].
  intros q m2 [Hm2 Hq]. apply wp_bind.
  destruct (list_mem app q).
  - eapply wp_mono; [| |apply queue_store_inv; [|exact Hm2]]; [|auto|].
    + intros u m3 Hm3. apply app_queue_del_inv. exact Hm3.
    + apply Forall_list_remove. exact Hq.
  - apply wp_ret. apply app_queue_del_inv. exact Hm2.
Qed.

Lemma MLFQ_enrol_inv app m :
  level app -> I m -> wp (MLFQ_enrol app) (fun _ => I) I m.
Proof.
  intros Ha Hm. unfold MLFQ_enrol. apply wp_bind, wp_get_self.
  destruct (dict_mem app (app_queue (self m))); simpl; [apply wp_ret; exact Hm|].
  apply wp_bind. eapply wp_mono; [| |apply queue_append_inv; [exact Ha|exact Hm]]; [|auto].
  intros u m1 Hm1. apply app_queue_set_inv. exact Hm1.
Qed.

Lemma MLFQ_service_inv levels m : I m -> wp (MLFQ_service levels) (fun _ => I) I m.
Proof.
  revert m. induction levels as [|i rest IH]; simpl; intros m Hm.
  - apply wp_ret. exact Hm.
  - apply wp_bind. eapply wp_mono; [| |apply queue_at_inv; exact Hm]; [|auto].
    intros q m1 [Hm1 Hq]. destruct q as [|app q']; [apply IH; exact Hm1|].
    inversion Hq as [|? ? Happ Hq']; subst.
    apply wp_bind. eapply wp_mono; [| |apply queue_store_inv; [exact Hq'|exact Hm1]]; [|auto].
    intros u m2 Hm2. apply wp_bind, wp_get_running.
    destruct (dict_mem app (run m2)); [|apply wp_ret; exact Hm2].
    apply wp_bind. eapply wp_mono; [| |apply time_slice_at_inv; exact Hm2]; [|auto].
    intros ts m3 [Hm3 Hts]. apply wp_bind.
    eapply wp_mono; [| |apply credit_inv; [apply Happ; exact Hts|exact Hm3]]; [|auto].
    intros u' m4 Hm4. apply wp_bind.
    eapply wp_mono; [| |apply getitem_inv; exact Hm4]; [|auto].
    intros v m5 Hm5.
    destruct (Fraction.ltb (snd v) (Fraction.of_int 1)).
    + apply wp_bind, wp_get_self, wp_bind.
      eapply wp_mono; [| |apply queue_append_inv; [exact Happ|exact Hm5]]; [|auto].
      intros u'' m6 Hm6. apply app_queue_set_inv. exact Hm6.
    + apply app_queue_del_inv. exact Hm5.
Qed.

Lemma MultilevelFeedbackQueue_inv time m :
  (forall a, In a (dict_keys r0) -> level a) ->
  I m -> wp (MultilevelFeedbackQueue_addProgress time) (fun _ => I) I m.
Proof.
  intros Hgood Hm. unfold MultilevelFeedbackQueue_addProgress.
  apply wp_bind, wp_get_running.
  destruct (dict_is_empty (run m)) eqn:Em; [apply wp_ret; exact Hm|].
  apply wp_bind, wp_get_self, wp_bind.
  eapply wp_mono; [| |apply wp_for_each with (I := I) (E := I); [|exact Hm]]; [|auto|].
  - intros u m1 Hm1. apply wp_bind, wp_get_running, wp_bind.
    eapply wp_mono; [| |apply wp_for_each with (I := I) (E := I); [|exact Hm1]]; [|auto|].
    + intros u' m2 Hm2. apply wp_bind, wp_get_self. apply MLFQ_service_inv. exact Hm2.
    + intros app m2 Happ Hm2. apply MLFQ_enrol_inv; [|exact Hm2].
      apply Hgood. rewrite <- (Inv_keys _ _ _ Hm1). exact Happ.
  - intros app m1 _ Hm1. apply MLFQ_purge_inv. exact Hm1.
Qed.

End MLFQ.

End Evolution.

(** ** [addProgress] as a whole *)

Lemma exec_wp {Self : Type} (c : M Self unit) (o : Self) (running : RDict)
    (I : Mem Self -> Prop) :
  wp c (fun _ => I) I (mkMem o running) ->
  forall o' r' res, exec c o running = (o', r', res) -> I (mkMem o' r').
Proof.
  unfold wp, exec. destruct (c (mkMem o running)) as [[o1 r1] [u|e]];
    intros H o' r' res X; injection X as <- <- <-; exact H.
Qed.

Section AddProgress.

Variable R : Q -> Q -> Prop.
Variable good : Q -> Prop.
Hypothesis R_refl : forall p, R p p.
Hypothesis R_trans : forall p q r, R p q -> R q r -> R p r.
Hypothesis R_add : forall p d, good d -> R p (Fraction.add p d).

Lemma Inv_start {Self : Type} (J : Self -> Prop) (o : Self) (running : RDict) :
  J o -> Inv R running J (mkMem o running).
Proof. intros H. split; [apply evolves_refl; exact R_refl|exact H]. Qed.

Lemma addProgress_evolves sched running time sched' running' res :
  increments_good good sched running ->
  addProgress sched running time = (sched', running', res) ->
  evolves R running running'.
Proof.
  intros Hgood X.
  destruct sched as [| | | |o| | |prios|o]; unfold addProgress, lift in X; simpl in Hgood.
  - destruct (exec _ _ _) as [[o1 r1] res1] eqn:Ex. injection X as <- <- <-.
    apply (exec_wp _ _ _ (Inv R running (fun _ => True))) in Ex; [apply Ex|].
    eapply FIFO_inv; eauto. apply Inv_start. exact Logic.I.
  - destruct (exec _ _ _) as [[o1 r1] res1] eqn:Ex. injection X as <- <- <-.
    apply (exec_wp _ _ _ (Inv R running (fun _ => True))) in Ex; [apply Ex|].
    eapply Fair_inv; eauto. apply Inv_start. exact Logic.I.
  - destruct (exec _ _ _) as [[o1 r1] res1] eqn:Ex. injection X as <- <- <-.
    apply (exec_wp _ _ _ (Inv R running (fun _ => True))) in Ex; [apply Ex|].
    eapply EDFAll_inv; eauto. apply Inv_start. exact Logic.I.
  - destruct (exec _ _ _) as [[o1 r1] res1] eqn:Ex. injection X as <- <- <-.
    apply (exec_wp _ _ _ (Inv R running (fun _ => True))) in Ex; [apply Ex|].
    eapply EDFPure_inv; eauto. apply Inv_start. exact Logic.I.
  - destruct (exec _ _ _) as [[o1 r1] res1] eqn:Ex. injection X as <- <- <-.
    apply (exec_wp _ _ _ (Inv R running (fun o' => time_slice o' = time_slice o))) in Ex;
      [apply Ex|].
    eapply RoundRobin_inv; eauto. apply Inv_start. reflexivity.
  - destruct (exec _ _ _) as [[o1 r1] res1] eqn:Ex. injection X as <- <- <-.
    apply (exec_wp _ _ _ (Inv R running (fun _ => True))) in Ex; [apply Ex|].
    eapply ShortestJobNext_inv; eauto. apply Inv_start. exact Logic.I.
  - destruct (exec _ _ _) as [[o1 r1] res1] eqn:Ex. injection X as <- <- <-.
    apply (exec_wp _ _ _ (Inv R running (fun _ => True))) in Ex; [apply Ex|].
    eapply LeastLaxityFirst_inv; eauto. apply Inv_start. exact Logic.I.
  - destruct (exec _ _ _) as [[o1 r1] res1] eqn:Ex. injection X as <- <- <-.
    apply (exec_wp _ _ _ (Inv R running (fun _ => True))) in Ex; [apply Ex|].
    eapply PriorityScheduler_inv; eauto. apply Inv_start. exact Logic.I.
  - destruct (exec _ _ _) as [[o1 r1] res1] eqn:Ex. injection X as <- <- <-.
    destruct Hgood as [Hrun Hq].
    apply (exec_wp _ _ _ (Inv R running (MLFQ_J good (time_slices o)))) in Ex; [apply Ex|].
    eapply MultilevelFeedbackQueue_inv; eauto. apply Inv_start. split; [reflexivity|exact Hq].
Qed.

End AddProgress.

(** With nothing assumed: keys, their order and the submission times
    stay. *)
Lemma addProgress_keeps sched running time sched' running' res :
  addProgress sched running time = (sched', running', res) ->
  evolves (fun _ _ => True) running running'.
Proof.
  apply (addProgress_evolves (fun _ _ => True) (fun _ => True)); auto.
  destruct sched as [| | | |o| | |prios|o]; simpl; auto.
  split; [intros a _ ts _; exact I|].
  induction (queues o) as [|q qs IH]; constructor; [|exact IH].
  induction q; constructor; [intros ts _; exact I|assumption].
Qed.

Lemma addProgress_empty sched time :
  addProgress sched [] time = (sched, [], Ok tt).
Proof. destruct sched as [| | | |[? ?]| | |?|[? ? ? ?]]; reflexivity. Qed.

(** *** Non-negative increments *)

Lemma Fraction_add_le (p d : Q) : (0 <= d)%Q -> (p <= Fraction.add p d)%Q.
Proof.
  intros H. unfold Fraction.add. rewrite Qred_correct.
  rewrite <- (Qplus_0_r p) at 1. apply Qplus_le_r. exact H.
Qed.

Lemma nominalRate_nonneg (a : App) : 0 < duration a -> (0 <= nominalRate a)%Q.
Proof.
  intros H. unfold nominalRate, Fraction.make. rewrite Qred_correct.
  apply Qle_shift_div_l.
  - replace 0%Q with (inject_Z 0) by reflexivity. rewrite <- Zlt_Qlt. exact H.
  - rewrite Qmult_0_l. discriminate.
Qed.

Lemma Fraction_mul_nonneg (x : Q) (n : Z) :
  (0 <= x)%Q -> 0 <= n -> (0 <= Fraction.mul x (Fraction.of_int n))%Q.
Proof.
  intros Hx Hn. unfold Fraction.mul, Fraction.of_int. rewrite Qred_correct.
  apply Qmult_le_0_compat; [exact Hx|].
  replace 0%Q with (inject_Z 0) by reflexivity. rewrite <- Zle_Qle. exact Hn.
Qed.

Lemma Fraction_div_nonneg (x : Q) (n : Z) :
  (0 <= x)%Q -> 0 <= n -> (0 <= Fraction.div x (Fraction.of_int n))%Q.
Proof.
  intros Hx Hn. unfold Fraction.div, Fraction.of_int. rewrite Qred_correct.
  unfold Qdiv. apply Qmult_le_0_compat; [exact Hx|].
  apply Qinv_le_0_compat.
  replace 0%Q with (inject_Z 0) by reflexivity. rewrite <- Zle_Qle. exact Hn.
Qed.

Lemma increments_nonneg sched running :
  Scheduler_ok sched ->
  Forall (fun a => 0 < duration a) (dict_keys running) ->
  increments_good (fun d => (0 <= d)%Q) sched running.
Proof.
  intros Hs Hr. rewrite Forall_forall in Hr.
  destruct sched as [| | | |o| | |prios|o]; simpl in *;
    try (intros a Ha; apply nominalRate_nonneg; auto).
  - intros a Ha. apply Fraction_div_nonneg; [apply nominalRate_nonneg; auto|lia].
  - intros a Ha. apply Fraction_mul_nonneg; [apply nominalRate_nonneg; auto|exact Hs].
  - destruct Hs as [Hts Hq]. rewrite Forall_forall in Hts. split.
    + intros a Ha ts Hin. apply Fraction_mul_nonneg; [apply nominalRate_nonneg|]; auto.
    + eapply Forall_impl; [|exact Hq]. intros q Hq'.
      eapply Forall_impl; [|exact Hq']. intros a Ha ts Hin. simpl in Ha.
      apply Fraction_mul_nonneg; [apply nominalRate_nonneg|]; auto.
Qed.

(** ** Policies never take progress back *)

(** C7. For each of the nine policies, with time slices that are not
    negative and jobs of positive duration: [addProgress] on an empty
    [running] changes nothing and returns; on any [running], whether the
    call returns or raises, the dictionary afterwards has the same jobs
    in the same order, each with its submission time unchanged and with a
    progress that is at least what it was. *)
Theorem addProgress_monotone (sched : Scheduler) (running : RDict) (time : Z) :
  Scheduler_ok sched ->
  Forall (fun a => 0 < duration a) (dict_keys running) ->
  (running = [] -> addProgress sched running time = (sched, [], Ok tt)) /\
  (forall sched' running' res,
     addProgress sched running time = (sched', running', res) ->
     dict_keys running' = dict_keys running /\
     forall app sub p, dict_get app running = Some (sub, p) ->
       exists p', dict_get app running' = Some (sub, p') /\ (p <= p')%Q).
Proof.
  intros Hs Hr. split.
  - intros ->. apply addProgress_empty.
  - intros sched' running' res X.
    apply (addProgress_evolves Qle (fun d => (0 <= d)%Q)) in X.
    + exact X.
    + apply Qle_refl.
    + intros p q r. apply Qle_trans.
    + apply Fraction_add_le.
    + apply increments_nonneg; assumption.
Qed.

Lemma addProgress_monotone_witness :
  let sched := MultilevelFeedbackQueue_init 3 [10; 20; 30] in
  let running := [(mkApp 1 30 50, (1, 1 # 3)); (mkApp 2 20 40, (2, 0%Q))] in
  Scheduler_ok sched /\
  Forall (fun a => 0 < duration a) (dict_keys running) /\
  (running = [] -> addProgress sched running 4 = (sched, [], Ok tt)) /\
  (forall sched' running' res,
     addProgress sched running 4 = (sched', running', res) ->
     dict_keys running' = dict_keys running /\
     forall app sub p, dict_get app running = Some (sub, p) ->
       exists p', dict_get app running' = Some (sub, p') /\ (p <= p')%Q).
Proof.
  assert (Hs : Scheduler_ok (MultilevelFeedbackQueue_init 3 [10; 20; 30])).
  { simpl. split; repeat constructor; discriminate. }
  assert (Hr : Forall (fun a => 0 < duration a)
                 (dict_keys [(mkApp 1 30 50, (1, 1 # 3)); (mkApp 2 20 40, (2, 0%Q))])).
  { repeat constructor. }
  split; [exact Hs|]. split; [exact Hr|].
  exact (addProgress_monotone _ _ 4 Hs Hr).
Defined.

(** ** Presence of a job in a state *)

Lemma has_id_iff (s : Spark) (k : Z) : has_id s k = true <-> id_in k s.
Proof.
  unfold has_id, id_in. rewrite existsb_exists. split.
  - intros (a & Hin & Ha). apply Z.eqb_eq in Ha. eauto.
  - intros (a & Hin & Ha). exists a. split; [exact Hin|]. apply Z.eqb_eq. exact Ha.
Qed.

Lemma has_predecessor_iff (l : list App) (app : App) :
  has_predecessor l app = true <-> exists a, In a l /\ id a = id app - 1.
Proof.
  induction l as [|a l IH]; simpl.
  - split; [discriminate|]. intros (a & [] & _).
  - destruct (id a =? id app - 1) eqn:E.
    + split; [|reflexivity]. intros _. exists a. apply Z.eqb_eq in E. auto.
    + rewrite IH. apply Z.eqb_neq in E. split.
      * intros (b & Hin & Hb). eauto.
      * intros (b & [->|Hin] & Hb); [contradiction|eauto].
Qed.

Lemma existsb_pointwise {A : Type} (f g : A -> bool) (l : list A) :
  (forall x, f x = g x) -> existsb f l = existsb g l.
Proof.
  intros H. induction l as [|x l IH]; simpl; [reflexivity|]. rewrite H, IH. reflexivity.
Qed.

Lemma present_has_id (s : Spark) (app : App) : present s app = has_id s (id app).
Proof.
  unfold present, has_id. rewrite existsb_app, !dict_mem_existsb.
  f_equal; apply existsb_pointwise; intros a; unfold App_eqb; apply Z.eqb_sym.
Qed.

Lemma present_iff (s : Spark) (app : App) : present s app = true <-> id_in (id app) s.
Proof. rewrite present_has_id. apply has_id_iff. Qed.

(** ** [schedule] *)

Lemma schedule_unchanged (s : Spark) (app : App) (time : Z) :
  id_in (id app) s \/ ~ id_in (id app - 1) s -> schedule s app time = s.
Proof.
  unfold schedule. intros [H|H].
  - apply present_iff in H. rewrite H. reflexivity.
  - destruct (present s app); [reflexivity|].
    destruct (has_predecessor _ app) eqn:P; [|reflexivity].
    exfalso. apply H. apply has_predecessor_iff in P. exact P.
Qed.

Lemma schedule_added (s : Spark) (app : App) (time : Z) :
  ~ id_in (id app) s -> id_in (id app - 1) s ->
  schedule s app time =
    mkSpark (running s ++ [(app, (time, Fraction.of_int 0))]) (ended s).
Proof.
  unfold schedule. intros Habs Hpred.
  destruct (present s app) eqn:P.
  - exfalso. apply Habs. apply present_iff. exact P.
  - apply has_predecessor_iff in Hpred. rewrite Hpred. f_equal.
    apply dict_set_absent. unfold present in P.
    apply orb_false_iff in P. apply P.
Qed.

(** C5. [schedule(j, t)] returns the state itself when a job with the id
    of [j] is in [running] or [ended], or when no job with id [j.id - 1]
    is in either; otherwise it returns the state with the entry
    [j -> (t, 0)] added at the end of [running], every other entry of
    [running] and all of [ended] being as they were. *)
Theorem schedule_spec (s : Spark) (app : App) (time : Z) :
  (id_in (id app) s \/ ~ id_in (id app - 1) s -> schedule s app time = s) /\
  (~ id_in (id app) s -> id_in (id app - 1) s ->
   schedule s app time =
     mkSpark (running s ++ [(app, (time, Fraction.of_int 0))]) (ended s)).
Proof.
  split; [apply schedule_unchanged|apply schedule_added].
Qed.

Lemma schedule_spec_witness :
  let j1 := mkApp 1 2 2 in
  let j2 := mkApp 2 1 1 in
  let s := mkSpark [(j1, (1, 1 # 2))] [] in
  ~ id_in (id j2) s /\ id_in (id j2 - 1) s /\
  schedule s j2 3 = mkSpark [(j1, (1, 1 # 2)); (j2, (3, 0%Q))] [] /\
  schedule s j1 3 = s /\
  schedule (mkSpark [] []) j1 3 = mkSpark [] [].
Proof.
  assert (Habs : ~ id_in (id (mkApp 2 1 1)) (mkSpark [(mkApp 1 2 2, (1, 1 # 2))] [])).
  { intros (a & [<-|[]] & Ha). discriminate. }
  assert (Hpred : id_in (id (mkApp 2 1 1) - 1) (mkSpark [(mkApp 1 2 2, (1, 1 # 2))] [])).
  { exists (mkApp 1 2 2). split; [left|]; reflexivity. }
  split; [exact Habs|]. split; [exact Hpred|]. split; [|split].
  - exact (proj2 (schedule_spec _ _ 3) Habs Hpred).
  - apply (proj1 (schedule_spec _ _ 3)). left.
    exists (mkApp 1 2 2). split; [left|]; reflexivity.
  - apply (proj1 (schedule_spec _ _ 3)). right.
    intros (a & [] & _).
Defined.

(** ** [tick] *)

Lemma filter_all {A : Type} (f : A -> bool) (l : list A) :
  (forall x, In x l -> f x = true) -> filter f l = l.
Proof.
  induction l as [|x l IH]; simpl; intros H; [reflexivity|].
  rewrite (H x) by auto. f_equal. apply IH. auto.
Qed.

Lemma filter_twice {A : Type} (f g : A -> bool) (l : list A) :
  filter f (filter g l) = filter (fun x => g x && f x) l.
Proof.
  induction l as [|x l IH]; simpl; [reflexivity|].
  destruct (g x); simpl; [destruct (f x)|]; rewrite IH; reflexivity.
Qed.

(** The second loop removes from [running] exactly the entries whose
    key is in [ended]. *)
Lemma tick_retire_filter (e : EDict) (r : RDict) :
  tick_retire e r = filter (fun x => negb (dict_mem (fst x) e)) r.
Proof.
  unfold tick_retire.
  assert (G : forall (ks : list App) (r0 : RDict),
             fold_left (fun running app =>
                          if dict_mem app running then dict_del app running else running)
                       ks r0
             = filter (fun x => negb (existsb (App_eqb (fst x)) ks)) r0).
  { induction ks as [|k ks IH]; intros r0; simpl.
    - symmetry. apply filter_all. auto.
    - rewrite IH.
      assert (S : (if dict_mem k r0 then dict_del k r0 else r0) = dict_del k r0).
      { destruct (dict_mem k r0) eqn:Mk; [reflexivity|].
        symmetry. apply dict_del_absent. exact Mk. }
      rewrite S. unfold dict_del. rewrite filter_twice. apply filter_ext.
      intros x. rewrite negb_orb, (App_eqb_sym k). reflexivity. }
  rewrite G. apply filter_ext. intros x. rewrite dict_mem_existsb. reflexivity.
Qed.

Lemma dict_mem_app {V : Type} (k : App) (d d' : dict V) :
  dict_mem k (d ++ d') = dict_mem k d || dict_mem k d'.
Proof.
  rewrite !dict_mem_existsb. unfold dict_keys. rewrite map_app. apply existsb_app.
Qed.

Lemma dict_ok_unique {V : Type} (d : dict V) (x y : App * V) :
  dict_ok d -> In x d -> In y d -> App_eqb (fst x) (fst y) = true -> x = y.
Proof.
  induction d as [|[k v] d IH]; simpl; intros Hok Hx Hy E; [contradiction|].
  apply dict_ok_cons in Hok. destruct Hok as [Hk Hok].
  destruct Hx as [<-|Hx], Hy as [<-|Hy].
  - reflexivity.
  - destruct y as [ky vy]. apply In_dict_mem in Hy. simpl in E.
    rewrite (dict_mem_congr _ _ _ E) in Hk. congruence.
  - destruct x as [kx vx]. apply In_dict_mem in Hx. simpl in E.
    rewrite <- (dict_mem_congr _ _ _ E) in Hk. congruence.
  - apply IH; assumption.
Qed.

(** The first loop appends the finished jobs to [ended], in the order
    of [running], when none of them is in [ended] yet. *)
Lemma tick_finish_app (time : Z) (r : RDict) (e : EDict) :
  dict_ok r ->
  (forall x, In x r -> finished x = true -> dict_mem (fst x) e = false) ->
  tick_finish time r e =
    e ++ map (fun x => (fst x, (fst (snd x), time))) (filter finished r).
Proof.
  unfold tick_finish. revert e. induction r as [|[k v] r IH]; intros e Hok Hfresh; simpl.
  - rewrite app_nil_r. reflexivity.
  - apply dict_ok_cons in Hok. destruct Hok as [Hk Hok].
    change (Fraction.leb (Fraction.of_int 1) (snd v)) with (finished (k, v)).
    destruct (finished (k, v)) eqn:F.
    + rewrite dict_set_absent by (apply (Hfresh (k, v)); simpl; auto).
      rewrite IH; [rewrite <- app_assoc; reflexivity|exact Hok|].
      intros x Hx Fx. rewrite dict_mem_app, (Hfresh x) by (simpl; auto). simpl.
      unfold dict_mem. simpl. destruct (App_eqb (fst x) k) eqn:E; [|reflexivity].
      destruct x as [kx vx]. apply In_dict_mem in Hx. simpl in E.
      rewrite (dict_mem_congr _ _ _ E) in Hx. congruence.
    + apply IH; [exact Hok|]. intros x Hx. apply Hfresh. simpl. auto.
Qed.

Lemma dict_ok_keys {V W : Type} (d : dict V) (d' : dict W) :
  dict_keys d' = dict_keys d -> dict_ok d -> dict_ok d'.
Proof. unfold dict_ok. intros ->. auto. Qed.

(** What [tick] computes from the dictionary [addProgress] leaves, for a
    state whose mappings are disjoint. *)
Lemma tick_loops (time : Z) (r1 : RDict) (e : EDict) :
  dict_ok r1 ->
  (forall app, dict_mem app r1 = true -> dict_mem app e = false) ->
  let ended1 := tick_finish time r1 e in
  ended1 = e ++ map (fun x => (fst x, (fst (snd x), time))) (filter finished r1) /\
  tick_retire ended1 r1 = filter (fun x => negb (finished x)) r1.
Proof.
  intros Hok Hdis ended1.
  assert (E1 : ended1 = e ++ map (fun x => (fst x, (fst (snd x), time))) (filter finished r1)).
  { apply tick_finish_app; [exact Hok|].
    intros [k v] Hx _. apply Hdis. apply In_dict_mem in Hx. exact Hx. }
  split; [exact E1|].
  rewrite tick_retire_filter. apply filter_ext_in. intros [k v] Hx. f_equal.
  rewrite E1, dict_mem_app. simpl.
  rewrite (Hdis k) by (apply In_dict_mem in Hx; exact Hx). simpl.
  rewrite dict_mem_existsb. unfold dict_keys. rewrite map_map. simpl.
  destruct (finished (k, v)) eqn:F.
  - apply existsb_exists. exists k. split; [|apply App_eqb_refl].
    apply (in_map fst) with (x := (k, v)). apply filter_In. auto.
  - apply not_true_is_false. intros Hex. apply existsb_exists in Hex.
    destruct Hex as (k' & Hin & Ek). apply in_map_iff in Hin.
    destruct Hin as (y & <- & Hy). apply filter_In in Hy. destruct Hy as [Hy Fy].
    assert ((k, v) = y) by (apply (dict_ok_unique r1); auto).
    subst y. congruence.
Qed.

(** *** The store *)

Lemma list_update_last {A : Type} (l : list A) (x y : A) :
  list_update (l ++ [x]) (length l) y = l ++ [y].
Proof. induction l as [|z l IH]; simpl; [reflexivity|]. rewrite IH. reflexivity. Qed.

Lemma nth_old {A : Type} (l : list A) (x d : A) (k : nat) :
  (k < length l)%nat -> nth k (l ++ [x]) d = nth k l d.
Proof. intros H. apply app_nth1. exact H. Qed.

Lemma load_r_new (l : list RDict) (es : list EDict) (x : RDict) :
  load_r (mkStore (l ++ [x]) es) (length l) = x.
Proof. unfold load_r. simpl. apply nth_middle. Qed.

Lemma load_e_new (l : list RDict) (es : list EDict) (x : EDict) :
  load_e (mkStore l (es ++ [x])) (length es) = x.
Proof. unfold load_e. simpl. apply nth_middle. Qed.

Lemma load_e_frame (l : list RDict) (st : Store) (k : nat) :
  load_e (mkStore l (ecells st)) k = load_e st k.
Proof. reflexivity. Qed.

Lemma store_r_new (l : list RDict) (es : list EDict) (x y : RDict) :
  store_r (mkStore (l ++ [x]) es) (length l) y = mkStore (l ++ [y]) es.
Proof. unfold store_r. simpl. rewrite list_update_last. reflexivity. Qed.

Lemma store_e_new (l : list RDict) (es : list EDict) (x y : EDict) :
  store_e (mkStore l (es ++ [x])) (length es) y = mkStore l (es ++ [y]).
Proof. unfold store_e. simpl. rewrite list_update_last. reflexivity. Qed.

(** [tick_obj] leaves every dictionary that existed before the call as
    it was, and what it returns stands for the result of [tick]. *)
Lemma tick_obj_tick (sched : Scheduler) (st : Store) (self : SparkObj) (time : Z) :
  forall st' res, tick_obj sched st self time = (st', res) ->
    (forall k, (k < length (rcells st))%nat -> load_r st' k = load_r st k) /\
    (forall k, (k < length (ecells st))%nat -> load_e st' k = load_e st k) /\
    match res, tick sched (view st self) time with
    | Ok (sched', o'), Ok (sched'', s') => sched' = sched'' /\ view st' o' = s'
    | Raise e, Raise e' => e = e'
    | _, _ => False
    end.
Proof.
  intros st' res. unfold tick_obj, tick. cbn [view running ended].
  destruct (dict_is_empty (load_r st (running_ref self))) eqn:Em.
  - intros X. injection X as <- <-. auto.
  - unfold new_r, new_e. cbn [rcells ecells].
    rewrite load_r_new, load_e_frame.
    destruct (addProgress sched (load_r st (running_ref self)) time)
      as [[sched' r1] [u|e]] eqn:AP.
    + rewrite store_r_new, load_r_new, load_e_new, store_e_new, load_e_new, load_r_new,
        store_r_new.
      unfold Spark_init, new_r, new_e. cbn [rcells ecells].
      rewrite load_r_new, load_e_new.
      intros X. injection X as <- <-. split; [|split; [|split; [reflexivity|]]].
      * intros k Hk. unfold load_r. cbn [rcells].
        rewrite !nth_old; [reflexivity|exact Hk|]. rewrite length_app. simpl. lia.
      * intros k Hk. unfold load_e. cbn [ecells].
        rewrite !nth_old; [reflexivity|exact Hk|]. rewrite length_app. simpl. lia.
      * unfold view. cbn [running_ref ended_ref].
        rewrite load_r_new, load_e_new. reflexivity.
    + rewrite store_r_new.
      intros X. injection X as <- <-. split; [|split; [|reflexivity]].
      * intros k Hk. unfold load_r. cbn [rcells]. apply nth_old. exact Hk.
      * intros k Hk. unfold load_e. cbn [ecells]. apply nth_old. exact Hk.
Qed.

Lemma addProgress_original_sub sched running time sched1 running1 res :
  addProgress sched running time = (sched1, running1, res) ->
  forall app sub p, dict_get app running1 = Some (sub, p) ->
    exists p0, dict_get app running = Some (sub, p0).
Proof.
  intros X app sub p G. apply addProgress_keeps in X. destruct X as [K F].
  assert (Mx : dict_mem app running = true).
  { rewrite dict_mem_existsb, <- K, <- dict_mem_existsb. apply dict_mem_true. eauto. }
  apply dict_mem_true in Mx. destruct Mx as [[sub0 p0] G0].
  destruct (F _ _ _ G0) as (p' & G' & _).
  rewrite G in G'. injection G' as -> ->. eauto.
Qed.

(** C4. For a state whose two mappings share no job: [tick] of a state
    with nothing running returns that state; otherwise the scheduler and
    the dictionary that one call of [addProgress] on [running] leaves
    decide the result: if the call raises, so does [tick]; if it returns,
    [running] keeps, in order, the entries whose progress is below 1, and
    [ended] is the old [ended] followed by one entry
    [(submission time, time)] for each job whose progress reached 1, the
    submission time being the one the job had before the call.  On
    objects, the call is made on a copy: every dictionary that existed
    before [tick], those of the receiver included, is left as it was. *)
Theorem tick_spec (sched : Scheduler) (s : Spark) (time : Z) :
  dict_ok (running s) -> disjoint s ->
  (running s = [] -> tick sched s time = Ok (sched, s)) /\
  (running s <> [] ->
   forall sched1 running1 res,
     addProgress sched (running s) time = (sched1, running1, res) ->
     match res with
     | Raise e => tick sched s time = Raise e
     | Ok _ =>
         tick sched s time =
           Ok (sched1,
               mkSpark (filter (fun x => negb (finished x)) running1)
                       (ended s ++ map (fun x => (fst x, (fst (snd x), time)))
                                       (filter finished running1))) /\
         (forall app sub p, dict_get app running1 = Some (sub, p) ->
            exists p0, dict_get app (running s) = Some (sub, p0))
     end) /\
  (forall st self,
     view st self = s ->
     (running_ref self < length (rcells st))%nat ->
     (ended_ref self < length (ecells st))%nat ->
     forall st' res, tick_obj sched st self time = (st', res) ->
       view st' self = s /\
       (forall k, (k < length (rcells st))%nat -> load_r st' k = load_r st k) /\
       (forall k, (k < length (ecells st))%nat -> load_e st' k = load_e st k) /\
       match res, tick sched s time with
       | Ok (sched', o'), Ok (sched'', s') => sched' = sched'' /\ view st' o' = s'
       | Raise e, Raise e' => e = e'
       | _, _ => False
       end).
Proof.
  intros Hok Hdis. split; [|split].
  - intros E. unfold tick. rewrite E. reflexivity.
  - intros Hne sched1 running1 res X. unfold tick.
    destruct (running s) as [|x r] eqn:Er; [congruence|]. cbn [dict_is_empty].
    rewrite X. destruct res as [u|e]; [|reflexivity]. split.
    + pose proof (addProgress_keeps _ _ _ _ _ _ X) as [K _].
      assert (Hok1 : dict_ok running1) by (apply (dict_ok_keys _ _ K); exact Hok).
      assert (Hdis1 : forall app, dict_mem app running1 = true ->
                                  dict_mem app (ended s) = false).
      { intros app Ha. apply Hdis. rewrite Er.
        rewrite dict_mem_existsb, <- K, <- dict_mem_existsb. exact Ha. }
      destruct (tick_loops time running1 (ended s) Hok1 Hdis1) as [E1 E2].
      rewrite E2, E1. reflexivity.
    + exact (addProgress_original_sub _ _ _ _ _ _ X).
  - intros st self Hv Hr He st' res X.
    destruct (tick_obj_tick _ _ _ _ _ _ X) as (Fr & Fe & Hres).
    rewrite Hv in Hres. split; [|auto].
    rewrite <- Hv. unfold view. rewrite Fr, Fe by assumption. reflexivity.
Qed.

Lemma tick_spec_witness :
  let j0 := mkApp 0 1 1 in
  let j1 := mkApp 1 2 2 in
  let j2 := mkApp 2 3 3 in
  let s := mkSpark [(j1, (1, 1 # 2)); (j2, (2, 0%Q))] [(j0, (0, 1))] in
  dict_ok (running s) /\ disjoint s /\
  tick FIFO s 3 = Ok (FIFO, mkSpark [(j2, (2, 0%Q))] [(j0, (0, 1)); (j1, (1, 3))]) /\
  tick FIFO (mkSpark [] (ended s)) 3 = Ok (FIFO, mkSpark [] (ended s)).
Proof.
  cbv zeta.
  set (s := mkSpark [(mkApp 1 2 2, (1, 1 # 2)); (mkApp 2 3 3, (2, 0%Q))]
                    [(mkApp 0 1 1, (0, 1))]).
  assert (Hok : dict_ok (running s)).
  { unfold dict_ok. simpl. repeat constructor; simpl; intuition discriminate. }
  assert (Hdis : disjoint s).
  { intros app. unfold dict_mem. simpl. unfold App_eqb. simpl.
    destruct (id app =? 1) eqn:E1; [apply Z.eqb_eq in E1; rewrite E1; reflexivity|].
    destruct (id app =? 2) eqn:E2; [apply Z.eqb_eq in E2; rewrite E2; reflexivity|].
    discriminate. }
  split; [exact Hok|]. split; [exact Hdis|]. split.
  - assert (Hne : running s <> []) by discriminate.
    exact (proj1 (proj1 (proj2 (tick_spec FIFO s 3 Hok Hdis)) Hne FIFO
                    [(mkApp 1 2 2, (1, 1%Q)); (mkApp 2 3 3, (2, 0%Q))] (Ok tt) eq_refl)).
  - assert (Hok' : dict_ok (running (mkSpark [] (ended s)))) by constructor.
    assert (Hdis' : disjoint (mkSpark [] (ended s))) by (intros app; discriminate).
    exact (proj1 (tick_spec FIFO (mkSpark [] (ended s)) 3 Hok' Hdis') eq_refl).
Defined.

(** ** Classifiers *)

(** C9. [computeNonViolations] holds exactly when the other three
    classifiers all fail, and [computeScenarioViolations] fails whenever
    [computeViolations] or [computeUnfeasibility] holds. *)
Theorem classifiers_consistent (s : Spark) (apps : list App) (steps : Z) :
  (computeNonViolations s apps steps = true <->
     computeViolations s apps steps = false /\
     computeScenarioViolations s apps steps = false /\
     computeUnfeasibility s apps steps = false) /\
  (computeViolations s apps steps = true \/ computeUnfeasibility s apps steps = true ->
     computeScenarioViolations s apps steps = false).
Proof.
  unfold computeNonViolations, computeScenarioViolations.
  destruct (computeViolations s apps steps), (computeUnfeasibility s apps steps);
    cbn [orb negb andb];
    try (destruct (existsb _ apps); cbn [negb andb]);
    intuition congruence.
Qed.

Lemma classifiers_consistent_witness :
  let j1 := mkApp 1 2 2 in
  let j2 := mkApp 2 2 1 in
  let late := mkSpark [] [(j1, (0, 2)); (j2, (0, 3))] in
  let fine := mkSpark [] [(j1, (0, 2))] in
  computeViolations late [j1; j2] 3 = true /\
  computeScenarioViolations late [j1; j2] 3 = false /\
  computeNonViolations fine [j1] 3 = true.
Proof.
  cbv zeta. split; [reflexivity|]. split.
  - apply (proj2 (classifiers_consistent _ _ _)). left. reflexivity.
  - apply (proj1 (classifiers_consistent _ _ _)). repeat split.
Defined.

(** ** [min] and [max] with a key that only reads *)

Lemma select_pure {Self K : Type} (better : K -> K -> bool) (key : App -> M Self K)
    (f : App -> option K) (m : Mem Self) :
  (forall a, key a m = (m, lookup_result (f a))) ->
  forall l best kbest,
    select better key best kbest l m = (m, lookup_result (select_opt better f best kbest l)).
Proof.
  intros Hkey. induction l as [|a l IH]; intros best kbest; simpl; [reflexivity|].
  unfold bind. rewrite Hkey. destruct (f a) as [ka|]; simpl; [|reflexivity].
  destruct (better ka kbest); apply IH.
Qed.

Lemma select_opt_missing {K : Type} (better : K -> K -> bool) (f : App -> option K)
    (l : list App) :
  (exists a, In a l /\ f a = None) ->
  forall best kbest, select_opt better f best kbest l = None.
Proof.
  induction l as [|a l IH]; intros (x & Hin & Hx) best kbest; simpl; [destruct Hin|].
  destruct (f a) as [ka|] eqn:Fa; [|reflexivity].
  assert (Hl : exists y, In y l /\ f y = None).
  { destruct Hin as [->|Hin]; [congruence|eauto]. }
  destruct (better ka kbest); apply IH; exact Hl.
Qed.

(** The scan of [max]: the result carries a key that no candidate
    exceeds. *)
Lemma select_opt_max (f : App -> option Z) (l : list App) :
  (forall a, In a l -> f a <> None) ->
  forall best kbest, f best = Some kbest ->
    exists b kb,
      select_opt (fun new old => old <? new) f best kbest l = Some b /\
      In b (best :: l) /\ f b = Some kb /\ kbest <= kb /\
      forall a ka, In a l -> f a = Some ka -> ka <= kb.
Proof.
  induction l as [|a l IH]; intros Hall best kbest Hbest; simpl.
  - exists best, kbest.
    split; [reflexivity|]. split; [left; reflexivity|]. split; [exact Hbest|].
    split; [lia|]. intros a ka [].
  - destruct (f a) as [ka|] eqn:Fa; [|exfalso; apply (Hall a); simpl; auto].
    assert (Hall' : forall x, In x l -> f x <> None) by (intros x Hx; apply Hall; simpl; auto).
    destruct (kbest <? ka) eqn:Cmp.
    + apply Z.ltb_lt in Cmp.
      destruct (IH Hall' a ka Fa) as (b & kb & Hsel & Hin & Fb & Hle & Hmax).
      exists b, kb.
      split; [exact Hsel|]. split; [destruct Hin as [<-|Hin]; auto|].
      split; [exact Fb|]. split; [lia|].
      intros x kx [<-|Hx] Fx; [|eauto]. assert (kx = ka) by congruence. lia.
    + apply Z.ltb_ge in Cmp.
      destruct (IH Hall' best kbest Hbest) as (b & kb & Hsel & Hin & Fb & Hle & Hmax).
      exists b, kb.
      split; [exact Hsel|]. split; [destruct Hin as [<-|Hin]; auto|].
      split; [exact Fb|]. split; [exact Hle|].
      intros x kx [<-|Hx] Fx; [|eauto]. assert (kx = ka) by congruence. lia.
Qed.

Lemma credit_run {Self : Type} (app : App) (delta : Q) (m : Mem Self) (v : Z * Q) :
  dict_get app (run m) = Some v ->
  credit app delta m =
    (mkMem (self m) (dict_set app (fst v, Fraction.add (snd v) delta) (run m)), Ok tt).
Proof.
  intros G. unfold credit, bind, getitem, setitem. rewrite G. cbv iota beta.
  rewrite G. reflexivity.
Qed.

(** ** Priorities *)

Lemma priority_of_pure (app : App) (m : Mem (dict Z)) :
  priority_of app m = (m, lookup_result (dict_get app (self m))).
Proof.
  unfold priority_of, bind, get_self. destruct (dict_get app (self m)); reflexivity.
Qed.

Lemma priority_select_pure (priorities : dict Z) (running : RDict)
    (best : App) (kbest : Z) (l : list App) :
  select (fun new old => old <? new) priority_of best kbest l (mkMem priorities running)
  = (mkMem priorities running,
     lookup_result (select_opt (fun new old => old <? new)
                               (fun a => dict_get a priorities) best kbest l)).
Proof. apply select_pure. intros a. apply priority_of_pure. Qed.

(** A running job without a priority: [max] fails on its key. *)
Lemma PriorityScheduler_raises (priorities : dict Z) (running : RDict) (time : Z) :
  (exists app, In app (dict_keys running) /\ dict_get app priorities = None) ->
  addProgress (PriorityScheduler priorities) running time =
    (PriorityScheduler priorities, running, Raise KeyError).
Proof.
  intros (app & Hin & Hnone). destruct running as [|[k0 v0] r]; [destruct Hin|].
  unfold addProgress, lift, exec, PriorityScheduler_addProgress, bind, get_running.
  cbn [run dict_is_empty dict_keys map fst py_max]. unfold bind.
  rewrite priority_of_pure. cbn [self].
  destruct (dict_get k0 priorities) as [p0|] eqn:G0; [|reflexivity].
  cbn [lookup_result]. rewrite priority_select_pure.
  rewrite select_opt_missing; [reflexivity|].
  simpl in Hin. destruct Hin as [<-|Hin]; [congruence|]. exists app. auto.
Qed.

(** Every running job has a priority: the first of the jobs of greatest
    priority gets one full increment. *)
Lemma PriorityScheduler_credits (priorities : dict Z) (running : RDict) (time : Z) :
  running <> [] ->
  (forall app, In app (dict_keys running) -> dict_get app priorities <> None) ->
  exists best prio sub p,
    In best (dict_keys running) /\
    dict_get best priorities = Some prio /\
    (forall app q, In app (dict_keys running) ->
       dict_get app priorities = Some q -> q <= prio) /\
    dict_get best running = Some (sub, p) /\
    addProgress (PriorityScheduler priorities) running time =
      (PriorityScheduler priorities,
       dict_set best (sub, Fraction.add p (nominalRate best)) running,
       Ok tt).
Proof.
  intros Hne Hall. destruct running as [|[k0 v0] r]; [congruence|].
  set (running := (k0, v0) :: r).
  destruct (dict_get k0 priorities) as [p0|] eqn:G0;
    [|exfalso; apply (Hall k0); [left; reflexivity|exact G0]].
  destruct (select_opt_max (fun a => dict_get a priorities) (dict_keys r)
              (fun a Ha => Hall a (or_intror Ha)) k0 p0 G0)
    as (b & kb & Hb & Hin & Fb & Hle & Hmax).
  destruct (In_keys_get b running Hin) as [[sub p] Gb].
  exists b, kb, sub, p.
  split; [exact Hin|]. split; [exact Fb|]. split; [|split; [exact Gb|]].
  - intros app q Ha Fq. simpl in Ha. destruct Ha as [<-|Ha]; [|eauto].
    assert (q = p0) by congruence. lia.
  - unfold addProgress, lift, exec, PriorityScheduler_addProgress, bind, get_running.
    cbn [run dict_is_empty running dict_keys map fst py_max]. unfold bind.
    rewrite priority_of_pure. cbn [self]. rewrite G0.
    cbn [lookup_result]. unfold dict_keys in Hb. rewrite priority_select_pure, Hb.
    cbn [lookup_result].
    rewrite (credit_run b _ (mkMem priorities ((k0, v0) :: r)) (sub, p) Gb). reflexivity.
Qed.

(** C8. On a non-empty [running]: if some running job has no entry in
    the priority table, [PriorityScheduler.addProgress] raises [KeyError]
    and leaves the dictionary as it was; if every running job has one, it
    returns after giving one full nominal-rate increment to a running job
    whose priority no running job exceeds. *)
Theorem PriorityScheduler_lookup (priorities : dict Z) (running : RDict) (time : Z) :
  running <> [] ->
  ((exists app, In app (dict_keys running) /\ dict_get app priorities = None) ->
   addProgress (PriorityScheduler priorities) running time =
     (PriorityScheduler priorities, running, Raise KeyError)) /\
  ((forall app, In app (dict_keys running) -> dict_get app priorities <> None) ->
   exists best prio sub p,
     In best (dict_keys running) /\
     dict_get best priorities = Some prio /\
     (forall app q, In app (dict_keys running) ->
        dict_get app priorities = Some q -> q <= prio) /\
     dict_get best running = Some (sub, p) /\
     addProgress (PriorityScheduler priorities) running time =
       (PriorityScheduler priorities,
        dict_set best (sub, Fraction.add p (nominalRate best)) running,
        Ok tt)).
Proof.
  intros Hne. split.
  - apply PriorityScheduler_raises.
  - apply PriorityScheduler_credits. exact Hne.
Qed.

Lemma PriorityScheduler_lookup_witness :
  let a1 := mkApp 1 3 5 in
  let a2 := mkApp 2 2 4 in
  let running := [(a1, (0, 0%Q)); (a2, (0, 0%Q))] in
  running <> [] /\
  (exists app, In app (dict_keys running) /\ dict_get app [(a1, 1)] = None) /\
  addProgress (PriorityScheduler [(a1, 1)]) running 0 =
    (PriorityScheduler [(a1, 1)], running, Raise KeyError).
Proof.
  cbv zeta.
  assert (Hne : [(mkApp 1 3 5, (0, 0%Q)); (mkApp 2 2 4, (0, 0%Q))] <> []) by discriminate.
  assert (Hex : exists app,
             In app (dict_keys [(mkApp 1 3 5, (0, 0%Q)); (mkApp 2 2 4, (0, 0%Q))]) /\
             dict_get app [(mkApp 1 3 5, 1)] = None).
  { exists (mkApp 2 2 4). split; [right; left|]; reflexivity. }
  split; [exact Hne|]. split; [exact Hex|].
  exact (proj1 (PriorityScheduler_lookup [(mkApp 1 3 5, 1)] _ 0 Hne) Hex).
Defined.

(** ** Equality and hashing of states *)

(** Two states built by hand that differ only in the order of insertion:
    [==] holds between them in both directions, their [repr] strings
    differ, and so a set identifies them only if the string hash happens
    to collide on those two strings; otherwise the union of the two
    singletons keeps both.  An exploration never builds two such states:
    see [equal_states_are_one]. *)
Remark Spark_hash_follows_insertion_order :
  let a1 := mkApp 1 1 1 in
  let a2 := mkApp 2 1 1 in
  let sA := mkSpark [(a1, (0, 0%Q)); (a2, (0, 0%Q))] [] in
  let sB := mkSpark [(a2, (0, 0%Q)); (a1, (0, 0%Q))] [] in
  Spark_eqb sA sB = true /\
  Spark_eqb sB sA = true /\
  Spark_repr sA <> Spark_repr sB /\
  (forall str_hash : string -> Z,
     Spark_hash str_hash sA = Spark_hash str_hash sB \/
     set_union str_hash [sA] [sB] = [sA; sB]).
Proof.
  cbv zeta. split; [reflexivity|]. split; [reflexivity|]. split.
  - vm_compute. discriminate.
  - intros str_hash. unfold set_union, set_add, set_mem, same_elem. cbn [fold_left existsb].
    destruct (Spark_hash str_hash _ =? Spark_hash str_hash _) eqn:E.
    + left. apply Z.eqb_eq in E. exact E.
    + right. reflexivity.
Qed.

(** ** [==] on states is an equivalence on well-formed states *)

Lemma dict_eqb_refl {V : Type} (veq : V -> V -> bool) (d : dict V) :
  (forall v, veq v v = true) -> dict_ok d -> dict_eqb veq d d = true.
Proof.
  intros Hrefl Hok. unfold dict_eqb. rewrite Nat.eqb_refl. simpl.
  apply forallb_forall. intros [k v] Hin. simpl.
  rewrite (dict_ok_get k v d Hok Hin). apply Hrefl.
Qed.

Lemma dict_eqb_trans {V : Type} (veq : V -> V -> bool) (d1 d2 d3 : dict V) :
  (forall u v w, veq u v = true -> veq v w = true -> veq u w = true) ->
  dict_eqb veq d1 d2 = true -> dict_eqb veq d2 d3 = true -> dict_eqb veq d1 d3 = true.
Proof.
  intros Htrans H12 H23. unfold dict_eqb in *.
  apply andb_true_iff in H12. destruct H12 as [L12 F12].
  apply andb_true_iff in H23. destruct H23 as [L23 F23].
  apply Nat.eqb_eq in L12, L23. rewrite forallb_forall in F12, F23.
  apply andb_true_iff. split; [apply Nat.eqb_eq; congruence|].
  apply forallb_forall. intros [k v] Hin. simpl.
  specialize (F12 _ Hin). simpl in F12.
  destruct (dict_get k d2) as [v2|] eqn:G2; [|discriminate].
  destruct (dict_get_In _ _ _ G2) as (k2 & Hin2 & Ek).
  specialize (F23 _ Hin2). simpl in F23.
  rewrite (dict_get_congr _ _ d3 Ek).
  destruct (dict_get k2 d3) as [v3|]; [|discriminate].
  eapply Htrans; eassumption.
Qed.

Lemma running_value_eqb_refl (v : Z * Q) : running_value_eqb v v = true.
Proof.
  unfold running_value_eqb, Fraction.eqb. rewrite Z.eqb_refl, Qeq_bool_refl. reflexivity.
Qed.

Lemma running_value_eqb_trans (u v w : Z * Q) :
  running_value_eqb u v = true -> running_value_eqb v w = true ->
  running_value_eqb u w = true.
Proof.
  unfold running_value_eqb, Fraction.eqb. rewrite !andb_true_iff, !Z.eqb_eq.
  intros [E1 Q1] [E2 Q2]. split; [congruence|]. eapply Qeq_bool_trans; eassumption.
Qed.

Lemma ended_value_eqb_refl (v : Z * Z) : ended_value_eqb v v = true.
Proof. unfold ended_value_eqb. rewrite !Z.eqb_refl. reflexivity. Qed.

Lemma ended_value_eqb_trans (u v w : Z * Z) :
  ended_value_eqb u v = true -> ended_value_eqb v w = true -> ended_value_eqb u w = true.
Proof.
  unfold ended_value_eqb. rewrite !andb_true_iff, !Z.eqb_eq. intuition congruence.
Qed.

Lemma Spark_eqb_refl (s : Spark) : Spark_ok s -> Spark_eqb s s = true.
Proof.
  intros [Hr He]. unfold Spark_eqb.
  rewrite (dict_eqb_refl _ _ running_value_eqb_refl Hr).
  rewrite (dict_eqb_refl _ _ ended_value_eqb_refl He). reflexivity.
Qed.

Lemma Spark_eqb_trans (x y z : Spark) :
  Spark_eqb x y = true -> Spark_eqb y z = true -> Spark_eqb x z = true.
Proof.
  unfold Spark_eqb. rewrite !andb_true_iff. intros [R1 E1] [R2 E2]. split.
  - exact (dict_eqb_trans _ _ _ _ running_value_eqb_trans R1 R2).
  - exact (dict_eqb_trans _ _ _ _ ended_value_eqb_trans E1 E2).
Qed.

(** ** Sets of states *)

Section SetFacts.

Variable str_hash : string -> Z.

Local Notation "'same'" := (same_elem str_hash).
Local Notation "'mem'" := (set_mem str_hash).
Local Notation "'add'" := (set_add str_hash).
Local Notation "'union'" := (set_union str_hash).

Lemma same_elem_refl (s : Spark) : Spark_ok s -> same s s = true.
Proof.
  intros H. unfold same_elem. rewrite Z.eqb_refl, (Spark_eqb_refl s H). reflexivity.
Qed.

Lemma same_elem_trans (x y z : Spark) :
  same x y = true -> same y z = true -> same x z = true.
Proof.
  unfold same_elem. rewrite !andb_true_iff, !Z.eqb_eq.
  intros [H1 E1] [H2 E2]. split; [congruence|]. eapply Spark_eqb_trans; eassumption.
Qed.

Lemma In_set_add (x y : Spark) (l : list Spark) :
  In y (add x l) -> y = x \/ In y l.
Proof.
  unfold set_add. destruct (mem x l); [auto|].
  intros H. apply in_app_or in H. destruct H as [H|[H|[]]]; auto.
Qed.

Lemma set_add_incl (x y : Spark) (l : list Spark) : In y l -> In y (add x l).
Proof.
  unfold set_add. destruct (mem x l); [auto|]. intros H. apply in_or_app. auto.
Qed.

Lemma In_set_union (a b : list Spark) (y : Spark) :
  In y (union a b) -> In y a \/ In y b.
Proof.
  unfold set_union. revert a. induction b as [|x b IH]; intros a; simpl; [auto|].
  intros H. destruct (IH _ H) as [H'|H']; [|auto].
  apply In_set_add in H'. destruct H' as [->|H']; auto.
Qed.

Lemma set_union_incl_l (a b : list Spark) (y : Spark) : In y a -> In y (union a b).
Proof.
  unfold set_union. revert a. induction b as [|x b IH]; intros a H; simpl; [exact H|].
  apply IH. apply set_add_incl. exact H.
Qed.

Lemma set_union_nonempty_r (a b : list Spark) : b <> [] -> union a b <> [].
Proof.
  destruct b as [|x b]; [congruence|]. intros _ E.
  assert (H : exists y, In y (add x a)).
  { unfold set_add. destruct (mem x a) eqn:M.
    - unfold set_mem in M. apply existsb_exists in M. destruct M as (y & Hy & _). eauto.
    - exists x. apply in_or_app. simpl. auto. }
  destruct H as [y Hy].
  assert (In y (union a (x :: b))) by (apply (set_union_incl_l (add x a) b y Hy)).
  rewrite E in H. destruct H.
Qed.

Lemma set_mem_incl (x : Spark) (l l' : list Spark) :
  (forall y, In y l -> In y l') -> mem x l = true -> mem x l' = true.
Proof.
  unfold set_mem. rewrite !existsb_exists. intros H (y & Hy & E). eauto.
Qed.

Lemma set_mem_add (x y : Spark) (l : list Spark) :
  same y x = true -> mem x (add y l) = true.
Proof.
  intros E. unfold set_add. destruct (mem y l) eqn:M.
  - unfold set_mem in *. rewrite existsb_exists in *.
    destruct M as (z & Hz & Ez). exists z. split; [exact Hz|].
    eapply same_elem_trans; eassumption.
  - unfold set_mem. apply existsb_exists. exists y. split; [|exact E].
    apply in_or_app. simpl. auto.
Qed.

(** A member of the right operand is a member of the union. *)
Lemma set_mem_union_r (a b : list Spark) (x : Spark) :
  mem x b = true -> mem x (union a b) = true.
Proof.
  unfold set_union. revert a. induction b as [|y b IH]; intros a H; simpl.
  - discriminate.
  - unfold set_mem in H. simpl in H. apply orb_true_iff in H. destruct H as [H|H].
    + apply (set_mem_incl x (add y a)); [|apply set_mem_add; exact H].
      intros z Hz. apply (set_union_incl_l (add y a) b z Hz).
    + apply IH. exact H.
Qed.

(** *** [nextStates] *)

Lemma nextStates_nonempty (apps : list App) (s : Spark) (t : Z) :
  nextStates str_hash apps s t <> [].
Proof.
  revert s. induction apps as [|app rest IH]; intros s; simpl; [discriminate|].
  apply set_union_nonempty_r. apply IH.
Qed.

Lemma nextStates_mem (apps : list App) (s : Spark) (t : Z) :
  Spark_ok s -> mem s (nextStates str_hash apps s t) = true.
Proof.
  intros Hok. revert s Hok. induction apps as [|app rest IH]; intros s Hok; simpl.
  - unfold set_mem. simpl. rewrite (same_elem_refl s Hok). reflexivity.
  - apply set_mem_union_r. apply IH. exact Hok.
Qed.

(** Whatever [schedule] preserves holds of every successor. *)
Lemma nextStates_preserves (P : Spark -> Prop) (t : Z) :
  (forall s app, P s -> P (schedule s app t)) ->
  forall apps s, P s -> forall s', In s' (nextStates str_hash apps s t) -> P s'.
Proof.
  intros Hsched. induction apps as [|app rest IH]; intros s Hs s'; simpl.
  - intros [<-|[]]. exact Hs.
  - intros H. apply In_set_union in H. destruct H as [H|H].
    + eapply IH; [|exact H]. apply Hsched. exact Hs.
    + eapply IH; [|exact H]. exact Hs.
Qed.

(** The same for a property that [schedule] keeps for the jobs of the
    list only. *)
Lemma nextStates_preserves_in (P : Spark -> Prop) (t : Z) :
  forall apps,
    (forall s app, In app apps -> P s -> P (schedule s app t)) ->
    forall s, P s -> forall s', In s' (nextStates str_hash apps s t) -> P s'.
Proof.
  induction apps as [|app rest IH]; intros Hsched s Hs s'; simpl.
  - intros [<-|[]]. exact Hs.
  - assert (Hrest : forall s0 a, In a rest -> P s0 -> P (schedule s0 a t))
      by (intros s0 a Ha; apply Hsched; simpl; auto).
    intros H. apply In_set_union in H. destruct H as [H|H].
    + eapply (IH Hrest); [|exact H]. apply Hsched; simpl; auto.
    + eapply (IH Hrest); [|exact H]. exact Hs.
Qed.

(** When no job can arrive, the state is its only successor. *)
Lemma nextStates_stuck (apps : list App) (s : Spark) (t : Z) :
  Spark_ok s -> Forall (fun app => schedule s app t = s) apps ->
  nextStates str_hash apps s t = [s].
Proof.
  intros Hok. induction 1 as [|app rest Happ _ IH]; simpl; [reflexivity|].
  rewrite Happ, IH. unfold set_union, set_add, set_mem. simpl.
  rewrite (same_elem_refl s Hok). reflexivity.
Qed.

End SetFacts.

(** ** The jobs of a state across [schedule] and [tick] *)

Lemma dict_mem_cons {V : Type} (k k0 : App) (v0 : V) (d : dict V) :
  dict_mem k ((k0, v0) :: d) = App_eqb k k0 || dict_mem k d.
Proof. unfold dict_mem. simpl. destruct (App_eqb k k0); reflexivity. Qed.

Lemma dict_mem_filter_key {V : Type} (g : App -> bool) (k : App) (d : dict V) :
  (forall a b, App_eqb a b = true -> g a = g b) ->
  dict_mem k (filter (fun x => g (fst x)) d) = dict_mem k d && g k.
Proof.
  intros Hg. induction d as [|[k0 v0] d IH]; simpl; [reflexivity|].
  destruct (g k0) eqn:G0; rewrite ?dict_mem_cons, IH;
    destruct (App_eqb k k0) eqn:E; simpl; try reflexivity.
  - rewrite (Hg _ _ E), G0. reflexivity.
  - rewrite (Hg _ _ E), G0, andb_false_r. reflexivity.
Qed.

Lemma dict_mem_tick_finish (time : Z) (k : App) (r : RDict) (e : EDict) :
  dict_mem k (tick_finish time r e) =
    dict_mem k e || existsb (fun x => App_eqb k (fst x) && finished x) r.
Proof.
  unfold tick_finish. revert e. induction r as [|[k0 v0] r IH]; intros e; simpl.
  - rewrite orb_false_r. reflexivity.
  - rewrite IH. change (Fraction.leb (Fraction.of_int 1) (snd v0)) with (finished (k0, v0)).
    destruct (finished (k0, v0)).
    + rewrite dict_mem_set, andb_true_r.
      destruct (App_eqb k k0), (dict_mem k e); reflexivity.
    + rewrite andb_false_r. reflexivity.
Qed.

(** [tick] moves jobs between the mappings and neither adds nor drops
    one. *)
Lemma tick_present (sched sched' : Scheduler) (s s' : Spark) (time : Z) (app : App) :
  tick sched s time = Ok (sched', s') -> present s' app = present s app.
Proof.
  unfold tick. destruct (dict_is_empty (running s)).
  - intros X. injection X as _ <-. reflexivity.
  - destruct (addProgress sched (running s) time) as [[sched1 r1] [u|e]] eqn:AP;
      [|discriminate].
    intros X. injection X as _ <-. unfold present. cbn [running ended].
    apply addProgress_keeps in AP. destruct AP as [K _].
    rewrite tick_retire_filter.
    rewrite (dict_mem_filter_key (fun a => negb (dict_mem a (tick_finish time r1 (ended s)))))
      by (intros a b E; rewrite (dict_mem_congr _ _ _ E); reflexivity).
    rewrite dict_mem_tick_finish.
    assert (M : dict_mem app r1 = dict_mem app (running s))
      by (rewrite !dict_mem_existsb, K; reflexivity).
    rewrite <- M.
    destruct (existsb (fun x => App_eqb app (fst x) && finished x) r1) eqn:Ex.
    + apply existsb_exists in Ex. destruct Ex as ([k v] & Hin & Hk).
      apply andb_true_iff in Hk. destruct Hk as [Hk _]. simpl in Hk.
      apply In_dict_mem in Hin. rewrite <- (dict_mem_congr _ _ _ Hk) in Hin.
      rewrite Hin. destruct (dict_mem app (ended s)); reflexivity.
    + destruct (dict_mem app r1), (dict_mem app (ended s)); reflexivity.
Qed.

Lemma has_id_present (s : Spark) (k : Z) : has_id s k = present s (mkApp k 0 0).
Proof. rewrite present_has_id. reflexivity. Qed.

Lemma tick_has_id (sched sched' : Scheduler) (s s' : Spark) (time : Z) (k : Z) :
  tick sched s time = Ok (sched', s') -> has_id s' k = has_id s k.
Proof. intros X. rewrite !has_id_present. eapply tick_present. exact X. Qed.

Lemma tick_dep_ok (sched sched' : Scheduler) (s s' : Spark) (time : Z) :
  tick sched s time = Ok (sched', s') -> dep_ok s -> dep_ok s'.
Proof.
  intros X H k Hk. rewrite !(tick_has_id _ _ _ _ _ _ X). apply H. exact Hk.
Qed.

Lemma schedule_has_id (s : Spark) (app : App) (time : Z) (k : Z) :
  has_id (schedule s app time) k =
    has_id s k || (negb (has_id s (id app)) && has_id s (id app - 1) && (id app =? k)).
Proof.
  unfold schedule. rewrite present_has_id.
  destruct (has_id s (id app)) eqn:P; simpl; [rewrite orb_false_r; reflexivity|].
  assert (Hp : has_predecessor (dict_keys (running s) ++ dict_keys (ended s)) app
               = has_id s (id app - 1)).
  { apply eq_true_iff_eq. rewrite has_predecessor_iff, has_id_iff. reflexivity. }
  rewrite Hp. destruct (has_id s (id app - 1)) eqn:Q; simpl; [|rewrite orb_false_r; reflexivity].
  unfold has_id. cbn [running ended].
  rewrite dict_set_absent.
  - unfold dict_keys. rewrite map_app, !existsb_app. simpl.
    destruct (existsb _ (map fst (running s))), (existsb _ (map fst (ended s))),
      (id app =? k); reflexivity.
  - unfold has_id in P. rewrite existsb_app in P.
    apply orb_false_iff in P. destruct P as [P _].
    rewrite dict_mem_existsb. rewrite <- P. apply existsb_pointwise.
    intros a. unfold App_eqb. apply Z.eqb_sym.
Qed.

Lemma schedule_dep_ok (s : Spark) (app : App) (time : Z) :
  dep_ok s -> dep_ok (schedule s app time).
Proof.
  intros H k Hk. rewrite !schedule_has_id. intros X.
  apply orb_true_iff in X. destruct X as [X|X].
  - rewrite (H k Hk X). reflexivity.
  - apply andb_true_iff in X. destruct X as [X E]. apply andb_true_iff in X.
    destruct X as [_ X]. apply Z.eqb_eq in E. subst k. rewrite X. reflexivity.
Qed.

(** ** The policies that always return *)

Lemma exec_wp_total {Self : Type} (c : M Self unit) (o : Self) (running : RDict)
    (I : Mem Self -> Prop) :
  wp c (fun _ => I) (fun _ => False) (mkMem o running) ->
  exists o' r', exec c o running = (o', r', Ok tt) /\ I (mkMem o' r').
Proof.
  unfold wp, exec. destruct (c (mkMem o running)) as [[o1 r1] [[]|e]]; intros H.
  - eauto.
  - destruct H.
Qed.

Lemma addProgress_never_raises (sched : Scheduler) (running : RDict) (time : Z) :
  never_raises sched = true ->
  exists sched' running',
    addProgress sched running time = (sched', running', Ok tt) /\
    never_raises sched' = true.
Proof.
  pose (R := fun _ _ : Q => True). pose (good := fun _ : Q => True).
  assert (R_refl : forall p, R p p) by (intros; exact I).
  assert (R_trans : forall p q r, R p q -> R q r -> R p r) by (intros; exact I).
  assert (R_add : forall p d, good d -> R p (Fraction.add p d)) by (intros; exact I).
  assert (G : forall x : Q, good x) by (intros; exact I).
  intros Hn.
  destruct sched as [| | | |o| | |prios|o]; try discriminate; unfold addProgress, lift.
  - destruct (exec_wp_total (FIFO_addProgress time) tt running
                (Inv R running (fun _ => True))) as (o' & r' & X & _).
    { eapply FIFO_inv; eauto. apply Inv_start; auto. }
    rewrite X. eauto.
  - destruct (exec_wp_total (Fair_addProgress time) tt running
                (Inv R running (fun _ => True))) as (o' & r' & X & _).
    { eapply Fair_inv; eauto. apply Inv_start; auto. }
    rewrite X. eauto.
  - destruct (exec_wp_total (EDFAll_addProgress time) tt running
                (Inv R running (fun _ => True))) as (o' & r' & X & _).
    { eapply EDFAll_inv; eauto. apply Inv_start; auto. }
    rewrite X. eauto.
  - destruct (exec_wp_total (EDFPure_addProgress time) tt running
                (Inv R running (fun _ => True))) as (o' & r' & X & _).
    { eapply EDFPure_inv; eauto. apply Inv_start; auto. }
    rewrite X. eauto.
  - destruct (exec_wp_total (RoundRobin_addProgress time) o running
                (Inv R running (fun o' => time_slice o' = time_slice o))) as (o' & r' & X & _).
    { eapply RoundRobin_inv; eauto. apply Inv_start; auto. }
    rewrite X. eauto.
  - destruct (exec_wp_total (ShortestJobNext_addProgress time) tt running
                (Inv R running (fun _ => True))) as (o' & r' & X & _).
    { eapply ShortestJobNext_inv; eauto. apply Inv_start; auto. }
    rewrite X. eauto.
  - destruct (exec_wp_total (LeastLaxityFirst_addProgress time) tt running
                (Inv R running (fun _ => True))) as (o' & r' & X & _).
    { eapply LeastLaxityFirst_inv; eauto. apply Inv_start; auto. }
    rewrite X. eauto.
Qed.

Lemma tick_never_raises (sched : Scheduler) (s : Spark) (time : Z) :
  never_raises sched = true ->
  exists sched' s', tick sched s time = Ok (sched', s') /\ never_raises sched' = true.
Proof.
  intros Hn. unfold tick. destruct (dict_is_empty (running s)); [eauto|].
  destruct (addProgress_never_raises sched (running s) time Hn) as (sched' & r' & X & Hn').
  rewrite X. eauto.
Qed.

(** ** The exploration *)

Section SimulateFacts.

Variable str_hash : string -> Z.
Variable set_iter : list Spark -> list Spark.
Hypothesis set_iter_perm : forall l, Permutation (set_iter l) l.

Lemma set_iter_In (s : Spark) (l : list Spark) : In s (set_iter l) -> In s l.
Proof. apply Permutation_in. apply set_iter_perm. Qed.

Lemma set_iter_nonempty (l : list Spark) : l <> [] -> set_iter l <> [].
Proof.
  intros Hl E. apply Hl. apply Permutation_nil. rewrite <- E. apply set_iter_perm.
Qed.

Lemma set_iter_singleton (s : Spark) : set_iter [s] = [s].
Proof. apply Permutation_length_1_inv. apply Permutation_sym. apply set_iter_perm. Qed.

(** *** Invariants *)

Section Preserved.

Variable P : Spark -> Prop.
Hypothesis P_schedule : forall s app t, P s -> P (schedule s app t).
Hypothesis P_tick :
  forall sched sched' s s' t, tick sched s t = Ok (sched', s') -> P s -> P s'.

Lemma simulate_tick_preserves (apps : list App) (t : Z) :
  forall todo sched newStates sched' states,
    (forall s, In s todo -> P s) -> (forall s, In s newStates -> P s) ->
    simulate_tick str_hash apps sched todo t newStates = Ok (sched', states) ->
    forall s, In s states -> P s.
Proof.
  induction todo as [|state todo IH]; intros sched newStates sched' states Htodo Hnew; simpl.
  - intros X. injection X as _ <-. exact Hnew.
  - destruct (tick sched state t) as [[sched1 ticked]|e] eqn:T; [|discriminate].
    apply IH.
    + intros s Hs. apply Htodo. simpl. auto.
    + intros s Hs. apply In_set_union in Hs. destruct Hs as [Hs|Hs]; [auto|].
      eapply nextStates_preserves; [|eapply P_tick; [exact T|]|exact Hs].
      * intros s0 app. apply P_schedule.
      * apply Htodo. simpl. auto.
Qed.

Lemma simulate_loop_preserves (apps : list App) :
  forall times sched states sched' final,
    (forall s, In s states -> P s) ->
    simulate_loop str_hash set_iter apps sched states times = Ok (sched', final) ->
    forall s, In s final -> P s.
Proof.
  induction times as [|t times IH]; intros sched states sched' final Hs; simpl.
  - intros X. injection X as _ <-. exact Hs.
  - destruct (simulate_tick str_hash apps sched (set_iter states) t [])
      as [[sched1 newStates]|e] eqn:T; [|discriminate].
    apply IH. eapply simulate_tick_preserves; [| |exact T].
    + intros s Hin. apply Hs. apply set_iter_In. exact Hin.
    + intros s [].
Qed.

Lemma simulate_preserves (sched : Scheduler) (initial : Spark) (apps : list App)
    (steps : Z) (states : list Spark) :
  P initial ->
  simulate str_hash set_iter sched initial apps steps = Ok states ->
  forall s, In s states -> P s.
Proof.
  intros Hinit. unfold simulate.
  destruct (simulate_loop _ _ _ _ _ _) as [[sched' final]|e] eqn:L; [|discriminate].
  intros X. injection X as <-.
  eapply simulate_loop_preserves; [|exact L]. intros s [<-|[]]. exact Hinit.
Qed.

End Preserved.

(** *** The state set is never empty *)

Lemma simulate_tick_nonempty (apps : list App) (t : Z) :
  forall todo sched newStates sched' states,
    todo <> [] \/ newStates <> [] ->
    simulate_tick str_hash apps sched todo t newStates = Ok (sched', states) ->
    states <> [].
Proof.
  induction todo as [|state todo IH]; intros sched newStates sched' states H; simpl.
  - intros X. injection X as _ <-. destruct H; congruence.
  - destruct (tick sched state t) as [[sched1 ticked]|e]; [|discriminate].
    apply IH. right. apply set_union_nonempty_r. apply nextStates_nonempty.
Qed.

Lemma simulate_loop_nonempty (apps : list App) :
  forall times sched states sched' final,
    states <> [] ->
    simulate_loop str_hash set_iter apps sched states times = Ok (sched', final) ->
    final <> [].
Proof.
  induction times as [|t times IH]; intros sched states sched' final Hs; simpl.
  - intros X. injection X as _ <-. exact Hs.
  - destruct (simulate_tick str_hash apps sched (set_iter states) t [])
      as [[sched1 newStates]|e] eqn:T; [|discriminate].
    apply IH. eapply simulate_tick_nonempty; [|exact T].
    left. apply set_iter_nonempty. exact Hs.
Qed.

(** *** When the exploration returns

    [Psched] is what is known of the scheduler object and [P] of the
    states; if [tick] returns under them and keeps them, so does the
    exploration. *)

Section Total.

Variable apps : list App.
Variable Psched : Scheduler -> Prop.
Variable P : Spark -> Prop.
Hypothesis P_schedule : forall s app t, In app apps -> P s -> P (schedule s app t).
Hypothesis tick_total :
  forall sched s t, Psched sched -> P s ->
    exists sched' s', tick sched s t = Ok (sched', s') /\ Psched sched' /\ P s'.

Lemma simulate_tick_total (t : Z) :
  forall todo sched newStates,
    Psched sched ->
    (forall s, In s todo -> P s) -> (forall s, In s newStates -> P s) ->
    exists sched' states,
      simulate_tick str_hash apps sched todo t newStates = Ok (sched', states) /\
      Psched sched' /\ forall s, In s states -> P s.
Proof.
  induction todo as [|state todo IH]; intros sched newStates Hn Htodo Hnew; simpl; [eauto|].
  destruct (tick_total sched state t Hn (Htodo state (or_introl eq_refl)))
    as (sched1 & ticked & T & Hn1 & Hp).
  rewrite T. apply IH; [exact Hn1| |].
  - intros s Hs. apply Htodo. simpl. auto.
  - intros s Hs. apply In_set_union in Hs. destruct Hs as [Hs|Hs]; [auto|].
    eapply (nextStates_preserves_in str_hash P t apps); [|exact Hp|exact Hs].
    intros s0 app. apply P_schedule.
Qed.

Lemma simulate_loop_total :
  forall times sched states,
    Psched sched -> (forall s, In s states -> P s) ->
    exists sched' final,
      simulate_loop str_hash set_iter apps sched states times = Ok (sched', final).
Proof.
  induction times as [|t times IH]; intros sched states Hn Hs; simpl; [eauto|].
  destruct (simulate_tick_total t (set_iter states) sched [] Hn)
    as (sched1 & newStates & T & Hn1 & Hp).
  - intros s Hin. apply Hs. apply set_iter_In. exact Hin.
  - intros s [].
  - rewrite T. apply IH; assumption.
Qed.

Lemma simulate_total (sched : Scheduler) (initial : Spark) (steps : Z) :
  Psched sched -> P initial ->
  exists states, simulate str_hash set_iter sched initial apps steps = Ok states.
Proof.
  intros Hn Hp. unfold simulate.
  destruct (simulate_loop_total (py_range (steps + 1)) sched [initial] Hn)
    as (sched' & final & L).
  - intros s [<-|[]]. exact Hp.
  - rewrite L. eauto.
Qed.

End Total.

(** *** When the exploration raises: only an error of [addProgress] *)

Lemma tick_raise_origin (sched : Scheduler) (s : Spark) (t : Z) (e : Exn) :
  tick sched s t = Raise e ->
  exists sched' running', addProgress sched (running s) t = (sched', running', Raise e).
Proof.
  unfold tick. destruct (dict_is_empty (running s)); [discriminate|].
  destruct (addProgress sched (running s) t) as [[sched' r'] [u|e']]; [discriminate|].
  intros X. injection X as <-. eauto.
Qed.

Lemma simulate_tick_raise_origin (apps : list App) (t : Z) (e : Exn) :
  forall todo sched newStates,
    simulate_tick str_hash apps sched todo t newStates = Raise e ->
    exists sched1 running1 sched2 running2,
      addProgress sched1 running1 t = (sched2, running2, Raise e).
Proof.
  induction todo as [|state todo IH]; intros sched newStates; simpl; [discriminate|].
  destruct (tick sched state t) as [[sched1 ticked]|e'] eqn:T.
  - apply IH.
  - intros X. injection X as ->.
    destruct (tick_raise_origin _ _ _ _ T) as (sched' & r' & A). eauto.
Qed.

Lemma simulate_loop_raise_origin (apps : list App) (e : Exn) :
  forall times sched states,
    simulate_loop str_hash set_iter apps sched states times = Raise e ->
    exists sched1 running1 t sched2 running2,
      addProgress sched1 running1 t = (sched2, running2, Raise e).
Proof.
  induction times as [|t times IH]; intros sched states; simpl; [discriminate|].
  destruct (simulate_tick str_hash apps sched (set_iter states) t [])
    as [[sched1 newStates]|e'] eqn:T.
  - apply IH.
  - intros X. injection X as ->.
    destruct (simulate_tick_raise_origin _ _ _ _ _ _ T) as (s1 & r1 & s2 & r2 & A).
    eauto 6.
Qed.

(** *** One state, no arrival: the shape of the two scenarios *)

Lemma simulate_loop_single (apps : list App) (sched sched' : Scheduler)
    (s s' : Spark) (t : Z) (times : list Z) :
  tick sched s t = Ok (sched', s') ->
  Spark_ok s' ->
  Forall (fun app => schedule s' app t = s') apps ->
  simulate_loop str_hash set_iter apps sched [s] (t :: times)
  = simulate_loop str_hash set_iter apps sched' [s'] times.
Proof.
  intros T Hok Hstuck. simpl. rewrite set_iter_singleton. simpl. rewrite T.
  rewrite (nextStates_stuck str_hash apps s' t Hok Hstuck). reflexivity.
Qed.

End SimulateFacts.

(** ** The dependency order *)

(** C6. The dependency order (a job with id [k > 1] in a state has the
    job with id [k - 1] in the same state) is kept by [schedule], by
    [tick], by the branching of [nextStates], and so holds of every state
    of the set [simulate] returns, for every horizon, when it holds of
    the seed; whatever the string hash and the iteration order of sets
    are. *)
Theorem dependency_order_invariant (str_hash : string -> Z)
    (set_iter : list Spark -> list Spark) :
  (forall l, Permutation (set_iter l) l) ->
  (forall s app t, dep_ok s -> dep_ok (schedule s app t)) /\
  (forall sched sched' s s' t,
     tick sched s t = Ok (sched', s') -> dep_ok s -> dep_ok s') /\
  (forall apps s t, dep_ok s ->
     forall s', In s' (nextStates str_hash apps s t) -> dep_ok s') /\
  (forall sched seed apps steps states,
     dep_ok seed ->
     simulate str_hash set_iter sched seed apps steps = Ok states ->
     forall s, In s states -> dep_ok s).
Proof.
  intros Hperm. split; [|split; [|split]].
  - apply schedule_dep_ok.
  - intros sched sched' s s' t. apply tick_dep_ok.
  - intros apps s t. apply nextStates_preserves.
    intros s0 app. apply schedule_dep_ok.
  - intros sched seed apps steps states.
    apply (simulate_preserves str_hash set_iter Hperm dep_ok).
    + apply schedule_dep_ok.
    + intros sched0 sched' s s' t. apply tick_dep_ok.
Qed.

Lemma dependency_order_invariant_witness :
  let j1 := mkApp 1 2 2 in
  let j2 := mkApp 2 1 1 in
  let seed := mkSpark [(j1, (1, 0%Q))] [] in
  let run := simulate (fun _ => 0) (fun l => l) EDFAll seed [j1; j2] 2 in
  (forall l : list Spark, Permutation l l) /\
  dep_ok seed /\
  (exists states, run = Ok states /\ length states = 4%nat /\
     forall s, In s states -> dep_ok s).
Proof.
  cbv zeta.
  assert (Hperm : forall l : list Spark, Permutation ((fun l => l) l) l)
    by (intros l; apply Permutation_refl).
  assert (Hseed : dep_ok (mkSpark [(mkApp 1 2 2, (1, 0%Q))] [])).
  { intros k Hk. unfold has_id. cbn [running ended dict_keys map fst app existsb id].
    destruct (1 =? k) eqn:E; [apply Z.eqb_eq in E; lia|cbn [orb]; discriminate]. }
  split; [exact Hperm|]. split; [exact Hseed|].
  eexists. split; [vm_compute; reflexivity|]. split; [reflexivity|].
  refine (proj2 (proj2 (proj2 (dependency_order_invariant (fun _ => 0) (fun l => l) Hperm)))
            EDFAll _ [mkApp 1 2 2; mkApp 2 1 1] 2 _ Hseed _).
  vm_compute. reflexivity.
Defined.

(** ** The running jobs across [schedule] and [tick] *)

Lemma dict_keys_set_In {V : Type} (k a : App) (v : V) (d : dict V) :
  In a (dict_keys (dict_set k v d)) -> a = k \/ In a (dict_keys d).
Proof.
  induction d as [|[k0 v0] d IH]; simpl.
  - intros [<-|[]]. auto.
  - destruct (App_eqb k k0); simpl; intros [H|H]; auto.
    destruct (IH H); auto.
Qed.

Lemma schedule_running_keys (s : Spark) (app a : App) (t : Z) :
  In a (dict_keys (running (schedule s app t))) ->
  a = app \/ In a (dict_keys (running s)).
Proof.
  unfold schedule. destruct (present s app); [auto|].
  destruct (has_predecessor _ app); [|auto].
  cbn [running]. apply dict_keys_set_In.
Qed.

Lemma tick_running_keys (sched sched' : Scheduler) (s s' : Spark) (t : Z) (a : App) :
  tick sched s t = Ok (sched', s') ->
  In a (dict_keys (running s')) -> In a (dict_keys (running s)).
Proof.
  unfold tick. destruct (dict_is_empty (running s)).
  - intros X. injection X as _ <-. auto.
  - destruct (addProgress sched (running s) t) as [[sched1 r1] [u|e]] eqn:AP;
      [|discriminate].
    intros X. injection X as _ <-. cbn [running].
    apply addProgress_keeps in AP. destruct AP as [K _]. rewrite <- K.
    rewrite tick_retire_filter. unfold dict_keys. rewrite !in_map_iff.
    intros (x & Hx & Hin). apply filter_In in Hin. destruct Hin as [Hin _]. eauto.
Qed.

(** With a priority for every running job, [tick] under
    [PriorityScheduler] returns. *)
Lemma tick_PriorityScheduler_total (priorities : dict Z) (s : Spark) (t : Z) :
  (forall a, In a (dict_keys (running s)) -> dict_get a priorities <> None) ->
  exists s', tick (PriorityScheduler priorities) s t = Ok (PriorityScheduler priorities, s').
Proof.
  intros Hall. unfold tick. destruct (running s) as [|x r] eqn:Er; [simpl; eauto|].
  cbn [dict_is_empty].
  destruct (PriorityScheduler_credits priorities (x :: r) t) as (b & kb & sub & p & H);
    [discriminate|exact Hall|].
  destruct H as (_ & _ & _ & _ & X). rewrite X. eauto.
Qed.

(** ** The multilevel feedback queue in a consistent state *)

Lemma py_pos_valid {A : Type} (l : list A) (i : Z) :
  0 <= i < Z.of_nat (length l) -> py_pos l i = Some (Z.to_nat i).
Proof.
  intros [Lo Hi]. unfold py_pos.
  apply Z.leb_le in Lo. apply Z.ltb_lt in Hi. rewrite Lo, Hi. reflexivity.
Qed.

Lemma py_index_valid {A : Type} (l : list A) (i : Z) :
  0 <= i < Z.of_nat (length l) ->
  exists x, py_index l i = Some x /\ nth_error l (Z.to_nat i) = Some x.
Proof.
  intros H. unfold py_index. rewrite (py_pos_valid l i H).
  destruct (nth_error l (Z.to_nat i)) as [x|] eqn:N; [eauto|].
  apply nth_error_None in N. lia.
Qed.

Lemma py_range_In (n i : Z) : In i (py_range n) -> 0 <= i < n.
Proof.
  unfold py_range. rewrite in_map_iff. intros (k & <- & Hk).
  apply in_seq in Hk. lia.
Qed.

Lemma length_list_update {A : Type} (l : list A) (k : nat) (x : A) :
  length (list_update l k x) = length l.
Proof.
  revert k. induction l as [|y l IH]; intros k; simpl; [reflexivity|].
  destruct k; simpl; [reflexivity|]. rewrite IH. reflexivity.
Qed.

Lemma nth_error_list_update_same {A : Type} (l : list A) (k : nat) (x y : A) :
  nth_error l k = Some y -> nth_error (list_update l k x) k = Some x.
Proof.
  revert k. induction l as [|z l IH]; intros k; simpl.
  - destruct k; discriminate.
  - destruct k; simpl; [reflexivity|]. apply IH.
Qed.

Lemma nth_error_list_update_other {A : Type} (l : list A) (k j : nat) (x : A) :
  j <> k -> nth_error (list_update l k x) j = nth_error l j.
Proof.
  revert k j. induction l as [|z l IH]; intros k j H; simpl; [reflexivity|].
  destruct k, j; simpl; try reflexivity; [congruence|]. apply IH. congruence.
Qed.

Lemma list_mem_In (app : App) (q : list App) :
  list_mem app q = true <-> In (id app) (map id q).
Proof.
  unfold list_mem. rewrite existsb_exists, in_map_iff. split.
  - intros (a & Hin & E). apply App_eqb_eq in E. eauto.
  - intros (a & E & Hin). exists a. split; [exact Hin|]. apply App_eqb_eq. auto.
Qed.

Lemma list_mem_remove_comp (app b : App) (q : list App) :
  list_mem b (list_remove app q) = true -> list_mem b q = true.
Proof.
  unfold list_mem. induction q as [|a q IH]; simpl; [auto|].
  destruct (App_eqb app a); simpl.
  - intros H. rewrite H. apply orb_true_r.
  - destruct (App_eqb b a); simpl; auto.
Qed.

Lemma NoDup_list_remove (app : App) (q : list App) :
  NoDup (map id q) -> NoDup (map id (list_remove app q)).
Proof.
  induction q as [|a q IH]; simpl; intros H; [constructor|].
  inversion H as [|? ? Hn Hq]; subst.
  destruct (App_eqb app a); [exact Hq|]. simpl. constructor; [|apply IH; exact Hq].
  intros Hin. apply Hn. apply list_mem_In. apply (list_mem_remove_comp app).
  apply list_mem_In. exact Hin.
Qed.

Lemma list_mem_remove_same (app : App) (q : list App) :
  NoDup (map id q) -> list_mem app (list_remove app q) = false.
Proof.
  induction q as [|a q IH]; simpl; intros H; [reflexivity|].
  inversion H as [|? ? Hn Hq]; subst.
  destruct (App_eqb app a) eqn:E.
  - apply not_true_is_false. intros M. apply Hn. apply list_mem_In in M.
    apply App_eqb_eq in E. rewrite <- E. exact M.
  - unfold list_mem in *. simpl. rewrite E. simpl. apply IH. exact Hq.
Qed.

Lemma list_mem_app (a b : App) (q : list App) :
  list_mem a (q ++ [b]) = list_mem a q || App_eqb a b.
Proof.
  unfold list_mem. rewrite existsb_app. simpl. rewrite orb_false_r. reflexivity.
Qed.

Lemma NoDup_append_id (app : App) (q : list App) :
  NoDup (map id q) -> list_mem app q = false -> NoDup (map id (q ++ [app])).
Proof.
  intros Hq Hm. rewrite map_app. simpl.
  apply NoDup_app; [exact Hq|repeat constructor; intros []|].
  intros x Hx [<-|[]]. apply list_mem_In in Hx. congruence.
Qed.

Lemma dict_ok_set {V : Type} (k : App) (v : V) (d : dict V) :
  dict_ok d -> dict_ok (dict_set k v d).
Proof.
  intros H. destruct (dict_mem k d) eqn:M.
  - apply (dict_ok_keys d); [apply dict_keys_set_present; exact M|exact H].
  - rewrite (dict_set_absent _ _ _ M).
    induction d as [|[k0 v0] d IH]; simpl.
    + apply dict_ok_cons. split; [reflexivity|constructor].
    + apply dict_ok_cons in H. destruct H as [H0 H].
      rewrite dict_mem_cons in M. apply orb_false_iff in M. destruct M as [E M].
      apply dict_ok_cons. split; [|apply IH; assumption].
      rewrite dict_mem_app, H0. simpl. rewrite dict_mem_cons, App_eqb_sym, E. reflexivity.
Qed.

Lemma dict_ok_del {V : Type} (k : App) (d : dict V) : dict_ok d -> dict_ok (dict_del k d).
Proof.
  induction d as [|[k0 v0] d IH]; simpl; intros H; [exact H|].
  apply dict_ok_cons in H. destruct H as [H0 H]. unfold dict_del. simpl.
  destruct (App_eqb k k0); simpl; [apply IH; exact H|].
  apply dict_ok_cons. split; [|apply IH; exact H].
  fold (dict_del k d). rewrite dict_mem_del, H0. apply andb_false_r.
Qed.

Lemma untracked_unqueued (o : MLFQObj) (app : App) :
  MLFQ_wf o -> dict_mem app (app_queue o) = false -> unqueued app o.
Proof.
  intros (_ & _ & _ & _ & _ & Hd & _) Hm k q N.
  destruct (list_mem app q) eqn:M; [|reflexivity].
  apply dict_mem_false in Hm. rewrite (Hd k q app N M) in Hm. discriminate.
Qed.

(** A queue may lose jobs. *)
Lemma MLFQ_wf_shrink (o : MLFQObj) (k : nat) (q q' : list App) :
  MLFQ_wf o -> nth_error (queues o) k = Some q ->
  (forall b, list_mem b q' = true -> list_mem b q = true) ->
  NoDup (map id q') ->
  MLFQ_wf (with_queues o (list_update (queues o) k q')).
Proof.
  intros (H1 & H2 & H3 & H4 & H5 & H6 & H7) N Hsub Hnd.
  unfold MLFQ_wf, with_queues. cbn [num_queues queues time_slices app_queue].
  split; [exact H1|]. split; [rewrite length_list_update; exact H2|].
  split; [exact H3|]. split; [exact H4|]. split; [exact H5|]. split.
  - intros j qj b Nj Mb. destruct (Nat.eq_dec j k) as [->|Hjk].
    + rewrite (nth_error_list_update_same _ _ _ _ N) in Nj. injection Nj as <-.
      apply (H6 k q b N). apply Hsub. exact Mb.
    + rewrite (nth_error_list_update_other _ _ _ _ Hjk) in Nj. apply (H6 j qj b Nj Mb).
  - apply Forall_list_update; assumption.
Qed.

Lemma tracked_elsewhere_unqueued (o : MLFQObj) (app : App) (idx : Z) (q : list App) :
  MLFQ_wf o -> dict_get app (app_queue o) = Some idx ->
  nth_error (queues o) (Z.to_nat idx) = Some q -> list_mem app q = false ->
  unqueued app o.
Proof.
  intros (_ & _ & _ & _ & _ & Hd & _) G N M k qk Nk.
  destruct (list_mem app qk) eqn:Mk; [|reflexivity].
  pose proof (Hd k qk app Nk Mk) as G'. rewrite G in G'. injection G' as ->.
  rewrite Nat2Z.id in N. congruence.
Qed.

Lemma MLFQ_wf_remove (o : MLFQObj) (app : App) (idx : Z) (q : list App) :
  MLFQ_wf o -> dict_get app (app_queue o) = Some idx ->
  nth_error (queues o) (Z.to_nat idx) = Some q ->
  let o' := with_queues o (list_update (queues o) (Z.to_nat idx) (list_remove app q)) in
  MLFQ_wf o' /\ unqueued app o'.
Proof.
  intros Hwf G N o'.
  assert (Hnd : NoDup (map id q)).
  { destruct Hwf as (_ & _ & _ & _ & _ & _ & H7). rewrite Forall_forall in H7.
    apply H7. eapply nth_error_In. exact N. }
  assert (Hwf' : MLFQ_wf o').
  { apply (MLFQ_wf_shrink o _ q); auto.
    - intros b. apply list_mem_remove_comp.
    - apply NoDup_list_remove. exact Hnd. }
  split; [exact Hwf'|].
  apply (tracked_elsewhere_unqueued o' app idx (list_remove app q) Hwf' G).
  - unfold o', with_queues. cbn [queues].
    apply (nth_error_list_update_same _ _ _ _ N).
  - apply list_mem_remove_same. exact Hnd.
Qed.

Lemma MLFQ_wf_untrack (o : MLFQObj) (app : App) :
  MLFQ_wf o -> unqueued app o ->
  MLFQ_wf (with_app_queue o (dict_del app (app_queue o))).
Proof.
  intros (H1 & H2 & H3 & H4 & H5 & H6 & H7) Hu.
  unfold MLFQ_wf, with_app_queue. cbn [num_queues queues time_slices app_queue].
  split; [exact H1|]. split; [exact H2|]. split; [exact H3|].
  split; [apply dict_ok_del; exact H4|]. split; [|split; [|exact H7]].
  - intros b i. rewrite dict_get_del. destruct (App_eqb b app); [discriminate|]. apply H5.
  - intros k q b N M. rewrite dict_get_del. destruct (App_eqb b app) eqn:E.
    + unfold list_mem in M. rewrite (existsb_pointwise _ (App_eqb app)) in M
        by (intros x; apply App_eqb_congr; exact E).
      fold (list_mem app q) in M. rewrite (Hu k q N) in M. discriminate.
    + apply (H6 k q b N M).
Qed.

Lemma MLFQ_wf_enqueue (o : MLFQObj) (app : App) (i : Z) (q : list App) :
  MLFQ_wf o -> unqueued app o -> 0 <= i < num_queues o ->
  nth_error (queues o) (Z.to_nat i) = Some q ->
  MLFQ_wf (with_app_queue
             (with_queues o (list_update (queues o) (Z.to_nat i) (q ++ [app])))
             (dict_set app i (app_queue o))).
Proof.
  intros (H1 & H2 & H3 & H4 & H5 & H6 & H7) Hu Hi N.
  unfold MLFQ_wf, with_app_queue, with_queues.
  cbn [num_queues queues time_slices app_queue].
  split; [exact H1|]. split; [rewrite length_list_update; exact H2|].
  split; [exact H3|]. split; [apply dict_ok_set; exact H4|]. split; [|split].
  - intros b j. rewrite dict_get_set. destruct (App_eqb b app).
    + intros X. injection X as <-. exact Hi.
    + apply H5.
  - intros k qk b Nk Mb. rewrite dict_get_set.
    destruct (Nat.eq_dec k (Z.to_nat i)) as [->|Hk].
    + rewrite (nth_error_list_update_same _ _ _ _ N) in Nk. injection Nk as <-.
      rewrite Z2Nat.id by lia.
      destruct (App_eqb b app) eqn:E; [reflexivity|].
      rewrite list_mem_app, E, orb_false_r in Mb.
      rewrite (H6 _ q b N Mb). rewrite Z2Nat.id by lia. reflexivity.
    + rewrite (nth_error_list_update_other _ _ _ _ Hk) in Nk.
      destruct (App_eqb b app) eqn:E; [|apply (H6 k qk b Nk Mb)].
      unfold list_mem in Mb. rewrite (existsb_pointwise _ (App_eqb app)) in Mb
        by (intros x; apply App_eqb_congr; exact E).
      fold (list_mem app qk) in Mb. rewrite (Hu k qk Nk) in Mb. discriminate.
  - apply Forall_list_update; [exact H7|].
    apply NoDup_append_id; [|apply (Hu _ q N)].
    rewrite Forall_forall in H7. apply H7. eapply nth_error_In. exact N.
Qed.

Lemma MLFQ_wf_pop (o : MLFQObj) (k : nat) (app : App) (q' : list App) :
  MLFQ_wf o -> nth_error (queues o) k = Some (app :: q') ->
  let o' := with_queues o (list_update (queues o) k q') in
  MLFQ_wf o' /\ unqueued app o' /\ dict_get app (app_queue o) = Some (Z.of_nat k).
Proof.
  intros Hwf N o'.
  assert (Hnd : NoDup (map id (app :: q'))).
  { destruct Hwf as (_ & _ & _ & _ & _ & _ & H7). rewrite Forall_forall in H7.
    apply H7. eapply nth_error_In. exact N. }
  simpl in Hnd. inversion Hnd as [|? ? Hn Hq]; subst.
  assert (G : dict_get app (app_queue o) = Some (Z.of_nat k)).
  { destruct Hwf as (_ & _ & _ & _ & _ & H6 & _). apply (H6 k (app :: q') app N).
    unfold list_mem. simpl. rewrite App_eqb_refl. reflexivity. }
  assert (Hwf' : MLFQ_wf o').
  { apply (MLFQ_wf_shrink o k (app :: q')); auto.
    intros b Mb. unfold list_mem in *. simpl. rewrite Mb. apply orb_true_r. }
  split; [exact Hwf'|]. split; [|exact G].
  apply (tracked_elsewhere_unqueued o' app (Z.of_nat k) q' Hwf' G).
  - unfold o', with_queues. cbn [queues]. rewrite Nat2Z.id.
    apply (nth_error_list_update_same _ _ _ _ N).
  - apply not_true_is_false. intros M. apply Hn. apply list_mem_In. exact M.
Qed.

(** *** The operations on the queue object, as weakest preconditions *)

Section MLFQ_WP.

Variable E : Mem MLFQObj -> Prop.

Lemma wp_queue_at i (Q : list App -> Mem MLFQObj -> Prop) m :
  match py_index (queues (self m)) i with Some q => Q q m | None => E m end ->
  wp (queue_at i) Q E m.
Proof.
  unfold wp, queue_at, bind, get_self, ret, raise.
  destruct (py_index (queues (self m)) i); auto.
Qed.

Lemma wp_queue_store i q (Q : unit -> Mem MLFQObj -> Prop) m :
  match py_pos (queues (self m)) i with
  | Some k => Q tt (mkMem (with_queues (self m) (list_update (queues (self m)) k q)) (run m))
  | None => E m
  end ->
  wp (queue_store i q) Q E m.
Proof.
  unfold wp, queue_store, set_queues, bind, get_self, set_self, raise.
  destruct (py_pos (queues (self m)) i); auto.
Qed.

Lemma wp_app_queue_get app (Q : Z -> Mem MLFQObj -> Prop) m :
  match dict_get app (app_queue (self m)) with Some i => Q i m | None => E m end ->
  wp (app_queue_get app) Q E m.
Proof.
  unfold wp, app_queue_get, bind, get_self, ret, raise.
  destruct (dict_get app (app_queue (self m))); auto.
Qed.

Lemma wp_app_queue_set app i (Q : unit -> Mem MLFQObj -> Prop) m :
  Q tt (mkMem (with_app_queue (self m) (dict_set app i (app_queue (self m)))) (run m)) ->
  wp (app_queue_set app i) Q E m.
Proof. intros H. exact H. Qed.

Lemma wp_app_queue_del app (Q : unit -> Mem MLFQObj -> Prop) m :
  (if dict_mem app (app_queue (self m))
   then Q tt (mkMem (with_app_queue (self m) (dict_del app (app_queue (self m)))) (run m))
   else E m) ->
  wp (app_queue_del app) Q E m.
Proof.
  unfold wp, app_queue_del, set_app_queue, bind, get_self, set_self, raise.
  destruct (dict_mem app (app_queue (self m))); auto.
Qed.

Lemma wp_time_slice_at i (Q : Z -> Mem MLFQObj -> Prop) m :
  match py_index (time_slices (self m)) i with Some ts => Q ts m | None => E m end ->
  wp (time_slice_at i) Q E m.
Proof.
  unfold wp, time_slice_at, bind, get_self, ret, raise.
  destruct (py_index (time_slices (self m)) i); auto.
Qed.

End MLFQ_WP.

(** *** The three loops keep the object consistent and do not raise *)

Lemma MLFQ_wf_index (o : MLFQObj) (i : Z) :
  MLFQ_wf o -> 0 <= i < num_queues o -> 0 <= i < Z.of_nat (length (queues o)).
Proof. intros (_ & H2 & _) H. rewrite H2. exact H. Qed.

Lemma MLFQ_wf_tracked_index (o : MLFQObj) (app : App) (idx : Z) :
  MLFQ_wf o -> dict_get app (app_queue o) = Some idx ->
  0 <= idx < Z.of_nat (length (queues o)).
Proof.
  intros Hwf G. apply MLFQ_wf_index; [exact Hwf|].
  destruct Hwf as (_ & _ & _ & _ & H5 & _). apply (H5 app idx G).
Qed.

Lemma MLFQ_purge_wf (app : App) (m : Mem MLFQObj) :
  MLFQ_wf (self m) -> dict_mem app (app_queue (self m)) = true ->
  wp (MLFQ_purge app)
     (fun _ m' =>
        MLFQ_wf (self m') /\ run m' = run m /\
        forall b, App_eqb b app = false ->
          dict_mem b (app_queue (self m')) = dict_mem b (app_queue (self m)))
     (fun _ => False) m.
Proof.
  intros Hwf Ht. unfold MLFQ_purge. apply wp_bind, wp_get_running.
  destruct (dict_mem app (run m)); cbn [negb].
  - apply wp_ret. auto.
  - apply wp_bind, wp_app_queue_get.
    pose proof Ht as Ht'. apply dict_mem_true in Ht'. destruct Ht' as [idx G]. rewrite G.
    pose proof (MLFQ_wf_tracked_index _ _ _ Hwf G) as Hidx.
    destruct (py_index_valid _ _ Hidx) as (q & Pq & Nq).
    apply wp_bind, wp_queue_at. rewrite Pq. apply wp_bind.
    destruct (list_mem app q) eqn:Mq.
    + apply wp_queue_store. rewrite (py_pos_valid _ _ Hidx).
      destruct (MLFQ_wf_remove _ _ _ _ Hwf G Nq) as [Hwf' Hu].
      apply wp_app_queue_del. cbn [self run with_queues app_queue]. rewrite Ht.
      split; [apply (MLFQ_wf_untrack _ app Hwf' Hu)|]. split; [reflexivity|].
      intros b Hb. cbn [with_app_queue app_queue]. rewrite dict_mem_del, Hb. reflexivity.
    + apply wp_ret. apply wp_app_queue_del. rewrite Ht.
      pose proof (tracked_elsewhere_unqueued _ _ _ _ Hwf G Nq Mq) as Hu.
      split; [apply (MLFQ_wf_untrack _ app Hwf Hu)|]. split; [reflexivity|].
      intros b Hb. cbn [self with_app_queue app_queue]. rewrite dict_mem_del, Hb. reflexivity.
Qed.

Lemma MLFQ_purge_all (r : RDict) :
  forall l m,
    NoDup (map id l) -> MLFQ_wf (self m) -> run m = r ->
    (forall x, In x l -> dict_mem x (app_queue (self m)) = true) ->
    wp (for_each l MLFQ_purge) (fun _ m' => MLFQ_wf (self m') /\ run m' = r)
       (fun _ => False) m.
Proof.
  induction l as [|x l IH]; intros m Hnd Hwf Hr Ht; simpl.
  - apply wp_ret. auto.
  - inversion Hnd as [|? ? Hx Hl]; subst.
    apply wp_bind. eapply wp_mono; [| |apply MLFQ_purge_wf; [exact Hwf|apply Ht; simpl; auto]];
      [|auto].
    intros u m' (Hwf' & Hr' & Hkeep). apply IH; [exact Hl|exact Hwf'|exact Hr'|].
    intros y Hy. rewrite Hkeep; [apply Ht; simpl; auto|].
    apply App_eqb_neq. intros Eid. apply Hx. rewrite <- Eid. apply in_map. exact Hy.
Qed.

Lemma MLFQ_enrol_wf (r : RDict) (app : App) (m : Mem MLFQObj) :
  MLFQ_wf (self m) /\ run m = r ->
  wp (MLFQ_enrol app) (fun _ m' => MLFQ_wf (self m') /\ run m' = r) (fun _ => False) m.
Proof.
  intros [Hwf Hr]. unfold MLFQ_enrol. apply wp_bind, wp_get_self.
  destruct (dict_mem app (app_queue (self m))) eqn:Mt; cbn [negb].
  - apply wp_ret. auto.
  - assert (H0 : 0 <= 0 < num_queues (self m)) by (destruct Hwf as (H1 & _); lia).
    pose proof (MLFQ_wf_index _ _ Hwf H0) as Hidx.
    destruct (py_index_valid _ _ Hidx) as (q & Pq & Nq).
    apply wp_bind. unfold queue_append. apply wp_bind, wp_queue_at. rewrite Pq.
    apply wp_queue_store. rewrite (py_pos_valid _ _ Hidx).
    apply wp_app_queue_set. cbn [self run with_queues app_queue].
    split; [|exact Hr].
    apply (MLFQ_wf_enqueue (self m) app 0 q Hwf (untracked_unqueued _ _ Hwf Mt) H0 Nq).
Qed.

Lemma MLFQ_service_wf :
  forall levels m,
    MLFQ_wf (self m) ->
    (forall i, In i levels -> 0 <= i < num_queues (self m)) ->
    wp (MLFQ_service levels) (fun _ m' => MLFQ_wf (self m')) (fun _ => False) m.
Proof.
  induction levels as [|i rest IH]; intros m Hwf Hlv; simpl.
  - apply wp_ret. exact Hwf.
  - assert (Hi : 0 <= i < num_queues (self m)) by (apply Hlv; simpl; auto).
    pose proof (MLFQ_wf_index _ _ Hwf Hi) as Hidx.
    destruct (py_index_valid _ _ Hidx) as (q & Pq & Nq).
    apply wp_bind, wp_queue_at. rewrite Pq.
    destruct q as [|app q'].
    + apply IH; [exact Hwf|]. intros j Hj. apply Hlv. simpl. auto.
    + apply wp_bind, wp_queue_store. rewrite (py_pos_valid _ _ Hidx).
      destruct (MLFQ_wf_pop _ _ _ _ Hwf Nq) as (Hwf1 & Hu1 & G).
      set (o1 := with_queues (self m) (list_update (queues (self m)) (Z.to_nat i) q')) in *.
      apply wp_bind, wp_get_running. cbn [run].
      destruct (dict_mem app (run m)) eqn:Mr; [|apply wp_ret; exact Hwf1].
      assert (Hts : 0 <= i < Z.of_nat (length (time_slices o1))).
      { destruct Hwf as (_ & _ & H3 & _). unfold o1, with_queues. cbn [time_slices]. lia. }
      destruct (py_index_valid _ _ Hts) as (ts & Pts & _).
      apply wp_bind, wp_time_slice_at. cbn [self]. rewrite Pts.
      apply wp_bind, wp_credit. cbn [run self].
      apply dict_mem_true in Mr. destruct Mr as [v Gv]. rewrite Gv.
      apply wp_bind, wp_getitem. cbn [run]. rewrite dict_get_set, App_eqb_refl.
      cbn [snd].
      assert (Hnext : 0 <= Z.min (i + 1) (num_queues o1 - 1) < num_queues o1).
      { destruct Hwf1 as (H1 & _). unfold o1, with_queues in *. cbn [num_queues] in *. lia. }
      destruct (Fraction.ltb _ (Fraction.of_int 1)).
      * apply wp_bind, wp_get_self. cbn [self].
        pose proof (MLFQ_wf_index _ _ Hwf1 Hnext) as Hnidx.
        destruct (py_index_valid _ _ Hnidx) as (q2 & Pq2 & Nq2).
        apply wp_bind. unfold queue_append. apply wp_bind, wp_queue_at. cbn [self].
        rewrite Pq2. apply wp_queue_store. cbn [self]. rewrite (py_pos_valid _ _ Hnidx).
        apply wp_app_queue_set. cbn [self run with_queues app_queue].
        apply (MLFQ_wf_enqueue o1 app _ q2 Hwf1 Hu1 Hnext Nq2).
      * apply wp_app_queue_del. cbn [self run].
        assert (Mt : dict_mem app (app_queue o1) = true).
        { unfold o1, with_queues. cbn [app_queue]. apply dict_mem_true. eauto. }
        rewrite Mt. apply (MLFQ_wf_untrack o1 app Hwf1 Hu1).
Qed.

(** A consistent multilevel queue serves any [running] without raising,
    and stays consistent. *)
Lemma MultilevelFeedbackQueue_wf (time : Z) (m : Mem MLFQObj) :
  MLFQ_wf (self m) ->
  wp (MultilevelFeedbackQueue_addProgress time) (fun _ m' => MLFQ_wf (self m'))
     (fun _ => False) m.
Proof.
  intros Hwf. unfold MultilevelFeedbackQueue_addProgress. apply wp_bind, wp_get_running.
  destruct (dict_is_empty (run m)); [apply wp_ret; exact Hwf|].
  apply wp_bind, wp_get_self, wp_bind.
  eapply wp_mono; [| |apply (MLFQ_purge_all (run m))]; [|auto| | | |].
  - intros u m1 [Hwf1 Hr1]. apply wp_bind, wp_get_running, wp_bind.
    eapply wp_mono;
      [| |apply (wp_for_each _ _ (fun m' => MLFQ_wf (self m') /\ run m' = run m)
                   (fun _ => False))]; [|auto| |].
    + intros u' m2 [Hwf2 _]. apply wp_bind, wp_get_self.
      apply MLFQ_service_wf; [exact Hwf2|]. intros i. apply py_range_In.
    + intros app m2 _ Hm2. apply MLFQ_enrol_wf. exact Hm2.
    + auto.
  - destruct Hwf as (_ & _ & _ & H4 & _). exact H4.
  - exact Hwf.
  - reflexivity.
  - intros x Hx. apply dict_mem_true. apply In_keys_get. exact Hx.
Qed.

Lemma MultilevelFeedbackQueue_init_wf (n : Z) (ts : list Z) :
  1 <= n <= Z.of_nat (length ts) ->
  match MultilevelFeedbackQueue_init n ts with
  | MultilevelFeedbackQueue o => MLFQ_wf o
  | _ => False
  end.
Proof.
  intros [Lo Hi]. unfold MultilevelFeedbackQueue_init, MLFQ_wf.
  cbn [num_queues queues time_slices app_queue].
  split; [exact Lo|]. split.
  { unfold py_range. rewrite !length_map, length_seq. lia. }
  split; [exact Hi|]. split; [constructor|]. split; [intros app i; discriminate|]. split.
  - intros k q app N M. apply nth_error_In in N. apply in_map_iff in N.
    destruct N as (x & <- & _). discriminate M.
  - apply Forall_forall. intros q Hq. apply in_map_iff in Hq.
    destruct Hq as (x & <- & _). constructor.
Qed.

Lemma tick_MultilevelFeedbackQueue_total (o : MLFQObj) (s : Spark) (t : Z) :
  MLFQ_wf o ->
  exists o' s',
    tick (MultilevelFeedbackQueue o) s t = Ok (MultilevelFeedbackQueue o', s') /\
    MLFQ_wf o'.
Proof.
  intros Hwf. unfold tick. destruct (dict_is_empty (running s)); [eauto|].
  unfold addProgress, lift.
  destruct (exec_wp_total (MultilevelFeedbackQueue_addProgress t) o (running s)
              (fun m => MLFQ_wf (self m))) as (o' & r' & X & Hwf').
  { apply MultilevelFeedbackQueue_wf. exact Hwf. }
  rewrite X. eauto.
Qed.

(** ** The exploration returns under a scheduler that is set up *)

Lemma simulate_returns (str_hash : string -> Z) (set_iter : list Spark -> list Spark) :
  (forall l, Permutation (set_iter l) l) ->
  forall sched initial apps steps,
    returns_on sched initial apps ->
    exists states, simulate str_hash set_iter sched initial apps steps = Ok states.
Proof.
  intros Hperm sched initial apps steps H.
  assert (Hplain : never_raises sched = true ->
            exists states, simulate str_hash set_iter sched initial apps steps = Ok states).
  { intros Hn.
    apply (simulate_total str_hash set_iter Hperm apps
             (fun sc => never_raises sc = true) (fun _ => True)); auto.
    intros sc s t Hsc _. destruct (tick_never_raises sc s t Hsc) as (sc' & s' & T & Hsc').
    eauto. }
  destruct sched as [| | | |o| | |priorities|o]; try (apply Hplain; reflexivity);
    simpl in H.
  - apply (simulate_total str_hash set_iter Hperm apps
             (fun sc => sc = PriorityScheduler priorities)
             (fun s => forall a, In a (dict_keys (running s)) ->
                                 dict_get a priorities <> None)).
    + intros s app t Hin Hp a Ha. apply schedule_running_keys in Ha.
      destruct Ha as [->|Ha]; [apply H; right; exact Hin|apply Hp; exact Ha].
    + intros sc s t -> Hp.
      destruct (tick_PriorityScheduler_total priorities s t Hp) as [s' T].
      exists (PriorityScheduler priorities), s'. split; [exact T|]. split; [reflexivity|].
      intros a Ha. apply Hp. eapply tick_running_keys; eauto.
    + reflexivity.
    + intros a Ha. apply H. left. exact Ha.
  - apply (simulate_total str_hash set_iter Hperm apps
             (fun sc => exists o', sc = MultilevelFeedbackQueue o' /\ MLFQ_wf o')
             (fun _ => True)); eauto.
    intros sc s t (o' & -> & Hwf) _.
    destruct (tick_MultilevelFeedbackQueue_total o' s t Hwf) as (o2 & s' & T & Hwf2).
    eauto 8.
Qed.

(** ** The divisions of [computeMetrics] *)

Lemma py_truediv_defined (x : Q) (n : nat) :
  n <> O -> py_truediv x (Z.of_nat n) = Ok (x / inject_Z (Z.of_nat n))%Q.
Proof.
  intros Hn. unfold py_truediv.
  destruct (Z.of_nat n =? 0) eqn:E; [apply Z.eqb_eq in E; lia|reflexivity].
Qed.

Lemma length_nonzero {A : Type} (l : list A) : l <> [] -> length l <> O.
Proof. destruct l; simpl; congruence. Qed.

Lemma share_defined (f : Spark -> bool) (states : list Spark) :
  states <> [] -> exists pct, share f states = Ok pct.
Proof.
  intros H. unfold share.
  rewrite (py_truediv_defined _ _ (length_nonzero _ H)). eauto.
Qed.

Lemma error_loop_defined (entries : EDict) :
  Forall (fun e => deadline (fst e) <> 0) entries ->
  forall eA eD, exists p, error_loop entries eA eD = Ok p.
Proof.
  induction 1 as [|[app v] rest Hd _ IH]; intros eA eD; simpl; [eauto|].
  simpl in Hd. apply Z.eqb_neq in Hd. rewrite Hd.
  destruct (Fraction.ltb _ _); apply IH.
Qed.

Lemma error_defined (s : Spark) (apps : list App) :
  Forall (fun e => deadline (fst e) <> 0) (ended s) ->
  exists p, error s apps = Ok p.
Proof.
  intros H. unfold error.
  destruct (error_loop_defined _ H (Fraction.of_int 0) (Fraction.of_int 0)) as [[eA eD] X].
  rewrite X. destruct (0 <? Z.of_nat (length apps)); eauto.
Qed.

Lemma sum_errors_defined (proj : Q * Q -> Q) (states : list Spark) (apps : list App) :
  Forall (fun s => Forall (fun e => deadline (fst e) <> 0) (ended s)) states ->
  exists x, sum_errors proj states apps = Ok x.
Proof.
  induction 1 as [|s rest Hs _ IH]; simpl; [eauto|].
  destruct (error_defined s apps Hs) as [p X]. rewrite X.
  destruct IH as [x Y]. rewrite Y. eauto.
Qed.

(** With a non-empty state set and jobs of non-zero deadline,
    [computeMetrics] returns. *)
Lemma computeMetrics_defined (states : list Spark) (apps : list App) (steps : Z) :
  states <> [] ->
  Forall (fun s => Forall (fun e => deadline (fst e) <> 0) (ended s)) states ->
  exists m, computeMetrics states apps steps = Ok m.
Proof.
  intros Hne Hd. unfold computeMetrics.
  destruct (sum_errors_defined fst states apps Hd) as [sA XA]. rewrite XA. cbn [and_then].
  rewrite (py_truediv_defined _ _ (length_nonzero _ Hne)). cbn [and_then].
  destruct (sum_errors_defined snd states apps Hd) as [sD XD]. rewrite XD. cbn [and_then].
  rewrite (py_truediv_defined _ _ (length_nonzero _ Hne)). cbn [and_then].
  destruct (share_defined (fun s => computeViolations s apps steps) states Hne) as [v Xv].
  rewrite Xv. cbn [and_then].
  destruct (share_defined (fun s => computeScenarioViolations s apps steps) states Hne)
    as [sv Xsv].
  rewrite Xsv. cbn [and_then].
  destruct (share_defined (fun s => computeUnfeasibility s apps steps) states Hne) as [u Xu].
  rewrite Xu. cbn [and_then].
  destruct (share_defined (fun s => computeNonViolations s apps steps) states Hne) as [nv Xnv].
  rewrite Xnv. cbn [and_then]. eauto.
Qed.

(** C10. [nextStates(apps, s, t)] contains [s] (for a state whose
    dictionaries are well formed), whatever the string hash is.  Hence
    the set [simulate] returns is never empty: every division by the
    size of that set in [computeMetrics] is defined, and
    [computeMetrics] itself returns when no ended job has deadline 0
    (the one other divisor it has).  [simulate] does return under each
    of the nine policies once the policy is set up ([returns_on]: a
    priority for every job, a consistent multilevel queue); when it does
    not, it passes on an error that some call of [addProgress] raised. *)
Theorem state_set_never_empty (str_hash : string -> Z)
    (set_iter : list Spark -> list Spark) :
  (forall l, Permutation (set_iter l) l) ->
  (forall apps s t,
     Spark_ok s -> set_mem str_hash s (nextStates str_hash apps s t) = true) /\
  (forall sched initial apps steps,
     match simulate str_hash set_iter sched initial apps steps with
     | Ok states =>
         states <> [] /\
         (forall x, py_truediv x (Z.of_nat (length states))
                    = Ok (x / inject_Z (Z.of_nat (length states)))%Q) /\
         (forall f, exists pct, share f states = Ok pct) /\
         (Forall (fun s => Forall (fun e => deadline (fst e) <> 0) (ended s)) states ->
          exists m, computeMetrics states apps steps = Ok m)
     | Raise e =>
         ~ returns_on sched initial apps /\
         exists sched1 running1 t sched2 running2,
           addProgress sched1 running1 t = (sched2, running2, Raise e)
     end) /\
  (forall sched initial apps steps,
     returns_on sched initial apps ->
     exists states,
       simulate str_hash set_iter sched initial apps steps = Ok states /\ states <> []).
Proof.
  intros Hperm.
  assert (Hne : forall sched initial apps steps states,
             simulate str_hash set_iter sched initial apps steps = Ok states ->
             states <> []).
  { intros sched initial apps steps states. unfold simulate.
    destruct (simulate_loop _ _ _ _ _ _) as [[sched' final]|e] eqn:L; [|discriminate].
    intros X. injection X as <-.
    eapply (simulate_loop_nonempty str_hash set_iter Hperm); [|exact L]. discriminate. }
  split; [|split].
  - intros apps s t. apply nextStates_mem.
  - intros sched initial apps steps.
    destruct (simulate str_hash set_iter sched initial apps steps) as [states|e] eqn:S.
    + pose proof (Hne _ _ _ _ _ S) as Hs. split; [exact Hs|]. split; [|split].
      * intros x. apply py_truediv_defined. apply length_nonzero. exact Hs.
      * intros f. apply share_defined. exact Hs.
      * apply computeMetrics_defined. exact Hs.
    + split.
      * intros Hret.
        destruct (simulate_returns str_hash set_iter Hperm sched initial apps steps Hret)
          as [states X].
        congruence.
      * unfold simulate in S.
        destruct (simulate_loop _ _ _ _ _ _) as [[sched' final]|e'] eqn:L; [discriminate|].
        injection S as ->.
        apply (simulate_loop_raise_origin str_hash set_iter _ _ _ _ _ L).
  - intros sched initial apps steps Hret.
    destruct (simulate_returns str_hash set_iter Hperm sched initial apps steps Hret)
      as [states X].
    exists states. split; [exact X|]. eapply Hne. exact X.
Qed.

Lemma state_set_never_empty_witness :
  let j1 := mkApp 1 2 2 in
  let j2 := mkApp 2 1 1 in
  let seed := mkSpark [(j1, (1, 0%Q))] [] in
  let sched := MultilevelFeedbackQueue_init 3 [10; 20; 30] in
  (forall l : list Spark, Permutation l l) /\
  returns_on sched seed [j1; j2] /\
  exists states,
    simulate (fun _ => 0) (fun l => l) sched seed [j1; j2] 3 = Ok states /\
    states <> [].
Proof.
  cbv zeta.
  assert (Hperm : forall l : list Spark, Permutation ((fun l => l) l) l)
    by (intros l; apply Permutation_refl).
  assert (Hret : returns_on (MultilevelFeedbackQueue_init 3 [10; 20; 30])
                   (mkSpark [(mkApp 1 2 2, (1, 0%Q))] []) [mkApp 1 2 2; mkApp 2 1 1]).
  { apply (MultilevelFeedbackQueue_init_wf 3 [10; 20; 30]). simpl. lia. }
  split; [exact Hperm|]. split; [exact Hret|].
  exact (proj2 (proj2 (state_set_never_empty (fun _ => 0) (fun l => l) Hperm))
           _ _ _ 3 Hret).
Defined.

(** ** Scenarios *)

Lemma Spark_ok_small (r : RDict) (e : EDict) :
  (length r <= 1)%nat -> (length e <= 1)%nat -> Spark_ok (mkSpark r e).
Proof.
  intros Hr He. split; unfold dict_ok; simpl.
  - destruct r as [|x [|y r]]; simpl in *; [constructor| |lia].
    constructor; [intros []|constructor].
  - destruct e as [|x [|y e]]; simpl in *; [constructor| |lia].
    constructor; [intros []|constructor].
Qed.

(** Scenario A: one job of duration 2 seeded as running with submission
    time 1, FIFO, horizon 3.  The ticks at times 0 and 1 already serve
    the job, so the exploration ends in the single state in which the job
    ended at time 1. *)
Lemma scenario_A_run (str_hash : string -> Z) (set_iter : list Spark -> list Spark) :
  (forall l, Permutation (set_iter l) l) ->
  let job1 := mkApp 1 2 2 in
  simulate str_hash set_iter FIFO (mkSpark [(job1, (1, 0%Q))] []) [job1] 3
  = Ok [mkSpark [] [(job1, (1, 1))]].
Proof.
  intros Hperm job1. unfold simulate.
  change (py_range (3 + 1)) with [0; 1; 2; 3].
  rewrite (simulate_loop_single str_hash set_iter Hperm [job1] FIFO FIFO
             _ (mkSpark [(job1, (1, 1 # 2))] []) 0);
    [|reflexivity|apply Spark_ok_small; simpl; lia|repeat constructor].
  rewrite (simulate_loop_single str_hash set_iter Hperm [job1] FIFO FIFO
             _ (mkSpark [] [(job1, (1, 1))]) 1);
    [|reflexivity|apply Spark_ok_small; simpl; lia|repeat constructor].
  rewrite (simulate_loop_single str_hash set_iter Hperm [job1] FIFO FIFO
             _ (mkSpark [] [(job1, (1, 1))]) 2);
    [|reflexivity|apply Spark_ok_small; simpl; lia|repeat constructor].
  rewrite (simulate_loop_single str_hash set_iter Hperm [job1] FIFO FIFO
             _ (mkSpark [] [(job1, (1, 1))]) 3);
    [|reflexivity|apply Spark_ok_small; simpl; lia|repeat constructor].
  reflexivity.
Qed.

(** Scenario B without a seed: nothing ever arrives. *)
Lemma scenario_B_run (str_hash : string -> Z) (set_iter : list Spark -> list Spark) :
  (forall l, Permutation (set_iter l) l) ->
  simulate str_hash set_iter Fair (mkSpark [] []) [mkApp 1 1 1; mkApp 2 1 1] 2
  = Ok [mkSpark [] []].
Proof.
  intros Hperm. unfold simulate.
  change (py_range (2 + 1)) with [0; 1; 2].
  rewrite !(simulate_loop_single str_hash set_iter Hperm _ Fair Fair
              (mkSpark [] []) (mkSpark [] []));
    try reflexivity; try (apply Spark_ok_small; simpl; lia); repeat constructor.
Qed.

(** C2, as the code has it: in scenario A (one job with id 1, duration 2
    and deadline 2, FIFO, horizon 3, the job seeded as running with
    submission time 1 and progress 0) [simulate] returns exactly one
    terminal state, with nothing running and [ended = {job1: (1, 1)}]:
    the two full-rate ticks are those of times 0 and 1.  The state has no
    deadline violation. *)
Theorem scenario_A (str_hash : string -> Z) (set_iter : list Spark -> list Spark) :
  (forall l, Permutation (set_iter l) l) ->
  let job1 := mkApp 1 2 2 in
  let final := mkSpark [] [(job1, (1, 1))] in
  simulate str_hash set_iter FIFO (mkSpark [(job1, (1, 0%Q))] []) [job1] 3 = Ok [final] /\
  computeViolations final [job1] 3 = false.
Proof.
  intros Hperm job1 final. split; [|reflexivity].
  apply scenario_A_run. exact Hperm.
Qed.

Lemma scenario_A_witness :
  let job1 := mkApp 1 2 2 in
  let final := mkSpark [] [(job1, (1, 1))] in
  (forall l : list Spark, Permutation l l) /\
  simulate (fun _ => 0) (fun l => l) FIFO (mkSpark [(job1, (1, 0%Q))] []) [job1] 3
    = Ok [final] /\
  computeViolations final [job1] 3 = false.
Proof.
  cbv zeta.
  assert (Hperm : forall l : list Spark, Permutation ((fun l => l) l) l)
    by (intros l; apply Permutation_refl).
  split; [exact Hperm|].
  exact (scenario_A (fun _ => 0) (fun l => l) Hperm).
Defined.

(** C2 as stated fails: it is not the case that every terminal state of
    scenario A has [ended = {job1: (1, 3)}]. *)
Lemma scenario_A_not_at_3 :
  ~ (forall (str_hash : string -> Z) (set_iter : list Spark -> list Spark),
       (forall l, Permutation (set_iter l) l) ->
       let job1 := mkApp 1 2 2 in
       exists states,
         simulate str_hash set_iter FIFO (mkSpark [(job1, (1, 0%Q))] []) [job1] 3
           = Ok states /\
         states <> [] /\
         forall s, In s states -> dict_get job1 (ended s) = Some (1, 3)).
Proof.
  intros H.
  destruct (H (fun _ => 0) (fun l => l) (fun l => Permutation_refl l))
    as (states & X & _ & Hall).
  rewrite (scenario_A_run (fun _ => 0) (fun l => l) (fun l => Permutation_refl l)) in X.
  injection X as <-.
  specialize (Hall _ (or_introl eq_refl)). discriminate Hall.
Qed.

(** C1, as the code has it: [schedule] has no case for a first job.  A
    job that is absent, and whose id minus one is the id of no job of the
    state, is not scheduled, whatever its id: job 1 enters a state that
    has no job 0 only through the seed.  It is added at [(t, 0)] exactly
    when a job with id 0 is there.  So the exploration of two unit jobs
    from the empty state, horizon 2, policy Fair, ends in the empty state
    alone: no arrival is enumerated. *)
Theorem first_job_needs_predecessor (str_hash : string -> Z)
    (set_iter : list Spark -> list Spark) :
  (forall l, Permutation (set_iter l) l) ->
  (forall s job t, ~ id_in (id job - 1) s -> schedule s job t = s) /\
  (forall s job1 t, id job1 = 1 -> ~ id_in 1 s ->
     (id_in 0 s ->
      schedule s job1 t
        = mkSpark (running s ++ [(job1, (t, Fraction.of_int 0))]) (ended s)) /\
     (~ id_in 0 s -> schedule s job1 t = s)) /\
  simulate str_hash set_iter Fair (mkSpark [] []) [mkApp 1 1 1; mkApp 2 1 1] 2
    = Ok [mkSpark [] []].
Proof.
  intros Hperm. split; [|split].
  - intros s job t H. apply schedule_unchanged. right. exact H.
  - intros s job1 t Hid Habs. split.
    + intros H0. apply schedule_added; rewrite Hid; assumption.
    + intros H0. apply schedule_unchanged. right. rewrite Hid. exact H0.
  - apply scenario_B_run. exact Hperm.
Qed.

Lemma first_job_needs_predecessor_witness :
  let job1 := mkApp 1 1 1 in
  let job2 := mkApp 2 1 1 in
  (forall l : list Spark, Permutation l l) /\
  schedule (mkSpark [] []) job1 0 = mkSpark [] [] /\
  simulate (fun _ => 0) (fun l => l) Fair (mkSpark [] []) [job1; job2] 2
    = Ok [mkSpark [] []].
Proof.
  cbv zeta.
  assert (Hperm : forall l : list Spark, Permutation ((fun l => l) l) l)
    by (intros l; apply Permutation_refl).
  pose proof (first_job_needs_predecessor (fun _ => 0) (fun l => l) Hperm) as [H1 [_ H3]].
  split; [exact Hperm|]. split; [|exact H3].
  apply H1. intros (a & [] & _).
Defined.

(** C1 as stated fails: [schedule] does not add job 1 to every state
    that lacks it. *)
Lemma first_job_not_scheduled :
  ~ (forall (s : Spark) (job1 : App) (t : Z),
       id job1 = 1 -> ~ id_in 1 s ->
       dict_get job1 (running (schedule s job1 t)) = Some (t, Fraction.of_int 0)).
Proof.
  intros H.
  assert (Habs : ~ id_in 1 (mkSpark [] [])) by (intros (a & [] & _)).
  specialize (H (mkSpark [] []) (mkApp 1 1 1) 0 eq_refl Habs).
  discriminate H.
Qed.

(** ** The embedding at work *)

(** FIFO serves the job submitted first, here the second key. *)
Example FIFO_serves_earliest :
  addProgress FIFO [(mkApp 1 3 5, (2, 0%Q)); (mkApp 2 2 4, (1, 0%Q))] 0
  = (FIFO, [(mkApp 1 3 5, (2, 0%Q)); (mkApp 2 2 4, (1, 1 # 2))], Ok tt).
Proof. reflexivity. Qed.

(** On a tie [min] keeps the first key. *)
Example EDFPure_tie_first :
  addProgress EDFPure [(mkApp 1 3 5, (0, 0%Q)); (mkApp 2 2 5, (0, 0%Q))] 0
  = (EDFPure, [(mkApp 1 3 5, (0, 1 # 3)); (mkApp 2 2 5, (0, 0%Q))], Ok tt).
Proof. reflexivity. Qed.

(** Round robin moves its cursor at each call. *)
Example RoundRobin_cursor :
  let running := [(mkApp 1 30 50, (0, 0%Q)); (mkApp 2 20 40, (0, 0%Q))] in
  addProgress (RoundRobin_init 10) running 0
  = (RoundRobin (mkRoundRobin 10 0),
     [(mkApp 1 30 50, (0, 1 # 3)); (mkApp 2 20 40, (0, 0%Q))], Ok tt) /\
  addProgress (RoundRobin (mkRoundRobin 10 0)) running 1
  = (RoundRobin (mkRoundRobin 10 1),
     [(mkApp 1 30 50, (0, 0%Q)); (mkApp 2 20 40, (0, 1 # 2))], Ok tt).
Proof. split; reflexivity. Qed.

(** The multilevel queue serves the head of queue 0 and moves it down. *)
Example MultilevelFeedbackQueue_first_call :
  let a1 := mkApp 1 30 50 in
  let a2 := mkApp 2 20 40 in
  addProgress (MultilevelFeedbackQueue_init 3 [10; 20; 30])
              [(a1, (0, 0%Q)); (a2, (0, 0%Q))] 0
  = (MultilevelFeedbackQueue (mkMLFQ 3 [10; 20; 30] [[a2]; [a1]; []] [(a1, 1); (a2, 0)]),
     [(a1, (0, 1 # 3)); (a2, (0, 0%Q))], Ok tt).
Proof. reflexivity. Qed.

(** A multilevel queue built without queues fails on its first job. *)
Example MultilevelFeedbackQueue_no_queue :
  addProgress (MultilevelFeedbackQueue_init 0 []) [(mkApp 1 30 50, (0, 0%Q))] 0
  = (MultilevelFeedbackQueue_init 0 [], [(mkApp 1 30 50, (0, 0%Q))], Raise IndexError).
Proof. reflexivity. Qed.

(** Scenario B with job 1 seeded as running at time 0 (sets visited in
    insertion order): four terminal states, in each of which job 2, when
    it is there, was submitted no earlier than job 1. *)
Example scenario_B_seeded :
  let u1 := mkApp 1 1 1 in
  let u2 := mkApp 2 1 1 in
  simulate (fun _ => 0) (fun l => l) Fair (mkSpark [(u1, (0, 0%Q))] []) [u1; u2] 2
  = Ok [mkSpark [] [(u1, (0, 0)); (u2, (0, 1))];
        mkSpark [] [(u1, (0, 0)); (u2, (1, 2))];
        mkSpark [(u2, (2, 0%Q))] [(u1, (0, 0))];
        mkSpark [] [(u1, (0, 0))]].
Proof. reflexivity. Qed.

(** [repr] of a state, as [Spark.__repr__] prints it. *)
Example Spark_repr_sample :
  Spark_repr (mkSpark [(mkApp 2 1 1, (2, 1 # 2))] [(mkApp 1 1 1, (0, 1))])
  = "r:{app2: (2, Fraction(1, 2))}, e:{app1: (0, 1)}"%string.
Proof. reflexivity. Qed.

(** * Further properties of the policies, the states and the metrics *)

(** ** Which job a selecting policy serves *)

Section FirstBest.

Context {K : Type}.
Variable lt : K -> K -> bool.
Hypothesis lt_trans : forall x y z, lt x y = true -> lt y z = true -> lt x z = true.
Hypothesis lt_le_trans : forall x y z, lt x y = true -> lt z y = false -> lt x z = true.

(** The scan returns the first of the elements whose key is least. *)
Lemma select_opt_first (f : App -> option K) (l : list App) :
  (forall a, In a l -> f a <> None) ->
  forall best kbest, f best = Some kbest ->
    exists b kb l1 l2,
      select_opt lt f best kbest l = Some b /\ f b = Some kb /\
      best :: l = l1 ++ b :: l2 /\
      (forall a ka, In a l1 -> f a = Some ka -> lt kb ka = true) /\
      (forall a ka, In a l2 -> f a = Some ka -> lt ka kb = false).
Proof.
  induction l as [|a l IH]; intros Hf best kbest Hbest.
  - exists best, kbest, [], []. simpl. repeat split; auto; intros ? ? [].
  - simpl. destruct (f a) as [ka|] eqn:Ha.
    2:{ exfalso. apply (Hf a); [left; reflexivity | exact Ha]. }
    assert (Hf' : forall x, In x l -> f x <> None) by (intros x Hx; apply Hf; right; exact Hx).
    destruct (lt ka kbest) eqn:Hlt.
    + destruct (IH Hf' a ka Ha) as (b & kb & l1 & l2 & Hs & Hb & Hdec & H1 & H2).
      exists b, kb, (best :: l1), l2.
      split; [exact Hs|]. split; [exact Hb|].
      split; [simpl; rewrite Hdec; reflexivity|].
      split; [|exact H2].
      intros x kx [Hx|Hx] Hkx.
      * subst x. assert (kx = kbest) by congruence. subst kx.
        destruct l1 as [|y l1].
        -- simpl in Hdec. injection Hdec as Hab _. subst b.
           assert (kb = ka) by congruence. subst kb. exact Hlt.
        -- simpl in Hdec. injection Hdec as Hay _. subst y.
           apply lt_trans with ka; [|exact Hlt].
           apply (H1 a ka); [left; reflexivity | exact Ha].
      * apply (H1 x kx Hx Hkx).
    + destruct (IH Hf' best kbest Hbest) as (b & kb & l1 & l2 & Hs & Hb & Hdec & H1 & H2).
      destruct l1 as [|y l1].
      * simpl in Hdec. injection Hdec as Hbb Hl. subst b.
        assert (kb = kbest) by congruence. subst kb.
        exists best, kbest, [], (a :: l2).
        split; [exact Hs|]. split; [exact Hbest|].
        split; [simpl; rewrite Hl; reflexivity|].
        split; [intros ? ? []|].
        intros x kx [Hx|Hx] Hkx.
        -- subst x. assert (kx = ka) by congruence. subst kx. exact Hlt.
        -- apply (H2 x kx Hx Hkx).
      * simpl in Hdec. injection Hdec as Hy Hl. subst y.
        exists b, kb, (best :: a :: l1), l2.
        split; [exact Hs|]. split; [exact Hb|].
        split; [simpl; rewrite Hl; reflexivity|].
        split; [|exact H2].
        assert (Hkb : lt kb kbest = true)
          by (apply (H1 best kbest); [left; reflexivity | exact Hbest]).
        intros x kx [Hx|[Hx|Hx]] Hkx.
        -- subst x. assert (kx = kbest) by congruence. subst kx. exact Hkb.
        -- subst x. assert (kx = ka) by congruence. subst kx.
           apply lt_le_trans with kbest; assumption.
        -- apply (H1 x kx); [right; exact Hx | exact Hkx].
Qed.

(** A policy that serves the job [min] picks: when the key only reads
    the state, the call returns, and exactly the first job of least key
    is credited. *)
Lemma serve_least (key : App -> M unit K) (f : App -> option K) (running : RDict) :
  running <> [] ->
  (forall a, key a (mkMem tt running) = (mkMem tt running, lookup_result (f a))) ->
  (forall a, In a (dict_keys running) -> f a <> None) ->
  exists best kb l1 l2 sub p,
    dict_keys running = l1 ++ best :: l2 /\
    f best = Some kb /\
    (forall a ka, In a l1 -> f a = Some ka -> lt kb ka = true) /\
    (forall a ka, In a l2 -> f a = Some ka -> lt ka kb = false) /\
    dict_get best running = Some (sub, p) /\
    exec (first_app <- py_min lt key (dict_keys running) ;;
          credit first_app (nominalRate first_app)) tt running
    = (tt, dict_set best (sub, Fraction.add p (nominalRate best)) running, Ok tt).
Proof.
  intros Hne Hkey Hf.
  destruct running as [|[k0 v0] rest]; [congruence|].
  set (running := (k0, v0) :: rest) in *.
  destruct (f k0) as [kb0|] eqn:Hk0.
  2:{ exfalso. apply (Hf k0); [left; reflexivity | exact Hk0]. }
  destruct (select_opt_first f (dict_keys rest)
              (fun a Ha => Hf a (or_intror Ha)) k0 kb0 Hk0)
    as (b & kb & l1 & l2 & Hs & Hb & Hdec & H1 & H2).
  assert (Hin : In b (dict_keys running)).
  { change (dict_keys running) with (k0 :: dict_keys rest). rewrite Hdec.
    apply in_or_app. right. left. reflexivity. }
  destruct (In_keys_get _ _ Hin) as [[sub p] Hget].
  exists b, kb, l1, l2, sub, p.
  split; [exact Hdec|]. split; [exact Hb|]. split; [exact H1|]. split; [exact H2|].
  split; [exact Hget|].
  unfold exec, bind.
  change (dict_keys running) with (k0 :: dict_keys rest).
  unfold py_min, bind. rewrite Hkey, Hk0. cbn [lookup_result].
  rewrite (select_pure lt key f (mkMem tt running) Hkey), Hs. cbn [lookup_result].
  rewrite (credit_run b (nominalRate b) (mkMem tt running) (sub, p) Hget).
  reflexivity.
Qed.

End FirstBest.

Lemma Zltb_trans (x y z : Z) : (x <? y) = true -> (y <? z) = true -> (x <? z) = true.
Proof. rewrite !Z.ltb_lt. lia. Qed.

Lemma Zltb_le_trans (x y z : Z) : (x <? y) = true -> (z <? y) = false -> (x <? z) = true.
Proof. rewrite !Z.ltb_lt, Z.ltb_ge. lia. Qed.

Lemma Fraction_ltb_lt (x y : Q) : Fraction.ltb x y = true <-> (x < y)%Q.
Proof.
  unfold Fraction.ltb. rewrite negb_true_iff. split.
  - intros H. apply Qnot_le_lt. intros Hle. apply Qle_bool_iff in Hle. congruence.
  - intros H. destruct (Qle_bool y x) eqn:E; [|reflexivity].
    apply Qle_bool_iff in E. exfalso. exact (Qlt_not_le _ _ H E).
Qed.

Lemma Fraction_ltb_ge (x y : Q) : Fraction.ltb x y = false <-> (y <= x)%Q.
Proof.
  unfold Fraction.ltb. rewrite negb_false_iff. apply Qle_bool_iff.
Qed.

Lemma Fraction_ltb_trans (x y z : Q) :
  Fraction.ltb x y = true -> Fraction.ltb y z = true -> Fraction.ltb x z = true.
Proof. rewrite !Fraction_ltb_lt. apply Qlt_trans. Qed.

Lemma Fraction_ltb_le_trans (x y z : Q) :
  Fraction.ltb x y = true -> Fraction.ltb z y = false -> Fraction.ltb x z = true.
Proof. rewrite !Fraction_ltb_lt, Fraction_ltb_ge. apply Qlt_le_trans. Qed.

Lemma getitem_fst_pure (running : RDict) (a : App) :
  (v <- getitem a ;; ret (fst v)) (mkMem tt running)
  = (mkMem tt running, lookup_result (option_map fst (dict_get a running))).
Proof.
  unfold bind, getitem. cbn [run]. destruct (dict_get a running); reflexivity.
Qed.

Lemma laxity_pure (time : Z) (running : RDict) (a : App) :
  laxity time a (mkMem tt running)
  = (mkMem tt running,
     lookup_result (option_map (fun v => laxity_value time a (snd v)) (dict_get a running))).
Proof.
  unfold laxity, bind, getitem. cbn [run]. destruct (dict_get a running); reflexivity.
Qed.

Lemma nonempty_not_empty {V : Type} (d : dict V) : d <> [] -> dict_is_empty d = false.
Proof. destruct d; [congruence | reflexivity]. Qed.

(** X1. [FIFO.addProgress] on a non-empty dictionary returns without
    raising and credits exactly one job with its nominal rate: the job
    with the least submission time, and among several such the one that
    comes first in the dictionary.  Every job before it was submitted
    strictly later, every job after it not earlier. *)
Theorem FIFO_serves_first_submitted (running : RDict) (time : Z) :
  running <> [] ->
  exists best sub p l1 l2,
    dict_keys running = l1 ++ best :: l2 /\
    dict_get best running = Some (sub, p) /\
    (forall a sa pa, In a l1 -> dict_get a running = Some (sa, pa) -> sub < sa) /\
    (forall a sa pa, In a l2 -> dict_get a running = Some (sa, pa) -> sub <= sa) /\
    addProgress FIFO running time
    = (FIFO, dict_set best (sub, Fraction.add p (nominalRate best)) running, Ok tt).
Proof.
  intros Hne.
  destruct (serve_least Z.ltb Zltb_trans Zltb_le_trans
              (fun app => v <- getitem app ;; ret (fst v))
              (fun a => option_map fst (dict_get a running)) running Hne
              (getitem_fst_pure running))
    as (best & kb & l1 & l2 & sub & p & Hdec & Hkb & H1 & H2 & Hget & Hrun).
  { intros a Ha. destruct (In_keys_get _ _ Ha) as [v Hv]. rewrite Hv. discriminate. }
  rewrite Hget in Hkb. cbn in Hkb. injection Hkb as Hkb. subst kb.
  exists best, sub, p, l1, l2.
  split; [exact Hdec|]. split; [exact Hget|].
  split.
  { intros a sa pa Ha Hg. apply Z.ltb_lt. apply (H1 a sa Ha). rewrite Hg. reflexivity. }
  split.
  { intros a sa pa Ha Hg. apply Z.ltb_ge. apply (H2 a sa Ha). rewrite Hg. reflexivity. }
  unfold addProgress, FIFO_addProgress, exec, bind at 1, get_running. cbn [run].
  rewrite (nonempty_not_empty running Hne).
  unfold exec in Hrun. 
  destruct ((first_app <- py_min Z.ltb (fun app => v <- getitem app ;; ret (fst v))
                            (dict_keys running) ;;
             credit first_app (nominalRate first_app)) (mkMem tt running)) as [m r].
  injection Hrun as _ Hr Hres. cbn [lift]. rewrite Hr, Hres. reflexivity.
Qed.

Lemma FIFO_serves_first_submitted_witness :
  let a1 := mkApp 1 3 5 in
  let a2 := mkApp 2 2 4 in
  let a3 := mkApp 3 2 4 in
  let running := [(a1, (2, 0%Q)); (a2, (1, 0%Q)); (a3, (1, 0%Q))] in
  running <> [] /\
  exists best sub p l1 l2,
    dict_keys running = l1 ++ best :: l2 /\
    dict_get best running = Some (sub, p) /\
    (forall a sa pa, In a l1 -> dict_get a running = Some (sa, pa) -> sub < sa) /\
    (forall a sa pa, In a l2 -> dict_get a running = Some (sa, pa) -> sub <= sa) /\
    addProgress FIFO running 0
    = (FIFO, dict_set best (sub, Fraction.add p (nominalRate best)) running, Ok tt).
Proof.
  cbv zeta. split; [discriminate|].
  apply (FIFO_serves_first_submitted _ 0). discriminate.
Defined.

(** X2. [EDFPure.addProgress] on a non-empty dictionary returns without
    raising and credits exactly one job with its nominal rate: the first
    job in the dictionary among those with the least [deadline] field
    (the deadline relative to submission, whatever the current time). *)
Theorem EDFPure_serves_first_least_deadline (running : RDict) (time : Z) :
  running <> [] ->
  exists best sub p l1 l2,
    dict_keys running = l1 ++ best :: l2 /\
    dict_get best running = Some (sub, p) /\
    (forall a, In a l1 -> deadline best < deadline a) /\
    (forall a, In a l2 -> deadline best <= deadline a) /\
    addProgress EDFPure running time
    = (EDFPure, dict_set best (sub, Fraction.add p (nominalRate best)) running, Ok tt).
Proof.
  intros Hne.
  destruct (serve_least Z.ltb Zltb_trans Zltb_le_trans
              (fun app => ret (deadline app))
              (fun a => Some (deadline a)) running Hne
              (fun a => eq_refl))
    as (best & kb & l1 & l2 & sub & p & Hdec & Hkb & H1 & H2 & Hget & Hrun).
  { intros a Ha. discriminate. }
  injection Hkb as Hkb. subst kb.
  exists best, sub, p, l1, l2.
  split; [exact Hdec|]. split; [exact Hget|].
  split.
  { intros a Ha. apply Z.ltb_lt. apply (H1 a _ Ha). reflexivity. }
  split.
  { intros a Ha. apply Z.ltb_ge. apply (H2 a _ Ha). reflexivity. }
  unfold addProgress, EDFPure_addProgress, exec, bind at 1, get_running. cbn [run].
  rewrite (nonempty_not_empty running Hne).
  unfold exec in Hrun.
  destruct ((first_app <- py_min Z.ltb (fun app => ret (deadline app))
                            (dict_keys running) ;;
             credit first_app (nominalRate first_app)) (mkMem tt running)) as [m r].
  injection Hrun as _ Hr Hres. cbn [lift]. rewrite Hr, Hres. reflexivity.
Qed.

Lemma EDFPure_serves_first_least_deadline_witness :
  let a1 := mkApp 1 3 5 in
  let a2 := mkApp 2 2 4 in
  let a3 := mkApp 3 2 4 in
  let running := [(a1, (0, 0%Q)); (a2, (7, 1 # 2)); (a3, (1, 0%Q))] in
  running <> [] /\
  exists best sub p l1 l2,
    dict_keys running = l1 ++ best :: l2 /\
    dict_get best running = Some (sub, p) /\
    (forall a, In a l1 -> deadline best < deadline a) /\
    (forall a, In a l2 -> deadline best <= deadline a) /\
    addProgress EDFPure running 9
    = (EDFPure, dict_set best (sub, Fraction.add p (nominalRate best)) running, Ok tt).
Proof.
  cbv zeta. split; [discriminate|].
  apply (EDFPure_serves_first_least_deadline _ 9). discriminate.
Defined.

(** X3. [ShortestJobNext.addProgress] on a non-empty dictionary returns
    without raising and credits exactly one job with its nominal rate:
    the first job in the dictionary among those of least [duration] (the
    whole duration, not what remains of it). *)
Theorem ShortestJobNext_serves_first_shortest (running : RDict) (time : Z) :
  running <> [] ->
  exists best sub p l1 l2,
    dict_keys running = l1 ++ best :: l2 /\
    dict_get best running = Some (sub, p) /\
    (forall a, In a l1 -> duration best < duration a) /\
    (forall a, In a l2 -> duration best <= duration a) /\
    addProgress ShortestJobNext running time
    = (ShortestJobNext,
       dict_set best (sub, Fraction.add p (nominalRate best)) running, Ok tt).
Proof.
  intros Hne.
  destruct (serve_least Z.ltb Zltb_trans Zltb_le_trans
              (fun app => ret (duration app))
              (fun a => Some (duration a)) running Hne
              (fun a => eq_refl))
    as (best & kb & l1 & l2 & sub & p & Hdec & Hkb & H1 & H2 & Hget & Hrun).
  { intros a Ha. discriminate. }
  injection Hkb as Hkb. subst kb.
  exists best, sub, p, l1, l2.
  split; [exact Hdec|]. split; [exact Hget|].
  split.
  { intros a Ha. apply Z.ltb_lt. apply (H1 a _ Ha). reflexivity. }
  split.
  { intros a Ha. apply Z.ltb_ge. apply (H2 a _ Ha). reflexivity. }
  unfold addProgress, ShortestJobNext_addProgress, exec, bind at 1, get_running. cbn [run].
  rewrite (nonempty_not_empty running Hne).
  unfold exec in Hrun.
  destruct ((first_app <- py_min Z.ltb (fun app => ret (duration app))
                            (dict_keys running) ;;
             credit first_app (nominalRate first_app)) (mkMem tt running)) as [m r].
  injection Hrun as _ Hr Hres. cbn [lift]. rewrite Hr, Hres. reflexivity.
Qed.

Lemma ShortestJobNext_serves_first_shortest_witness :
  let a1 := mkApp 1 3 5 in
  let a2 := mkApp 2 2 4 in
  let a3 := mkApp 3 2 1 in
  let running := [(a1, (0, 0%Q)); (a2, (7, 1 # 2)); (a3, (1, 0%Q))] in
  running <> [] /\
  exists best sub p l1 l2,
    dict_keys running = l1 ++ best :: l2 /\
    dict_get best running = Some (sub, p) /\
    (forall a, In a l1 -> duration best < duration a) /\
    (forall a, In a l2 -> duration best <= duration a) /\
    addProgress ShortestJobNext running 9
    = (ShortestJobNext,
       dict_set best (sub, Fraction.add p (nominalRate best)) running, Ok tt).
Proof.
  cbv zeta. split; [discriminate|].
  apply (ShortestJobNext_serves_first_shortest _ 9). discriminate.
Defined.

(** X4. [LeastLaxityFirst.addProgress] on a non-empty dictionary returns
    without raising and credits exactly one job with its nominal rate:
    the first job in the dictionary among those of least laxity, where
    the laxity of a job with progress [p] is
    [(deadline - time) - (1 - p)]. *)
Theorem LeastLaxityFirst_serves_first_least_laxity (running : RDict) (time : Z) :
  running <> [] ->
  exists best sub p l1 l2,
    dict_keys running = l1 ++ best :: l2 /\
    dict_get best running = Some (sub, p) /\
    (forall a sa pa, In a l1 -> dict_get a running = Some (sa, pa) ->
       (laxity_value time best p < laxity_value time a pa)%Q) /\
    (forall a sa pa, In a l2 -> dict_get a running = Some (sa, pa) ->
       (laxity_value time best p <= laxity_value time a pa)%Q) /\
    addProgress LeastLaxityFirst running time
    = (LeastLaxityFirst,
       dict_set best (sub, Fraction.add p (nominalRate best)) running, Ok tt).
Proof.
  intros Hne.
  destruct (serve_least Fraction.ltb Fraction_ltb_trans Fraction_ltb_le_trans
              (laxity time)
              (fun a => option_map (fun v => laxity_value time a (snd v))
                                   (dict_get a running)) running Hne
              (laxity_pure time running))
    as (best & kb & l1 & l2 & sub & p & Hdec & Hkb & H1 & H2 & Hget & Hrun).
  { intros a Ha. destruct (In_keys_get _ _ Ha) as [v Hv]. rewrite Hv. discriminate. }
  rewrite Hget in Hkb. cbn in Hkb. injection Hkb as Hkb. subst kb.
  exists best, sub, p, l1, l2.
  split; [exact Hdec|]. split; [exact Hget|].
  split.
  { intros a sa pa Ha Hg. apply Fraction_ltb_lt. apply (H1 a _ Ha).
    rewrite Hg. reflexivity. }
  split.
  { intros a sa pa Ha Hg. apply Fraction_ltb_ge. apply (H2 a _ Ha).
    rewrite Hg. reflexivity. }
  unfold addProgress, LeastLaxityFirst_addProgress, exec, bind at 1, get_running. cbn [run].
  rewrite (nonempty_not_empty running Hne).
  unfold exec in Hrun.
  destruct ((first_app <- py_min Fraction.ltb (laxity time) (dict_keys running) ;;
             credit first_app (nominalRate first_app)) (mkMem tt running)) as [m r].
  injection Hrun as _ Hr Hres. cbn [lift]. rewrite Hr, Hres. reflexivity.
Qed.

Lemma LeastLaxityFirst_serves_first_least_laxity_witness :
  let a1 := mkApp 1 3 5 in
  let a2 := mkApp 2 2 4 in
  let a3 := mkApp 3 2 4 in
  let running := [(a1, (0, 0%Q)); (a2, (7, 1 # 2)); (a3, (1, 0%Q))] in
  running <> [] /\
  exists best sub p l1 l2,
    dict_keys running = l1 ++ best :: l2 /\
    dict_get best running = Some (sub, p) /\
    (forall a sa pa, In a l1 -> dict_get a running = Some (sa, pa) ->
       (laxity_value 2 best p < laxity_value 2 a pa)%Q) /\
    (forall a sa pa, In a l2 -> dict_get a running = Some (sa, pa) ->
       (laxity_value 2 best p <= laxity_value 2 a pa)%Q) /\
    addProgress LeastLaxityFirst running 2
    = (LeastLaxityFirst,
       dict_set best (sub, Fraction.add p (nominalRate best)) running, Ok tt).
Proof.
  cbv zeta. split; [discriminate|].
  apply (LeastLaxityFirst_serves_first_least_laxity _ 2). discriminate.
Defined.

(** ** The policies that serve every job, and the round robin *)

Lemma dict_get_app {V : Type} (k : App) (d d' : dict V) :
  dict_get k (d ++ d') =
    match dict_get k d with Some v => Some v | None => dict_get k d' end.
Proof.
  induction d as [|[k0 v0] d IH]; simpl; [reflexivity|].
  destruct (App_eqb k k0); [reflexivity | exact IH].
Qed.

Lemma dict_set_app_r {V : Type} (k : App) (v : V) (d d' : dict V) :
  dict_mem k d = false -> dict_set k v (d ++ d') = d ++ dict_set k v d'.
Proof.
  induction d as [|[k0 v0] d IH]; simpl; intros H; [reflexivity|].
  rewrite dict_mem_cons in H. apply orb_false_iff in H. destruct H as [H1 H2].
  rewrite H1, (IH H2). reflexivity.
Qed.

(** A loop that credits every key of a dictionary once, in order. *)
Lemma for_each_credit_all {Self : Type} (g : App -> Q) (o : Self) :
  forall suf pre,
    dict_ok (pre ++ suf) ->
    for_each (dict_keys suf) (fun app => credit app (g app)) (mkMem o (pre ++ suf))
    = (mkMem o (pre ++ credit_all g suf), Ok tt).
Proof.
  induction suf as [|[k v] suf IH]; intros pre Hok.
  - reflexivity.
  - assert (Hpre : dict_mem k pre = false).
    { clear IH. induction pre as [|[k0 v0] pre IHp]; [reflexivity|].
      simpl in Hok. apply dict_ok_cons in Hok. destruct Hok as [Hk0 Hok].
      rewrite dict_mem_cons. rewrite (IHp Hok), orb_false_r.
      rewrite dict_mem_app, dict_mem_cons in Hk0.
      apply orb_false_iff in Hk0. destruct Hk0 as [_ Hk0].
      apply orb_false_iff in Hk0. destruct Hk0 as [Hk0 _].
      rewrite App_eqb_sym. exact Hk0. }
    assert (Hget : dict_get k (run (mkMem o (pre ++ (k, v) :: suf))) = Some v).
    { cbn [run]. rewrite dict_get_app. apply dict_mem_false in Hpre. rewrite Hpre.
      simpl. rewrite App_eqb_refl. reflexivity. }
    cbn [dict_keys map fst for_each]. unfold bind at 1.
    rewrite (credit_run k (g k) _ v Hget). cbn [self run].
    rewrite (dict_set_app_r k _ pre _ Hpre). simpl dict_set. rewrite App_eqb_refl.
    change (pre ++ (k, (fst v, Fraction.add (snd v) (g k))) :: suf)
      with (pre ++ [(k, (fst v, Fraction.add (snd v) (g k)))] ++ suf).
    rewrite app_assoc.
    change (map fst suf) with (dict_keys suf).
    rewrite IH.
    + rewrite <- app_assoc. reflexivity.
    + rewrite <- app_assoc. simpl.
      eapply dict_ok_keys; [|exact Hok].
      unfold dict_keys. rewrite !map_app. reflexivity.
Qed.

Lemma Fair_run (running : RDict) (time : Z) :
  dict_ok running ->
  addProgress Fair running time
  = (Fair,
     credit_all (fun app => Fraction.div (nominalRate app)
                              (Fraction.of_int (Z.of_nat (length running)))) running,
     Ok tt).
Proof.
  intros Hok.
  unfold addProgress, Fair_addProgress, exec, bind at 1, get_running. cbn [run].
  destruct running as [|e0 rest] eqn:Hr; [reflexivity|]. rewrite <- Hr in *.
  replace (dict_is_empty running) with false by (rewrite Hr; reflexivity).
  rewrite (for_each_credit_all _ tt running [] Hok). reflexivity.
Qed.

Lemma EDFAll_run (running : RDict) (time : Z) :
  dict_ok running ->
  addProgress EDFAll running time = (EDFAll, credit_all nominalRate running, Ok tt).
Proof.
  intros Hok.
  unfold addProgress, EDFAll_addProgress, exec, bind at 1, get_running. cbn [run].
  destruct running as [|e0 rest] eqn:Hr; [reflexivity|]. rewrite <- Hr in *.
  replace (dict_is_empty running) with false by (rewrite Hr; reflexivity).
  rewrite (for_each_credit_all _ tt running [] Hok). reflexivity.
Qed.

(** X5. [Fair.addProgress] returns without raising and credits every
    running job, in place, with its nominal rate divided by the number
    of running jobs; submission times and the order of the dictionary
    stay as they are. *)
Theorem Fair_shares_equally (running : RDict) (time : Z) :
  dict_ok running ->
  addProgress Fair running time
  = (Fair,
     credit_all (fun app => Fraction.div (nominalRate app)
                              (Fraction.of_int (Z.of_nat (length running)))) running,
     Ok tt).
Proof. apply Fair_run. Qed.

Lemma Fair_shares_equally_witness :
  let a1 := mkApp 1 3 5 in
  let a2 := mkApp 2 2 4 in
  let running := [(a1, (0, 0%Q)); (a2, (7, 1 # 2))] in
  dict_ok running /\
  addProgress Fair running 9
  = (Fair,
     credit_all (fun app => Fraction.div (nominalRate app)
                              (Fraction.of_int (Z.of_nat (length running)))) running,
     Ok tt).
Proof.
  cbv zeta.
  assert (Hok : dict_ok [(mkApp 1 3 5, (0, 0%Q)); (mkApp 2 2 4, (7, 1 # 2))]).
  { unfold dict_ok. simpl. repeat constructor; simpl; intuition discriminate. }
  split; [exact Hok|]. apply (Fair_shares_equally _ 9 Hok).
Defined.

(** X6. [EDFAll.addProgress] returns without raising and credits every
    running job, in place, with its full nominal rate: the deadlines
    play no part. *)
Theorem EDFAll_serves_all (running : RDict) (time : Z) :
  dict_ok running ->
  addProgress EDFAll running time = (EDFAll, credit_all nominalRate running, Ok tt).
Proof. apply EDFAll_run. Qed.

Lemma EDFAll_serves_all_witness :
  let a1 := mkApp 1 3 5 in
  let a2 := mkApp 2 2 4 in
  let running := [(a1, (0, 0%Q)); (a2, (7, 1 # 2))] in
  dict_ok running /\
  addProgress EDFAll running 9 = (EDFAll, credit_all nominalRate running, Ok tt).
Proof.
  cbv zeta.
  assert (Hok : dict_ok [(mkApp 1 3 5, (0, 0%Q)); (mkApp 2 2 4, (7, 1 # 2))]).
  { unfold dict_ok. simpl. repeat constructor; simpl; intuition discriminate. }
  split; [exact Hok|]. apply (EDFAll_serves_all _ 9 Hok).
Defined.

Lemma RoundRobin_step (o : RoundRobinObj) (running : RDict) (time : Z) :
  running <> [] ->
  let n := Z.of_nat (length running) in
  let idx := (last_index o + 1) mod n in
  0 <= idx < n /\
  exists app sub p,
    nth_error (dict_keys running) (Z.to_nat idx) = Some app /\
    dict_get app running = Some (sub, p) /\
    addProgress (RoundRobin o) running time
    = (RoundRobin (mkRoundRobin (time_slice o) idx),
       dict_set app
         (sub, Fraction.add p (Fraction.mul (nominalRate app)
                                            (Fraction.of_int (time_slice o))))
         running,
       Ok tt).
Proof.
  intros Hne n idx.
  assert (Hn : 0 < n).
  { unfold n. destruct running; [congruence|]. simpl. lia. }
  assert (Hidx : 0 <= idx < n) by (apply Z.mod_pos_bound; exact Hn).
  split; [exact Hidx|].
  assert (Hlen : Z.of_nat (length (dict_keys running)) = n).
  { unfold dict_keys. rewrite length_map. reflexivity. }
  destruct (py_index_valid (dict_keys running) idx) as (app & Hpy & Hnth).
  { rewrite Hlen. exact Hidx. }
  assert (Hin : In app (dict_keys running)) by (eapply nth_error_In; exact Hnth).
  destruct (In_keys_get _ _ Hin) as [[sub p] Hget].
  exists app, sub, p. split; [exact Hnth|]. split; [exact Hget|].
  unfold addProgress, exec, RoundRobin_addProgress, bind at 1, get_running. cbn [run].
  destruct (dict_keys running) as [|k0 ks] eqn:Hk.
  { destruct running; [congruence | discriminate]. }
  unfold bind at 1, get_self. cbn [self].
  unfold bind at 1, set_self. cbn [run].
  unfold bind at 1. cbn [self last_index].
  replace (Z.of_nat (length (k0 :: ks))) with n by (rewrite <- Hlen; reflexivity).
  fold idx. rewrite Hpy.
  unfold bind at 1. cbn [self time_slice].
  rewrite (credit_run app _ _ (sub, p)); [|exact Hget].
  reflexivity.
Qed.

(** X7. [RoundRobin.addProgress] on a non-empty dictionary of [n] jobs
    returns without raising, moves the cursor to
    [(last_index + 1) mod n], which lies in [0, n), and credits exactly
    the job at that position with its nominal rate times the time
    slice. *)
Theorem RoundRobin_serves_next (o : RoundRobinObj) (running : RDict) (time : Z) :
  running <> [] ->
  let n := Z.of_nat (length running) in
  let idx := (last_index o + 1) mod n in
  0 <= idx < n /\
  exists app sub p,
    nth_error (dict_keys running) (Z.to_nat idx) = Some app /\
    dict_get app running = Some (sub, p) /\
    addProgress (RoundRobin o) running time
    = (RoundRobin (mkRoundRobin (time_slice o) idx),
       dict_set app
         (sub, Fraction.add p (Fraction.mul (nominalRate app)
                                            (Fraction.of_int (time_slice o))))
         running,
       Ok tt).
Proof. apply RoundRobin_step. Qed.

Lemma RoundRobin_serves_next_witness :
  let a1 := mkApp 1 30 50 in
  let a2 := mkApp 2 20 40 in
  let running := [(a1, (0, 0%Q)); (a2, (7, 1 # 2))] in
  let o := mkRoundRobin 10 (-1) in
  running <> [] /\
  let n := Z.of_nat (length running) in
  let idx := (last_index o + 1) mod n in
  0 <= idx < n /\
  exists app sub p,
    nth_error (dict_keys running) (Z.to_nat idx) = Some app /\
    dict_get app running = Some (sub, p) /\
    addProgress (RoundRobin o) running 3
    = (RoundRobin (mkRoundRobin (time_slice o) idx),
       dict_set app
         (sub, Fraction.add p (Fraction.mul (nominalRate app)
                                            (Fraction.of_int (time_slice o))))
         running,
       Ok tt).
Proof.
  cbv zeta. split; [discriminate|].
  apply (RoundRobin_serves_next (mkRoundRobin 10 (-1)) _ 3). discriminate.
Defined.

(** ** The multilevel feedback queue *)

(** X8. A [MultilevelFeedbackQueue] built by [__init__] with at least
    one queue and a time slice for every queue is in a consistent state,
    and [addProgress] on a consistent object never raises and leaves it
    consistent, whatever dictionary it is called with: every index into
    [queues] and [time_slices] is in range and every [del] finds its
    key. *)
Theorem MultilevelFeedbackQueue_consistent :
  (forall n ts, 1 <= n <= Z.of_nat (length ts) ->
     exists o, MultilevelFeedbackQueue_init n ts = MultilevelFeedbackQueue o /\ MLFQ_wf o) /\
  (forall o running time, MLFQ_wf o ->
     exists o' running',
       addProgress (MultilevelFeedbackQueue o) running time
       = (MultilevelFeedbackQueue o', running', Ok tt) /\
       MLFQ_wf o').
Proof.
  split.
  - intros n ts Hn. pose proof (MultilevelFeedbackQueue_init_wf n ts Hn) as H.
    unfold MultilevelFeedbackQueue_init in *. eexists. split; [reflexivity | exact H].
  - intros o running time Hwf. unfold addProgress, lift.
    destruct (exec_wp_total (MultilevelFeedbackQueue_addProgress time) o running
                (fun m => MLFQ_wf (self m))) as (o' & r' & X & Hwf').
    { apply MultilevelFeedbackQueue_wf. exact Hwf. }
    rewrite X. exists o', r'. split; [reflexivity | exact Hwf'].
Qed.

(** X9. A [MultilevelFeedbackQueue] built with no queue
    ([num_queues <= 0]) raises [IndexError] on every non-empty
    dictionary, at [self.queues[0]], and changes nothing before it
    does. *)
Theorem MultilevelFeedbackQueue_needs_a_queue (n : Z) (ts : list Z)
    (running : RDict) (time : Z) :
  n <= 0 -> running <> [] ->
  addProgress (MultilevelFeedbackQueue_init n ts) running time
  = (MultilevelFeedbackQueue_init n ts, running, Raise IndexError).
Proof.
  intros Hn Hne. unfold MultilevelFeedbackQueue_init, py_range.
  replace (Z.to_nat n) with O by lia. cbn [seq map].
  destruct running as [|[k0 v0] rest]; [congruence|]. reflexivity.
Qed.

Lemma MultilevelFeedbackQueue_needs_a_queue_witness :
  let running := [(mkApp 1 30 50, (0, 0%Q))] in
  0 <= 0 /\ running <> [] /\
  addProgress (MultilevelFeedbackQueue_init 0 [10; 20]) running 4
  = (MultilevelFeedbackQueue_init 0 [10; 20], running, Raise IndexError).
Proof.
  cbv zeta. split; [lia|]. split; [discriminate|].
  apply (MultilevelFeedbackQueue_needs_a_queue 0 [10; 20] _ 4); [lia | discriminate].
Defined.

(** ** Invariants of the exploration, indexed by the time of the loop *)

Section Indexed.

Variable str_hash : string -> Z.
Variable set_iter : list Spark -> list Spark.
Hypothesis set_iter_perm : forall l, Permutation (set_iter l) l.

Variable apps : list App.
Variable hi : Z.
Variable Psched : Scheduler -> Prop.
Variable P : Z -> Spark -> Prop.
Hypothesis P_tick :
  forall sched sched' s s' t,
    0 <= t < hi -> Psched sched -> P t s -> tick sched s t = Ok (sched', s') ->
    Psched sched' /\ P (t + 1) s'.
Hypothesis P_schedule :
  forall s app t,
    0 <= t < hi -> In app apps -> P (t + 1) s -> P (t + 1) (schedule s app t).

Lemma simulate_tick_indexed (t : Z) :
  0 <= t < hi ->
  forall todo sched newStates sched' states,
    Psched sched ->
    (forall s, In s todo -> P t s) -> (forall s, In s newStates -> P (t + 1) s) ->
    simulate_tick str_hash apps sched todo t newStates = Ok (sched', states) ->
    Psched sched' /\ forall s, In s states -> P (t + 1) s.
Proof.
  intros Ht.
  induction todo as [|state todo IH]; intros sched newStates sched' states Hsc Htodo Hnew;
    simpl.
  - intros X. injection X as <- <-. split; assumption.
  - destruct (tick sched state t) as [[sched1 ticked]|e] eqn:T; [|discriminate].
    destruct (P_tick sched sched1 state ticked t Ht Hsc (Htodo _ (or_introl eq_refl)) T)
      as [Hsc1 Hticked].
    apply IH.
    + exact Hsc1.
    + intros s Hs. apply Htodo. simpl. auto.
    + intros s Hs. apply In_set_union in Hs. destruct Hs as [Hs|Hs]; [auto|].
      eapply (nextStates_preserves_in str_hash (P (t + 1)) t apps); [|exact Hticked|exact Hs].
      intros s0 app Happ. apply P_schedule; assumption.
Qed.

Lemma simulate_loop_indexed :
  forall n k sched states sched' final,
    Z.of_nat (k + n) <= hi ->
    Psched sched ->
    (forall s, In s states -> P (Z.of_nat k) s) ->
    simulate_loop str_hash set_iter apps sched states (map Z.of_nat (seq k n))
    = Ok (sched', final) ->
    forall s, In s final -> P (Z.of_nat (k + n)) s.
Proof.
  induction n as [|n IH]; intros k sched states sched' final Hhi Hsc Hs; simpl.
  - intros X. injection X as _ <-. rewrite Nat.add_0_r. exact Hs.
  - destruct (simulate_tick str_hash apps sched (set_iter states) (Z.of_nat k) [])
      as [[sched1 newStates]|e] eqn:T; [|discriminate].
    intros L. replace (k + S n)%nat with (S k + n)%nat by lia.
    destruct (simulate_tick_indexed (Z.of_nat k) ltac:(lia) _ _ _ _ _ Hsc
                (fun s Hin => Hs s (set_iter_In set_iter set_iter_perm s states Hin))
                (fun s (Hin : In s []) => match Hin with end) T) as [Hsc1 Hnew].
    apply (IH (S k) sched1 newStates sched' final); [lia|exact Hsc1| |exact L].
    replace (Z.of_nat (S k)) with (Z.of_nat k + 1) by lia. exact Hnew.
Qed.

Lemma simulate_indexed (sched : Scheduler) (initial : Spark) (steps : Z)
    (states : list Spark) :
  Z.max 0 (steps + 1) <= hi ->
  Psched sched ->
  P 0 initial ->
  simulate str_hash set_iter sched initial apps steps = Ok states ->
  forall s, In s states -> P (Z.max 0 (steps + 1)) s.
Proof.
  intros Hhi Hsc Hinit. unfold simulate, py_range.
  destruct (simulate_loop _ _ _ _ _ _) as [[sched' final]|e] eqn:L; [|discriminate].
  intros X. injection X as <-.
  replace (Z.max 0 (steps + 1)) with (Z.of_nat (0 + Z.to_nat (steps + 1))) by lia.
  eapply simulate_loop_indexed; [lia|exact Hsc| |exact L].
  intros s [<-|[]]. exact Hinit.
Qed.

End Indexed.

(** *** Well-formed and disjoint mappings *)

Lemma dict_mem_filter_false {V : Type} (f : App * V -> bool) (k : App) (d : dict V) :
  dict_mem k d = false -> dict_mem k (filter f d) = false.
Proof.
  induction d as [|[k0 v0] d IH]; simpl; [auto|].
  rewrite dict_mem_cons. intros H. apply orb_false_iff in H. destruct H as [H1 H2].
  destruct (f (k0, v0)); [|auto].
  rewrite dict_mem_cons, H1. simpl. auto.
Qed.

Lemma dict_ok_filter {V : Type} (f : App * V -> bool) (d : dict V) :
  dict_ok d -> dict_ok (filter f d).
Proof.
  induction d as [|[k0 v0] d IH]; simpl; [auto|].
  intros H. apply dict_ok_cons in H. destruct H as [H1 H2].
  destruct (f (k0, v0)); [|auto].
  apply dict_ok_cons. split; [apply dict_mem_filter_false; exact H1 | auto].
Qed.

Lemma tick_finish_ok (time : Z) (r : RDict) (e : EDict) :
  dict_ok e -> dict_ok (tick_finish time r e).
Proof.
  unfold tick_finish. revert e. induction r as [|x r IH]; intros e He; simpl; [exact He|].
  apply IH. destruct (Fraction.leb _ _); [apply dict_ok_set; exact He | exact He].
Qed.

Lemma schedule_ended (s : Spark) (app : App) (t : Z) : ended (schedule s app t) = ended s.
Proof.
  unfold schedule. destruct (present s app); [reflexivity|].
  destruct (has_predecessor _ app); reflexivity.
Qed.

Lemma schedule_Spark_ok (s : Spark) (app : App) (t : Z) :
  Spark_ok s -> Spark_ok (schedule s app t).
Proof.
  intros [Hr He]. unfold schedule. destruct (present s app); [split; assumption|].
  destruct (has_predecessor _ app); [|split; assumption].
  split; [apply dict_ok_set; exact Hr | exact He].
Qed.

Lemma schedule_disjoint (s : Spark) (app : App) (t : Z) :
  disjoint s -> disjoint (schedule s app t).
Proof.
  intros Hd. unfold schedule. destruct (present s app) eqn:Hp; [exact Hd|].
  destruct (has_predecessor _ app); [|exact Hd].
  intros k. cbn [running ended]. rewrite dict_mem_set. intros H.
  apply orb_false_iff in Hp. destruct Hp as [_ Hp].
  destruct (App_eqb k app) eqn:E.
  - rewrite (dict_mem_congr _ _ _ E). exact Hp.
  - apply Hd. exact H.
Qed.

Lemma tick_Spark_ok (sched sched' : Scheduler) (s s' : Spark) (t : Z) :
  Spark_ok s -> tick sched s t = Ok (sched', s') -> Spark_ok s'.
Proof.
  intros [Hr He]. unfold tick. destruct (dict_is_empty (running s)).
  - intros X. injection X as _ <-. split; assumption.
  - destruct (addProgress sched (running s) t) as [[sched1 r1] [u|e]] eqn:AP;
      [|discriminate].
    intros X. injection X as _ <-. apply addProgress_keeps in AP. destruct AP as [K _].
    split; cbn [running ended].
    + rewrite tick_retire_filter. apply dict_ok_filter.
      apply (dict_ok_keys (running s)); assumption.
    + apply tick_finish_ok. exact He.
Qed.

Lemma tick_disjoint (sched sched' : Scheduler) (s s' : Spark) (t : Z) :
  tick sched s t = Ok (sched', s') ->
  forall app, dict_mem app (running s') = true -> dict_mem app (ended s') = false.
Proof.
  unfold tick. destruct (dict_is_empty (running s)) eqn:Hemp.
  - intros X. injection X as _ <-. intros app.
    destruct (running s); [discriminate 1 | discriminate Hemp].
  - destruct (addProgress sched (running s) t) as [[sched1 r1] [u|e]] eqn:AP;
      [|discriminate].
    intros X. injection X as _ <-. intros app. cbn [running ended].
    rewrite tick_retire_filter.
    rewrite (dict_mem_filter_key (fun a => negb (dict_mem a (tick_finish t r1 (ended s)))))
      by (intros a b E; rewrite (dict_mem_congr _ _ _ E); reflexivity).
    intros H. apply andb_true_iff in H. destruct H as [_ H].
    apply negb_true_iff in H. exact H.
Qed.

(** X10. The two mappings of a timeline state stay apart.  [tick]
    returns a state in which no job is both running and ended, whatever
    state it started from; [schedule] keeps the mappings apart; and from
    a seed whose mappings are duplicate-free and disjoint, every state
    [simulate] returns has duplicate-free, disjoint mappings. *)
Theorem mappings_stay_disjoint (str_hash : string -> Z)
    (set_iter : list Spark -> list Spark) :
  (forall l, Permutation (set_iter l) l) ->
  (forall sched sched' s s' t, tick sched s t = Ok (sched', s') -> disjoint s') /\
  (forall s app t, disjoint s -> disjoint (schedule s app t)) /\
  (forall sched seed apps steps states,
     Spark_ok seed -> disjoint seed ->
     simulate str_hash set_iter sched seed apps steps = Ok states ->
     forall s, In s states -> Spark_ok s /\ disjoint s).
Proof.
  intros Hperm. split; [|split].
  - intros sched sched' s s' t T. exact (tick_disjoint _ _ _ _ _ T).
  - exact schedule_disjoint.
  - intros sched seed apps steps states Hok Hdis Hsim.
    apply (simulate_preserves str_hash set_iter Hperm (fun s => Spark_ok s /\ disjoint s))
      with (sched := sched) (initial := seed) (apps := apps) (steps := steps).
    + intros s app t [H1 H2]. split; [apply schedule_Spark_ok | apply schedule_disjoint];
        assumption.
    + intros sc sc' s s' t T [H1 _]. split.
      * eapply tick_Spark_ok; eassumption.
      * exact (tick_disjoint _ _ _ _ _ T).
    + split; assumption.
    + exact Hsim.
Qed.

Lemma mappings_stay_disjoint_witness :
  let j1 := mkApp 1 2 2 in
  let j2 := mkApp 2 1 1 in
  let seed := mkSpark [(j1, (1, 0%Q))] [] in
  (forall l : list Spark, Permutation l l) /\
  Spark_ok seed /\ disjoint seed /\
  exists states,
    simulate (fun _ => 0) (fun l => l) EDFAll seed [j1; j2] 2 = Ok states /\
    length states = 4%nat /\
    forall s, In s states -> Spark_ok s /\ disjoint s.
Proof.
  cbv zeta.
  assert (Hperm : forall l : list Spark, Permutation l l) by (intros l; apply Permutation_refl).
  assert (Hok : Spark_ok (mkSpark [(mkApp 1 2 2, (1, 0%Q))] [])).
  { apply Spark_ok_small; simpl; lia. }
  assert (Hdis : disjoint (mkSpark [(mkApp 1 2 2, (1, 0%Q))] [])).
  { intros app _. reflexivity. }
  split; [exact Hperm|]. split; [exact Hok|]. split; [exact Hdis|].
  eexists. split; [vm_compute; reflexivity|]. split; [reflexivity|].
  exact (proj2 (proj2 (mappings_stay_disjoint (fun _ => 0) (fun l => l) Hperm))
           EDFAll _ [mkApp 1 2 2; mkApp 2 1 1] 2 _ Hok Hdis eq_refl).
Defined.

(** *** Running jobs are unfinished *)

Lemma tick_running_unfinished (sched sched' : Scheduler) (s s' : Spark) (t : Z) :
  tick sched s t = Ok (sched', s') ->
  Forall (fun e => finished e = false) (running s').
Proof.
  unfold tick. destruct (dict_is_empty (running s)) eqn:Hemp.
  - intros X. injection X as _ <-.
    destruct (running s); [constructor | discriminate Hemp].
  - destruct (addProgress sched (running s) t) as [[sched1 r1] [u|e]] eqn:AP;
      [|discriminate].
    intros X. injection X as _ <-. cbn [running].
    rewrite tick_retire_filter. apply Forall_forall. intros x Hx.
    apply filter_In in Hx. destruct Hx as [Hin Hx]. apply negb_true_iff in Hx.
    rewrite dict_mem_tick_finish in Hx. apply orb_false_iff in Hx. destruct Hx as [_ Hx].
    destruct (finished x) eqn:F; [|reflexivity].
    assert (Ex : existsb (fun y => App_eqb (fst x) (fst y) && finished y) r1 = true).
    { apply existsb_exists. exists x. split; [exact Hin|].
      rewrite App_eqb_refl, F. reflexivity. }
    congruence.
Qed.

Lemma schedule_running_unfinished (s : Spark) (app : App) (t : Z) :
  Forall (fun e => finished e = false) (running s) ->
  Forall (fun e => finished e = false) (running (schedule s app t)).
Proof.
  intros H. unfold schedule. destruct (present s app) eqn:Hp; [exact H|].
  destruct (has_predecessor _ app); [|exact H].
  cbn [running]. apply orb_false_iff in Hp. destruct Hp as [Hp _].
  rewrite (dict_set_absent _ _ _ Hp). apply Forall_app. split; [exact H|].
  constructor; [reflexivity | constructor].
Qed.

(** X11. A running job is an unfinished job.  In the state [tick]
    returns every running job has progress below 1, whatever state it
    started from: a job that reaches 1 leaves [running] in the same
    tick.  [schedule] adds a job at progress 0, so from a seed whose
    running jobs are below 1 every state [simulate] returns has all its
    running jobs below 1. *)
Theorem running_jobs_unfinished (str_hash : string -> Z)
    (set_iter : list Spark -> list Spark) :
  (forall l, Permutation (set_iter l) l) ->
  (forall sched sched' s s' t app sub p,
     tick sched s t = Ok (sched', s') ->
     In (app, (sub, p)) (running s') -> (p < 1)%Q) /\
  (forall sched seed apps steps states,
     (forall app sub p, In (app, (sub, p)) (running seed) -> (p < 1)%Q) ->
     simulate str_hash set_iter sched seed apps steps = Ok states ->
     forall s app sub p, In s states -> In (app, (sub, p)) (running s) -> (p < 1)%Q).
Proof.
  intros Hperm.
  assert (Hlt : forall e : App * (Z * Q), finished e = false <-> (snd (snd e) < 1)%Q).
  { intros e. unfold finished, Fraction.leb, Fraction.of_int. split.
    - intros H. apply Qnot_le_lt. intros Hle. apply Qle_bool_iff in Hle.
      change (inject_Z 1) with 1%Q in H. congruence.
    - intros H. destruct (Qle_bool (inject_Z 1) (snd (snd e))) eqn:E; [|reflexivity].
      apply Qle_bool_iff in E. exfalso. exact (Qlt_not_le _ _ H E). }
  split.
  - intros sched sched' s s' t app sub p T Hin.
    pose proof (tick_running_unfinished _ _ _ _ _ T) as H.
    rewrite Forall_forall in H. apply (Hlt (app, (sub, p))). apply H. exact Hin.
  - intros sched seed apps steps states Hseed Hsim s app sub p Hs Hin.
    apply (Hlt (app, (sub, p))).
    assert (H : Forall (fun e => finished e = false) (running s)).
    { apply (simulate_preserves str_hash set_iter Hperm
               (fun s => Forall (fun e => finished e = false) (running s)))
        with (sched := sched) (initial := seed) (apps := apps) (steps := steps)
             (states := states).
      - intros s0 a t. apply schedule_running_unfinished.
      - intros sc sc' s0 s1 t T _. eapply tick_running_unfinished. exact T.
      - apply Forall_forall. intros [a [sb q]] Ha. apply Hlt. exact (Hseed a sb q Ha).
      - exact Hsim.
      - exact Hs. }
    rewrite Forall_forall in H. apply H. exact Hin.
Qed.

Lemma running_jobs_unfinished_witness :
  let j1 := mkApp 1 2 2 in
  let j2 := mkApp 2 1 1 in
  let seed := mkSpark [(j1, (1, 0%Q))] [] in
  (forall l : list Spark, Permutation l l) /\
  (forall app sub p, In (app, (sub, p)) (running seed) -> (p < 1)%Q) /\
  exists states,
    simulate (fun _ => 0) (fun l => l) FIFO seed [j1; j2] 2 = Ok states /\
    length states = 4%nat /\
    forall s app sub p, In s states -> In (app, (sub, p)) (running s) -> (p < 1)%Q.
Proof.
  cbv zeta.
  assert (Hperm : forall l : list Spark, Permutation l l) by (intros l; apply Permutation_refl).
  assert (Hseed : forall app sub p,
            In (app, (sub, p)) (running (mkSpark [(mkApp 1 2 2, (1, 0%Q))] [])) -> (p < 1)%Q).
  { intros app sub p [H|[]]. injection H as _ _ <-. reflexivity. }
  split; [exact Hperm|]. split; [exact Hseed|].
  eexists. split; [vm_compute; reflexivity|]. split; [reflexivity|].
  exact (proj2 (running_jobs_unfinished (fun _ => 0) (fun l => l) Hperm)
           FIFO _ [mkApp 1 2 2; mkApp 2 1 1] 2 _ Hseed eq_refl).
Defined.

(** *** What is recorded stays recorded *)

Lemma tick_keeps_ended (sched sched' : Scheduler) (s s' : Spark) (t : Z) (a : App)
    (v : Z * Z) :
  dict_ok (running s) -> disjoint s ->
  tick sched s t = Ok (sched', s') ->
  dict_get a (ended s) = Some v -> dict_get a (ended s') = Some v.
Proof.
  intros Hok Hdis. unfold tick. destruct (dict_is_empty (running s)).
  - intros X. injection X as _ <-. auto.
  - destruct (addProgress sched (running s) t) as [[sched1 r1] [u|e]] eqn:AP;
      [|discriminate].
    intros X. injection X as _ <-. cbn [ended]. intros Hget.
    apply addProgress_keeps in AP. destruct AP as [K _].
    destruct (tick_loops t r1 (ended s)) as [He _].
    + apply (dict_ok_keys (running s)); assumption.
    + intros app Hm. apply Hdis. rewrite dict_mem_existsb in *. rewrite <- K. exact Hm.
    + rewrite He, dict_get_app, Hget. reflexivity.
Qed.

Lemma schedule_present (s : Spark) (app a : App) (t : Z) :
  present s a = true -> present (schedule s app t) a = true.
Proof.
  unfold schedule. destruct (present s app); [auto|].
  destruct (has_predecessor _ app); [|auto].
  unfold present. cbn [running ended]. rewrite dict_mem_set. intros H.
  apply orb_true_iff in H. destruct H as [H|H]; rewrite H.
  - rewrite orb_true_r. reflexivity.
  - apply orb_true_r.
Qed.

(** X12. The exploration only ever adds to what a state records.  On a
    state with duplicate-free running keys and disjoint mappings, [tick]
    leaves every entry of [ended] as it is; and from such a seed, every
    job present in the seed is present in every state [simulate]
    returns, and every [ended] entry of the seed is there unchanged. *)
Theorem records_are_kept (str_hash : string -> Z)
    (set_iter : list Spark -> list Spark) :
  (forall l, Permutation (set_iter l) l) ->
  (forall sched sched' s s' t a v,
     dict_ok (running s) -> disjoint s ->
     tick sched s t = Ok (sched', s') ->
     dict_get a (ended s) = Some v -> dict_get a (ended s') = Some v) /\
  (forall sched seed apps steps states,
     Spark_ok seed -> disjoint seed ->
     simulate str_hash set_iter sched seed apps steps = Ok states ->
     forall s, In s states ->
       (forall a, present seed a = true -> present s a = true) /\
       (forall a v, dict_get a (ended seed) = Some v -> dict_get a (ended s) = Some v)).
Proof.
  intros Hperm. split.
  - intros sched sched' s s' t a v Hok Hdis T. exact (tick_keeps_ended _ _ _ _ _ a v Hok Hdis T).
  - intros sched seed apps steps states Hok Hdis Hsim s Hs.
    assert (H : (Spark_ok s /\ disjoint s) /\
                (forall a, present seed a = true -> present s a = true) /\
                (forall a v, dict_get a (ended seed) = Some v ->
                             dict_get a (ended s) = Some v)).
    { apply (simulate_preserves str_hash set_iter Hperm
               (fun s => (Spark_ok s /\ disjoint s) /\
                         (forall a, present seed a = true -> present s a = true) /\
                         (forall a v, dict_get a (ended seed) = Some v ->
                                      dict_get a (ended s) = Some v)))
        with (sched := sched) (initial := seed) (apps := apps) (steps := steps)
             (states := states).
      - intros s0 app t [[H1 H2] [H3 H4]]. split; [split|split].
        + apply schedule_Spark_ok. exact H1.
        + apply schedule_disjoint. exact H2.
        + intros a Ha. apply schedule_present. apply H3. exact Ha.
        + rewrite schedule_ended. exact H4.
      - intros sc sc' s0 s1 t T [[H1 H2] [H3 H4]]. split; [split|split].
        + eapply tick_Spark_ok; eassumption.
        + exact (tick_disjoint _ _ _ _ _ T).
        + intros a Ha. rewrite (tick_present _ _ _ _ _ a T). apply H3. exact Ha.
        + intros a v Ha. eapply tick_keeps_ended; [apply H1|exact H2|exact T|].
          apply H4. exact Ha.
      - split; [split; assumption|]. split; auto.
      - exact Hsim.
      - exact Hs. }
    exact (proj2 H).
Qed.

Lemma records_are_kept_witness :
  let j0 := mkApp 0 1 1 in
  let j1 := mkApp 1 2 2 in
  let j2 := mkApp 2 1 1 in
  let seed := mkSpark [(j1, (1, 0%Q))] [(j0, (0, 0))] in
  (forall l : list Spark, Permutation l l) /\
  Spark_ok seed /\ disjoint seed /\
  exists states,
    simulate (fun _ => 0) (fun l => l) FIFO seed [j1; j2] 2 = Ok states /\
    length states = 4%nat /\
    forall s, In s states ->
      (forall a, present seed a = true -> present s a = true) /\
      (forall a v, dict_get a (ended seed) = Some v -> dict_get a (ended s) = Some v).
Proof.
  cbv zeta.
  assert (Hperm : forall l : list Spark, Permutation l l) by (intros l; apply Permutation_refl).
  assert (Hok : Spark_ok (mkSpark [(mkApp 1 2 2, (1, 0%Q))] [(mkApp 0 1 1, (0, 0))])).
  { apply Spark_ok_small; simpl; lia. }
  assert (Hdis : disjoint (mkSpark [(mkApp 1 2 2, (1, 0%Q))] [(mkApp 0 1 1, (0, 0))])).
  { intros app. cbn [running ended]. rewrite !dict_mem_cons. unfold App_eqb. cbn [id].
    destruct (id app =? 1) eqn:E; [|discriminate].
    apply Z.eqb_eq in E. rewrite E. intros _. reflexivity. }
  split; [exact Hperm|]. split; [exact Hok|]. split; [exact Hdis|].
  eexists. split; [vm_compute; reflexivity|]. split; [reflexivity|].
  exact (proj2 (records_are_kept (fun _ => 0) (fun l => l) Hperm)
           FIFO _ [mkApp 1 2 2; mkApp 2 1 1] 2 _ Hok Hdis eq_refl).
Defined.

(** *** Time stamps *)

Lemma dict_get_filter_key {V : Type} (g : App -> bool) (k : App) (d : dict V) :
  (forall a b, App_eqb a b = true -> g a = g b) ->
  dict_get k (filter (fun x => g (fst x)) d) = if g k then dict_get k d else None.
Proof.
  intros Hg. induction d as [|[k0 v0] d IH]; simpl.
  - destruct (g k); reflexivity.
  - destruct (g k0) eqn:G0; simpl.
    + destruct (App_eqb k k0) eqn:E; [|exact IH].
      rewrite (Hg _ _ E), G0. reflexivity.
    + rewrite IH. destruct (App_eqb k k0) eqn:E; [|reflexivity].
      rewrite (Hg _ _ E), G0. reflexivity.
Qed.

Lemma tick_finish_get (time : Z) (a : App) (w : Z * Z) (r : RDict) (e : EDict) :
  dict_get a (tick_finish time r e) = Some w ->
  dict_get a e = Some w \/
  exists k v, In (k, v) r /\ App_eqb a k = true /\ w = (fst v, time).
Proof.
  unfold tick_finish. revert e. induction r as [|[k0 v0] r IH]; intros e; simpl.
  - auto.
  - intros H. apply IH in H. destruct H as [H|(k & v & Hin & Hk & Hw)].
    + destruct (Fraction.leb (Fraction.of_int 1) (snd v0)); [|auto].
      rewrite dict_get_set in H. destruct (App_eqb a k0) eqn:E; [|auto].
      right. exists k0, v0. split; [left; reflexivity|]. split; [exact E|].
      injection H as <-. reflexivity.
    + right. exists k, v. split; [right; exact Hin|]. split; assumption.
Qed.

Lemma present_congr (s : Spark) (a b : App) :
  App_eqb a b = true -> present s a = present s b.
Proof.
  intros E. unfold present. rewrite !(dict_mem_congr _ _ _ E). reflexivity.
Qed.

Lemma stamps_ok_later (seed : Spark) (t t' : Z) (s : Spark) :
  t <= t' -> stamps_ok seed t s -> stamps_ok seed t' s.
Proof.
  intros Ht (H1 & H2 & H3 & H4). split; [exact H1|]. split; [exact H2|]. split.
  - intros a sub p Ha. destruct (H3 a sub p Ha) as [H|[H H']]; [left; exact H|].
    right. split; [exact H | lia].
  - intros a sub fin Ha. destruct (H4 a sub fin Ha) as [H|[[H H']|[H H']]].
    + left. exact H.
    + right. left. split; [exact H | lia].
    + right. right. split; [exact H | lia].
Qed.

Lemma tick_stamps_ok (seed : Spark) (sched sched' : Scheduler) (s s' : Spark) (t : Z) :
  0 <= t -> stamps_ok seed t s -> tick sched s t = Ok (sched', s') ->
  stamps_ok seed (t + 1) s'.
Proof.
  intros Ht Hs. unfold tick. destruct (dict_is_empty (running s)) eqn:Hemp.
  - intros X. injection X as _ <-. apply (stamps_ok_later seed t); [lia | exact Hs].
  - destruct (addProgress sched (running s) t) as [[sched1 r1] [u|e]] eqn:AP;
      [|discriminate].
    intros X.
    assert (T : tick sched s t = Ok (sched', s')).
    { unfold tick. rewrite Hemp, AP. exact X. }
    injection X as _ <-.
    destruct Hs as (H1 & H2 & H3 & H4).
    pose proof (addProgress_original_sub _ _ _ _ _ _ AP) as Hsub.
    apply addProgress_keeps in AP. destruct AP as [K _].
    assert (Hok1 : dict_ok r1) by (apply (dict_ok_keys (running s)); assumption).
    split; [|split; [|split]]; cbn [running ended].
    + rewrite tick_retire_filter. apply dict_ok_filter. exact Hok1.
    + intros a Ha. rewrite (tick_present _ _ _ _ _ a T). apply H2. exact Ha.
    + intros a sub p. rewrite tick_retire_filter.
      rewrite (dict_get_filter_key (fun a => negb (dict_mem a (tick_finish t r1 (ended s)))))
        by (intros x y E; rewrite (dict_mem_congr _ _ _ E); reflexivity).
      destruct (negb _); [|discriminate]. intros Ha.
      destruct (Hsub a sub p Ha) as [p0 Hp0].
      destruct (H3 a sub p0 Hp0) as [H|[H H']]; [left; exact H|].
      right. split; [exact H | lia].
    + intros a sub fin Ha. apply tick_finish_get in Ha.
      destruct Ha as [Ha|(k & v & Hin & Hk & Hw)].
      * destruct (H4 a sub fin Ha) as [H|[[H H']|[H H']]].
        -- left. exact H.
        -- right. left. split; [exact H | lia].
        -- right. right. split; [exact H | lia].
      * injection Hw as -> ->.
        assert (Hg : dict_get a r1 = Some v).
        { rewrite (dict_get_congr _ _ _ Hk). apply dict_ok_get; assumption. }
        destruct v as [sub p]. destruct (Hsub a sub p Hg) as [p0 Hp0]. cbn [fst].
        destruct (H3 a sub p0 Hp0) as [H|[H H']].
        -- right. left. split; [exact H | lia].
        -- right. right. split; [exact H | lia].
Qed.

Lemma schedule_stamps_ok (seed : Spark) (s : Spark) (app : App) (t : Z) :
  0 <= t -> stamps_ok seed (t + 1) s -> stamps_ok seed (t + 1) (schedule s app t).
Proof.
  intros Ht Hs.
  assert (Hp : forall a, present seed a = true -> present (schedule s app t) a = true).
  { intros a Ha. apply schedule_present. destruct Hs as (_ & H2 & _). apply H2. exact Ha. }
  revert Hp. unfold schedule. destruct (present s app) eqn:Hpres; [intros _; exact Hs|].
  destruct (has_predecessor _ app); [|intros _; exact Hs].
  intros Hp. destruct Hs as (H1 & H2 & H3 & H4).
  split; [|split; [|split]]; cbn [running ended].
  - apply dict_ok_set. exact H1.
  - exact Hp.
  - intros a sub p. rewrite dict_get_set. destruct (App_eqb a app) eqn:E.
    + intros X. injection X as <- _. right. split; [|lia].
      destruct (present seed a) eqn:Hseed; [|reflexivity].
      apply H2 in Hseed. rewrite (present_congr _ _ _ E) in Hseed. congruence.
    + apply H3.
  - exact H4.
Qed.

(** X13. The time stamps of a state are those of the exploration.  In
    every state [simulate] returns, a job that was not in the seed has a
    submission time in [0, steps] and, once ended, a finish time in
    [0, steps] strictly after its submission; and an [ended] entry is
    either an entry of the seed or has a finish time in [0, steps]. *)
Theorem time_stamps_in_horizon (str_hash : string -> Z)
    (set_iter : list Spark -> list Spark) :
  (forall l, Permutation (set_iter l) l) ->
  forall sched seed apps steps states,
    dict_ok (running seed) ->
    simulate str_hash set_iter sched seed apps steps = Ok states ->
    forall s a sub, In s states ->
      (present seed a = false ->
       (forall p, dict_get a (running s) = Some (sub, p) -> 0 <= sub <= steps) /\
       (forall fin, dict_get a (ended s) = Some (sub, fin) ->
          0 <= sub < fin /\ fin <= steps)) /\
      (forall fin, dict_get a (ended s) = Some (sub, fin) ->
         dict_get a (ended seed) = Some (sub, fin) \/ 0 <= fin <= steps).
Proof.
  intros Hperm sched seed apps steps states Hok Hsim s a sub Hs.
  assert (H : stamps_ok seed (Z.max 0 (steps + 1)) s).
  { apply (simulate_indexed str_hash set_iter Hperm apps (Z.max 0 (steps + 1))
             (fun _ => True) (stamps_ok seed))
      with (sched := sched) (initial := seed) (steps := steps) (states := states).
    - intros sc sc' s0 s1 t Ht _ H0 T. split; [exact Logic.I|].
      eapply tick_stamps_ok; [lia|exact H0|exact T].
    - intros s0 app t Ht _. apply schedule_stamps_ok. lia.
    - lia.
    - exact Logic.I.
    - split; [exact Hok|]. split; [auto|]. split.
      + intros x sb p Hx. left. exists p. exact Hx.
      + intros x sb fin Hx. left. exact Hx.
    - exact Hsim.
    - exact Hs. }
  destruct H as (_ & H2 & H3 & H4).
  assert (Hno : forall sb, present seed a = false -> ~ seeded seed a sb).
  { intros sb Hp [p0 Hp0]. apply orb_false_iff in Hp. destruct Hp as [Hp _].
    apply dict_mem_false in Hp. congruence. }
  split.
  - intros Hp. split.
    + intros p Ha. destruct (H3 a sub p Ha) as [H|[_ H]]; [exfalso; exact (Hno _ Hp H)|lia].
    + intros fin Ha. destruct (H4 a sub fin Ha) as [H|[[H _]|[_ H]]].
      * exfalso. apply orb_false_iff in Hp. destruct Hp as [_ Hp].
        apply dict_mem_false in Hp. congruence.
      * exfalso. exact (Hno _ Hp H).
      * lia.
  - intros fin Ha. destruct (H4 a sub fin Ha) as [H|[[_ H]|[_ H]]]; [left; exact H|right; lia..].
Qed.

Lemma time_stamps_in_horizon_witness :
  let j1 := mkApp 1 2 2 in
  let j2 := mkApp 2 1 1 in
  let seed := mkSpark [(j1, (1, 0%Q))] [] in
  (forall l : list Spark, Permutation l l) /\
  dict_ok (running seed) /\
  exists states,
    simulate (fun _ => 0) (fun l => l) FIFO seed [j1; j2] 2 = Ok states /\
    length states = 4%nat /\
    forall s a sub, In s states ->
      (present seed a = false ->
       (forall p, dict_get a (running s) = Some (sub, p) -> 0 <= sub <= 2) /\
       (forall fin, dict_get a (ended s) = Some (sub, fin) ->
          0 <= sub < fin /\ fin <= 2)) /\
      (forall fin, dict_get a (ended s) = Some (sub, fin) ->
         dict_get a (ended seed) = Some (sub, fin) \/ 0 <= fin <= 2).
Proof.
  cbv zeta.
  assert (Hperm : forall l : list Spark, Permutation l l) by (intros l; apply Permutation_refl).
  assert (Hok : dict_ok (running (mkSpark [(mkApp 1 2 2, (1, 0%Q))] []))).
  { apply (Spark_ok_small [(mkApp 1 2 2, (1, 0%Q))] []); simpl; lia. }
  split; [exact Hperm|]. split; [exact Hok|].
  eexists. split; [vm_compute; reflexivity|]. split; [reflexivity|].
  exact (time_stamps_in_horizon (fun _ => 0) (fun l => l) Hperm
           FIFO _ [mkApp 1 2 2; mkApp 2 1 1] 2 _ Hok eq_refl).
Defined.

(** ** What the classifiers say about a state *)

Lemma existsb_false {A : Type} (f : A -> bool) (l : list A) (x : A) :
  existsb f l = false -> In x l -> f x = false.
Proof.
  intros H Hin. destruct (f x) eqn:F; [|reflexivity].
  assert (existsb f l = true) by (apply existsb_exists; eauto). congruence.
Qed.

Lemma existsb_all_false {A : Type} (f : A -> bool) (l : list A) :
  (forall x, In x l -> f x = false) -> existsb f l = false.
Proof.
  intros H. destruct (existsb f l) eqn:E; [|reflexivity].
  apply existsb_exists in E. destruct E as (x & Hin & Hx). rewrite (H x Hin) in Hx.
  discriminate.
Qed.

(** X14. A state is a non-violation exactly when every job of the list
    has ended within its deadline: if [computeNonViolations] returns
    [True], each job of [apps] is in [ended] with a turnaround of at
    most its deadline; and on a state with disjoint mappings the
    converse holds.  In particular the verdict does not depend on
    [steps]. *)
Theorem NonViolation_is_all_on_time (s : Spark) (apps : list App) (steps : Z) :
  (computeNonViolations s apps steps = true ->
   forall app, In app apps ->
     exists sub fin, dict_get app (ended s) = Some (sub, fin) /\ fin - sub <= deadline app) /\
  (disjoint s ->
   (forall app, In app apps ->
      exists sub fin, dict_get app (ended s) = Some (sub, fin) /\ fin - sub <= deadline app) ->
   computeNonViolations s apps steps = true).
Proof.
  split.
  - unfold computeNonViolations, computeScenarioViolations.
    intros H app Hin.
    apply andb_true_iff in H. destruct H as [H HU].
    apply andb_true_iff in H. destruct H as [HV HS].
    apply negb_true_iff in HV, HS, HU. rewrite HV, HU in HS. cbn [orb] in HS.
    unfold computeViolations in HV. unfold computeUnfeasibility in HU.
    pose proof (existsb_false _ _ app HV Hin) as V. cbv beta in V.
    pose proof (existsb_false _ _ app HU Hin) as U. cbv beta in U.
    pose proof (existsb_false _ _ app HS Hin) as S. cbv beta in S.
    apply orb_false_iff in U. destruct U as [U1 U2].
    unfold dict_mem in U1, S.
    destruct (dict_get app (ended s)) as [[sub fin]|] eqn:E.
    + exists sub, fin. split; [reflexivity|]. cbn [fst snd] in V.
      apply Z.ltb_ge in V. exact V.
    + exfalso. cbn [negb andb] in U1, S.
      destruct (dict_get app (running s)) as [v|]; [|discriminate].
      apply Z.ltb_ge in U2. apply Z.leb_gt in S. lia.
  - intros Hdis Hall.
    assert (HV : computeViolations s apps steps = false).
    { unfold computeViolations. apply existsb_all_false. intros app Hin.
      destruct (Hall app Hin) as (sub & fin & E & Hle). rewrite E. cbn [fst snd].
      apply Z.ltb_ge. exact Hle. }
    assert (HU : computeUnfeasibility s apps steps = false).
    { unfold computeUnfeasibility. apply existsb_all_false. intros app Hin.
      destruct (Hall app Hin) as (sub & fin & E & _).
      assert (Hm : dict_mem app (ended s) = true) by (apply dict_mem_true; eauto).
      rewrite Hm. cbn [negb andb orb].
      destruct (dict_get app (running s)) as [v|] eqn:R; [|reflexivity].
      assert (Hr : dict_mem app (running s) = true) by (apply dict_mem_true; eauto).
      apply Hdis in Hr. congruence. }
    assert (HS : computeScenarioViolations s apps steps = false).
    { unfold computeScenarioViolations. rewrite HV, HU. cbn [orb].
      apply existsb_all_false. intros app Hin.
      destruct (Hall app Hin) as (sub & fin & E & _).
      assert (Hm : dict_mem app (ended s) = true) by (apply dict_mem_true; eauto).
      rewrite Hm. reflexivity. }
    unfold computeNonViolations. rewrite HV, HS, HU. reflexivity.
Qed.

(** ** The error figures *)








(** ** The figures of [computeMetrics] *)

(** [c / n * 100], the percentage the script computes from a count. *)
Lemma percent_nonneg (c n : Z) : 0 <= c -> 0 < n -> (0 <= percent c n)%Q.
Proof.
  intros Hc Hn. unfold percent. apply Qmult_le_0_compat; [|discriminate].
  unfold Qdiv. apply Qmult_le_0_compat.
  - replace 0%Q with (inject_Z 0) by reflexivity. rewrite <- Zle_Qle. exact Hc.
  - apply Qinv_le_0_compat. replace 0%Q with (inject_Z 0) by reflexivity.
    rewrite <- Zle_Qle. lia.
Qed.

Lemma percent_mono (c c' n : Z) : c <= c' -> 0 < n -> (percent c n <= percent c' n)%Q.
Proof.
  intros Hc Hn. unfold percent. apply Qmult_le_compat_r; [|discriminate].
  unfold Qdiv. apply Qmult_le_compat_r.
  - rewrite <- Zle_Qle. exact Hc.
  - apply Qinv_le_0_compat. replace 0%Q with (inject_Z 0) by reflexivity.
    rewrite <- Zle_Qle. lia.
Qed.

Lemma percent_all (n : Z) : 0 < n -> (percent n n == 100)%Q.
Proof.
  intros Hn. unfold percent. field.
  intros H. unfold Qeq in H. simpl in H. lia.
Qed.

Lemma percent_add (a b n : Z) :
  0 < n -> (percent a n + percent b n == percent (a + b) n)%Q.
Proof.
  intros Hn. unfold percent. rewrite inject_Z_plus. field.
  intros H. unfold Qeq in H. simpl in H. lia.
Qed.

Lemma percent_le_100 (c n : Z) : c <= n -> 0 < n -> (percent c n <= 100)%Q.
Proof.
  intros Hc Hn. rewrite <- (percent_all n Hn). apply percent_mono; assumption.
Qed.

Lemma share_value (f : Spark -> bool) (states : list Spark) (pct : Q) :
  share f states = Ok pct ->
  states <> [] /\
  pct = percent (Z.of_nat (length (filter f states))) (Z.of_nat (length states)).
Proof.
  unfold share, py_truediv. destruct (Z.of_nat (length states) =? 0) eqn:E; [discriminate|].
  intros X. injection X as <-. split; [|reflexivity].
  intros ->. discriminate E.
Qed.

Lemma length_filter_le {A : Type} (f : A -> bool) (l : list A) :
  (length (filter f l) <= length l)%nat.
Proof.
  induction l as [|x l IH]; simpl; [lia|]. destruct (f x); simpl; lia.
Qed.

(** Every state falls in exactly one of: non-violation, scenario
    violation, violation or unfeasible. *)
Lemma classifier_counts (states : list Spark) (apps : list App) (steps : Z) :
  (length (filter (fun s => computeNonViolations s apps steps) states)
   + length (filter (fun s => computeScenarioViolations s apps steps) states)
   + length (filter (fun s => computeViolations s apps steps
                              || computeUnfeasibility s apps steps) states)
   = length states)%nat.
Proof.
  induction states as [|s states IH]; simpl; [reflexivity|].
  assert (R1 : computeNonViolations s apps steps
               = negb (computeViolations s apps steps)
                 && negb (computeScenarioViolations s apps steps)
                 && negb (computeUnfeasibility s apps steps)) by reflexivity.
  assert (R2 : computeViolations s apps steps || computeUnfeasibility s apps steps = true ->
               computeScenarioViolations s apps steps = false).
  { unfold computeScenarioViolations. intros ->. reflexivity. }
  destruct (computeViolations s apps steps), (computeUnfeasibility s apps steps),
           (computeScenarioViolations s apps steps), (computeNonViolations s apps steps);
    cbn [orb negb andb length] in *; try lia; try discriminate;
    specialize (R2 eq_refl); discriminate.
Qed.

Lemma tally_app_bounds (s : Spark) (acc : Tally) (app : App) (k : Z) :
  0 <= on_time_tasks acc <= count_tasks acc -> 0 <= total_waiting acc ->
  count_tasks acc <= k ->
  let acc' := tally_app s acc app in
  0 <= on_time_tasks acc' <= count_tasks acc' /\ 0 <= total_waiting acc' /\
  count_tasks acc' <= k + 1.
Proof.
  intros H1 H2 H3. unfold tally_app.
  destruct (dict_get app (ended s)) as [[sub fin]|]; cbv zeta; [|lia].
  cbn [on_time_tasks count_tasks total_waiting].
  destruct (fin - sub <=? deadline app); lia.
Qed.

Lemma tally_apps_bounds (s : Spark) (apps : list App) :
  forall acc k,
    0 <= on_time_tasks acc <= count_tasks acc -> 0 <= total_waiting acc ->
    count_tasks acc <= k ->
    let acc' := fold_left (tally_app s) apps acc in
    0 <= on_time_tasks acc' <= count_tasks acc' /\ 0 <= total_waiting acc' /\
    count_tasks acc' <= k + Z.of_nat (length apps).
Proof.
  induction apps as [|app apps IH]; intros acc k H1 H2 H3; cbv zeta.
  - simpl. lia.
  - cbn [fold_left length].
    destruct (tally_app_bounds s acc app k H1 H2 H3) as (G1 & G2 & G3).
    destruct (IH _ (k + 1) G1 G2 G3) as (F1 & F2 & F3).
    split; [exact F1|]. split; [exact F2|]. lia.
Qed.

Lemma tally_bounds (states : list Spark) (apps : list App) :
  let t := tally states apps in
  0 <= on_time_tasks t <= count_tasks t /\ 0 <= total_waiting t /\
  count_tasks t <= Z.of_nat (length states) * Z.of_nat (length apps).
Proof.
  cbv zeta. unfold tally.
  assert (G : forall acc k,
            0 <= on_time_tasks acc <= count_tasks acc -> 0 <= total_waiting acc ->
            count_tasks acc <= k ->
            let acc' := fold_left (fun acc s => fold_left (tally_app s) apps acc) states acc in
            0 <= on_time_tasks acc' <= count_tasks acc' /\ 0 <= total_waiting acc' /\
            count_tasks acc' <= k + Z.of_nat (length states) * Z.of_nat (length apps)).
  { induction states as [|s states IH]; intros acc k H1 H2 H3; cbv zeta.
    - simpl. lia.
    - cbn [fold_left length].
      destruct (tally_apps_bounds s apps acc k H1 H2 H3) as (G1 & G2 & G3).
      destruct (IH _ _ G1 G2 G3) as (F1 & F2 & F3).
      split; [exact F1|]. split; [exact F2|]. lia. }
  apply (G (mkTally 0 0 0 0) 0); simpl; lia.
Qed.

(** X17. The figures [computeMetrics] returns are consistent.
    [num_states] is the size of the state set and is positive;
    [num_tasks] lies between 0 and [num_states * len(apps)]; each of the
    four category percentages, and the deadline adherence, lies between
    0 and 100; the average waiting time is not negative.  These bounds
    are kept by rounding to [float].  The counts behind the percentages
    are exact: every state is counted in exactly one of non-violations,
    scenario violations, and violations or unfeasibles. *)
Theorem computeMetrics_figures (states : list Spark) (apps : list App) (steps : Z)
    (m : Metrics) :
  computeMetrics states apps steps = Ok m ->
  num_states m = Z.of_nat (length states) /\ 0 < num_states m /\
  0 <= num_tasks m <= num_states m * Z.of_nat (length apps) /\
  (0 <= violations_pct m <= 100)%Q /\
  (0 <= scenario_violations_pct m <= 100)%Q /\
  (0 <= unfeasibles_pct m <= 100)%Q /\
  (0 <= non_violations_pct m <= 100)%Q /\
  (0 <= deadline_adherence_pct m <= 100)%Q /\
  (0 <= avg_waiting_time m)%Q /\
  (length (filter (fun s => computeNonViolations s apps steps) states)
   + length (filter (fun s => computeScenarioViolations s apps steps) states)
   + length (filter (fun s => computeViolations s apps steps
                              || computeUnfeasibility s apps steps) states)
   = length states)%nat.
Proof.
  unfold computeMetrics.
  destruct (sum_errors fst states apps) as [sA|e]; [|discriminate]. cbn [and_then].
  destruct (py_truediv sA _) as [eA|e]; [|discriminate]. cbn [and_then].
  destruct (sum_errors snd states apps) as [sD|e]; [|discriminate]. cbn [and_then].
  destruct (py_truediv sD _) as [eD|e]; [|discriminate]. cbn [and_then].
  destruct (share (fun s => computeViolations s apps steps) states) as [v|e] eqn:Xv;
    [|discriminate]. cbn [and_then].
  destruct (share (fun s => computeScenarioViolations s apps steps) states) as [sv|e] eqn:Xsv;
    [|discriminate]. cbn [and_then].
  destruct (share (fun s => computeUnfeasibility s apps steps) states) as [u|e] eqn:Xu;
    [|discriminate]. cbn [and_then].
  destruct (share (fun s => computeNonViolations s apps steps) states) as [nv|e] eqn:Xnv;
    [|discriminate]. cbn [and_then].
  intros X. injection X as <-.
  cbn [num_states num_tasks violations_pct scenario_violations_pct unfeasibles_pct
       non_violations_pct deadline_adherence_pct avg_waiting_time].
  apply share_value in Xv, Xsv, Xu, Xnv.
  destruct Xv as [Hne ->], Xsv as [_ ->], Xu as [_ ->], Xnv as [_ ->].
  set (n := Z.of_nat (length states)).
  assert (Hn : 0 < n).
  { unfold n. destruct states; [congruence|]. simpl. lia. }
  destruct (tally_bounds states apps) as (T1 & T2 & T3). fold n in T3.
  pose proof (length_filter_le (fun s => computeViolations s apps steps) states) as Lv.
  pose proof (length_filter_le (fun s => computeScenarioViolations s apps steps) states) as Lsv.
  pose proof (length_filter_le (fun s => computeUnfeasibility s apps steps) states) as Lu.
  pose proof (length_filter_le (fun s => computeNonViolations s apps steps) states) as Lnv.
  split; [reflexivity|]. split; [exact Hn|]. split; [lia|].
  split; [split; [apply percent_nonneg | apply percent_le_100]; lia|].
  split; [split; [apply percent_nonneg | apply percent_le_100]; lia|].
  split; [split; [apply percent_nonneg | apply percent_le_100]; lia|].
  split; [split; [apply percent_nonneg | apply percent_le_100]; lia|].
  split.
  { destruct (count_tasks (tally states apps) =? 0) eqn:E; [split; discriminate|].
    apply Z.eqb_neq in E.
    split; [apply percent_nonneg | apply percent_le_100]; lia. }
  split; [|apply classifier_counts].
  destruct (count_tasks (tally states apps) =? 0) eqn:E; [discriminate|].
  apply Z.eqb_neq in E. unfold Qdiv. apply Qmult_le_0_compat.
  - replace 0%Q with (inject_Z 0) by reflexivity. rewrite <- Zle_Qle. exact T2.
  - apply Qinv_le_0_compat. replace 0%Q with (inject_Z 0) by reflexivity.
    rewrite <- Zle_Qle. lia.
Qed.

Lemma computeMetrics_figures_witness :
  let j1 := mkApp 1 2 2 in
  let j2 := mkApp 2 2 1 in
  let states := [mkSpark [] [(j1, (0, 2)); (j2, (0, 3))]; mkSpark [(j2, (2, 0%Q))] [(j1, (0, 2))]] in
  exists m,
    computeMetrics states [j1; j2] 3 = Ok m /\
    num_states m = Z.of_nat (length states) /\ 0 < num_states m /\
    0 <= num_tasks m <= num_states m * Z.of_nat (length [j1; j2]) /\
    (0 <= violations_pct m <= 100)%Q /\
    (0 <= scenario_violations_pct m <= 100)%Q /\
    (0 <= unfeasibles_pct m <= 100)%Q /\
    (0 <= non_violations_pct m <= 100)%Q /\
    (0 <= deadline_adherence_pct m <= 100)%Q /\
    (0 <= avg_waiting_time m)%Q /\
    (length (filter (fun s => computeNonViolations s [j1; j2] 3) states)
     + length (filter (fun s => computeScenarioViolations s [j1; j2] 3) states)
     + length (filter (fun s => computeViolations s [j1; j2] 3
                                || computeUnfeasibility s [j1; j2] 3) states)
     = length states)%nat.
Proof.
  cbv zeta. eexists. split; [vm_compute; reflexivity|].
  apply (computeMetrics_figures _ _ 3). vm_compute. reflexivity.
Defined.

(** ** Successor states *)

Section Successors.

Variable str_hash : string -> Z.

Lemma length_set_add (x : Spark) (l : list Spark) :
  (length (set_add str_hash x l) <= S (length l))%nat.
Proof.
  unfold set_add. destruct (set_mem str_hash x l); [lia|].
  rewrite length_app. simpl. lia.
Qed.

Lemma length_set_union (a b : list Spark) :
  (length (set_union str_hash a b) <= length a + length b)%nat.
Proof.
  unfold set_union. revert a. induction b as [|x b IH]; intros a; simpl; [lia|].
  pose proof (IH (set_add str_hash x a)) as H.
  pose proof (length_set_add x a) as H'. lia.
Qed.

Lemma length_nextStates (apps : list App) (s : Spark) (t : Z) :
  (length (nextStates str_hash apps s t) <= 2 ^ length apps)%nat.
Proof.
  revert s. induction apps as [|app rest IH]; intros s; simpl; [lia|].
  pose proof (length_set_union (nextStates str_hash rest (schedule s app t) t)
                               (nextStates str_hash rest s t)) as H.
  pose proof (IH (schedule s app t)) as H1. pose proof (IH s) as H2. lia.
Qed.

End Successors.

(** The arrivals [schedule] can add at time [t]. *)
Lemma schedule_arrival (s : Spark) (app : App) (t : Z) :
  schedule s app t = s \/
  (present s app = false /\
   schedule s app t = mkSpark (running s ++ [(app, (t, Fraction.of_int 0))]) (ended s)).
Proof.
  unfold schedule. destruct (present s app) eqn:Hp; [left; reflexivity|].
  destruct (has_predecessor _ app); [|left; reflexivity].
  right. split; [reflexivity|].
  apply orb_false_iff in Hp. destruct Hp as [Hp _].
  rewrite (dict_set_absent _ _ _ Hp). reflexivity.
Qed.

(** X18. [nextStates(apps, state, time)] returns at most [2 ^ len(apps)]
    states.  Each of them has the [ended] mapping of [state], and its
    [running] mapping is that of [state] followed by newly arrived jobs
    of [apps], each with submission time [time] and progress 0. *)
Theorem nextStates_successors (str_hash : string -> Z) (apps : list App) (s : Spark)
    (t : Z) :
  (length (nextStates str_hash apps s t) <= 2 ^ length apps)%nat /\
  forall s', In s' (nextStates str_hash apps s t) ->
    ended s' = ended s /\
    exists arrivals,
      running s' = running s ++ arrivals /\
      Forall (fun e => In (fst e) apps /\ snd e = (t, Fraction.of_int 0)) arrivals.
Proof.
  split; [apply length_nextStates|].
  apply (nextStates_preserves_in str_hash
           (fun s' => ended s' = ended s /\
                      exists arrivals,
                        running s' = running s ++ arrivals /\
                        Forall (fun e => In (fst e) apps /\ snd e = (t, Fraction.of_int 0))
                               arrivals)).
  - intros s0 app Happ (He & l & Hr & Hl).
    destruct (schedule_arrival s0 app t) as [->|[_ ->]]; [eauto|].
    cbn [running ended]. split; [exact He|].
    exists (l ++ [(app, (t, Fraction.of_int 0))]). split.
    + rewrite Hr, app_assoc. reflexivity.
    + apply Forall_app. split; [exact Hl|]. constructor; [|constructor].
      split; [exact Happ | reflexivity].
  - split; [reflexivity|]. exists []. split; [rewrite app_nil_r; reflexivity | constructor].
Qed.

(** ** A state with nothing left to do *)

Lemma simulate_loop_idle (str_hash : string -> Z) (set_iter : list Spark -> list Spark) :
  (forall l, Permutation (set_iter l) l) ->
  forall sched s apps,
    Spark_ok s -> running s = [] ->
    (forall app t, In app apps -> schedule s app t = s) ->
    forall times, simulate_loop str_hash set_iter apps sched [s] times = Ok (sched, [s]).
Proof.
  intros Hperm sched s apps Hok Hrun Hstuck.
  induction times as [|t times IH]; [reflexivity|].
  rewrite (simulate_loop_single str_hash set_iter Hperm apps sched sched s s t times).
  - exact IH.
  - unfold tick. rewrite Hrun. reflexivity.
  - exact Hok.
  - apply Forall_forall. intros app Happ. apply Hstuck. exact Happ.
Qed.

(** X19. A state in which no job is running and no job of the list can
    arrive (each is already present, or lacks its predecessor) is a
    fixed point of the exploration: [simulate] returns the set holding
    just that state, for every number of steps and every scheduler,
    also one whose [addProgress] would raise.  The state with two empty
    mappings is such a state for every list of jobs. *)
Theorem idle_state_is_fixed (str_hash : string -> Z)
    (set_iter : list Spark -> list Spark) :
  (forall l, Permutation (set_iter l) l) ->
  (forall sched s apps steps,
     Spark_ok s -> running s = [] ->
     (forall app, In app apps -> id_in (id app) s \/ ~ id_in (id app - 1) s) ->
     simulate str_hash set_iter sched s apps steps = Ok [s]) /\
  (forall sched apps steps,
     simulate str_hash set_iter sched (mkSpark [] []) apps steps = Ok [mkSpark [] []]).
Proof.
  intros Hperm.
  assert (H : forall sched s apps steps,
            Spark_ok s -> running s = [] ->
            (forall app, In app apps -> id_in (id app) s \/ ~ id_in (id app - 1) s) ->
            simulate str_hash set_iter sched s apps steps = Ok [s]).
  { intros sched s apps steps Hok Hrun Hstuck. unfold simulate.
    rewrite (simulate_loop_idle str_hash set_iter Hperm sched s apps Hok Hrun);
      [reflexivity|].
    intros app t Happ. apply schedule_unchanged. apply Hstuck. exact Happ. }
  split; [exact H|].
  intros sched apps steps. apply H.
  - split; constructor.
  - reflexivity.
  - intros app _. right. intros (a & Ha & _). destruct Ha.
Qed.

Lemma idle_state_is_fixed_witness :
  let j1 := mkApp 1 2 2 in
  let j3 := mkApp 3 1 1 in
  let s := mkSpark [] [(j1, (0, 1))] in
  (forall l : list Spark, Permutation l l) /\
  Spark_ok s /\ running s = [] /\
  (forall app, In app [j1; j3] -> id_in (id app) s \/ ~ id_in (id app - 1) s) /\
  simulate (fun _ => 0) (fun l => l) (RoundRobin_init 10) s [j1; j3] 5 = Ok [s] /\
  simulate (fun _ => 0) (fun l => l) FIFO (mkSpark [] []) [j1; j3] 5 = Ok [mkSpark [] []].
Proof.
  cbv zeta.
  assert (Hperm : forall l : list Spark, Permutation l l) by (intros l; apply Permutation_refl).
  assert (Hok : Spark_ok (mkSpark [] [(mkApp 1 2 2, (0, 1))])).
  { apply Spark_ok_small; simpl; lia. }
  assert (Hst : forall app, In app [mkApp 1 2 2; mkApp 3 1 1] ->
                  id_in (id app) (mkSpark [] [(mkApp 1 2 2, (0, 1))]) \/
                  ~ id_in (id app - 1) (mkSpark [] [(mkApp 1 2 2, (0, 1))])).
  { intros app [<-|[<-|[]]].
    - left. exists (mkApp 1 2 2). split; [left; reflexivity | reflexivity].
    - right. intros (a & [<-|[]] & Ha). discriminate Ha. }
  split; [exact Hperm|]. split; [exact Hok|]. split; [reflexivity|]. split; [exact Hst|].
  split.
  - exact (proj1 (idle_state_is_fixed (fun _ => 0) (fun l => l) Hperm)
             (RoundRobin_init 10) _ _ 5 Hok eq_refl Hst).
  - exact (proj2 (idle_state_is_fixed (fun _ => 0) (fun l => l) Hperm) FIFO _ 5).
Defined.

(** ** A job alone *)

Lemma Fraction_make_zero (d : Z) : 0 < d -> Fraction.make 0 d = Fraction.of_int 0.
Proof.
  intros Hd. unfold Fraction.make, Fraction.of_int.
  change (inject_Z 0) with (Qred (inject_Z 0)) at 2. apply Qred_complete.
  unfold Qdiv. apply Qmult_0_l.
Qed.

Lemma Fraction_make_succ (k d : Z) :
  0 < d -> Fraction.add (Fraction.make k d) (Fraction.make 1 d) = Fraction.make (k + 1) d.
Proof.
  intros Hd. unfold Fraction.add, Fraction.make. apply Qred_complete.
  rewrite !Qred_correct, inject_Z_plus. field.
  intros H. unfold Qeq in H. simpl in H. lia.
Qed.

Lemma Fraction_div_one (q : Q) : Fraction.div (Qred q) (Fraction.of_int 1) = Qred q.
Proof.
  unfold Fraction.div, Fraction.of_int. apply Qred_complete.
  rewrite Qred_correct. field.
Qed.

Lemma Fraction_make_finished (k d : Z) :
  0 < d -> Fraction.leb (Fraction.of_int 1) (Fraction.make k d) = (d <=? k).
Proof.
  intros Hd. unfold Fraction.leb, Fraction.of_int, Fraction.make.
  assert (H : Qle_bool (inject_Z 1) (Qred (inject_Z k / inject_Z d)) = true <-> d <= k).
  { rewrite Qle_bool_iff, Qred_correct.
    destruct d as [|p|p]; try lia.
    unfold Qle, Qdiv, Qmult, Qinv, inject_Z. simpl. lia. }
  destruct (Qle_bool _ _), (d <=? k) eqn:E; try reflexivity.
  - apply Z.leb_gt in E. assert (d <= k) by (apply H; reflexivity). lia.
  - apply Z.leb_le in E. apply H in E. discriminate.
Qed.

(** On a dictionary with one job, the policies that hand out the
    nominal rate credit that job with it. *)
Lemma addProgress_lone (sched : Scheduler) (a : App) (sub : Z) (p : Q) (t : Z) :
  In sched [FIFO; Fair; EDFAll; EDFPure; ShortestJobNext; LeastLaxityFirst] ->
  addProgress sched [(a, (sub, p))] t
  = (sched, [(a, (sub, Fraction.add p (nominalRate a)))], Ok tt).
Proof.
  intros H. simpl in H.
  destruct H as [<-|[<-|[<-|[<-|[<-|[<-|[]]]]]]];
    unfold addProgress, exec, lift, FIFO_addProgress, Fair_addProgress, EDFAll_addProgress,
      EDFPure_addProgress, ShortestJobNext_addProgress, LeastLaxityFirst_addProgress,
      laxity, credit, py_min, bind, get_running, getitem, setitem, ret;
    cbn [run self dict_is_empty dict_keys map fst snd for_each select dict_get dict_set length];
    unfold bind, getitem, setitem, ret;
    cbn [run self dict_get dict_set fst snd];
    rewrite ?App_eqb_refl;
    cbn [run self dict_get dict_set fst snd];
    rewrite ?App_eqb_refl;
    cbn [run self dict_get dict_set fst snd];
    rewrite ?App_eqb_refl;
    cbn [run self dict_get dict_set fst snd];
    rewrite ?App_eqb_refl;
    try reflexivity.
  unfold nominalRate at 1, Fraction.make. change (Z.of_nat 1) with 1.
  rewrite Fraction_div_one. reflexivity.
Qed.

Section LoneJob.

Variable str_hash : string -> Z.
Variable set_iter : list Spark -> list Spark.
Hypothesis set_iter_perm : forall l, Permutation (set_iter l) l.

Variable sched : Scheduler.
Hypothesis sched_full :
  In sched [FIFO; Fair; EDFAll; EDFPure; ShortestJobNext; LeastLaxityFirst].
Variable a : App.
Variable sub : Z.
Hypothesis duration_pos : 0 < duration a.

Local Notation "'at_work' k" := (mkSpark [(a, (sub, Fraction.make k (duration a)))] [])
  (at level 10).
Local Notation "'done'" := (mkSpark [] [(a, (sub, duration a - 1))]).

Lemma tick_lone (k t : Z) :
  tick sched (at_work k) t
  = Ok (sched, if duration a <=? k + 1 then mkSpark [] [(a, (sub, t))]
               else at_work (k + 1)).
Proof.
  unfold tick. cbn [running ended dict_is_empty].
  rewrite (addProgress_lone sched a sub _ t sched_full).
  unfold nominalRate. rewrite (Fraction_make_succ k _ duration_pos).
  unfold tick_finish, tick_retire. cbn [fold_left fst snd].
  rewrite (Fraction_make_finished _ _ duration_pos).
  destruct (duration a <=? k + 1).
  - cbn [dict_set dict_keys map fst fold_left]. unfold dict_mem. cbn [dict_get].
    rewrite App_eqb_refl. unfold dict_del. cbn [filter fst]. rewrite App_eqb_refl.
    reflexivity.
  - reflexivity.
Qed.

Lemma lone_present (s : Spark) (t : Z) :
  present s a = true -> Forall (fun app => schedule s app t = s) [a].
Proof.
  intros H. constructor; [|constructor]. unfold schedule. rewrite H. reflexivity.
Qed.

Lemma simulate_loop_lone :
  forall n K,
    Z.of_nat K < duration a ->
    simulate_loop str_hash set_iter [a] sched [at_work (Z.of_nat K)]
                  (map Z.of_nat (seq K n))
    = Ok (sched, [if Z.of_nat (K + n) <? duration a
                  then at_work (Z.of_nat (K + n)) else done]).
Proof.
  induction n as [|n IH]; intros K HK.
  - simpl. rewrite Nat.add_0_r.
    replace (Z.of_nat K <? duration a) with true by (symmetry; apply Z.ltb_lt; exact HK).
    reflexivity.
  - cbn [seq map].
    rewrite (simulate_loop_single str_hash set_iter set_iter_perm [a] sched sched
               (at_work (Z.of_nat K))
               (if duration a <=? Z.of_nat K + 1 then mkSpark [] [(a, (sub, Z.of_nat K))]
                else at_work (Z.of_nat K + 1))).
    + destruct (duration a <=? Z.of_nat K + 1) eqn:E.
      * apply Z.leb_le in E.
        replace (Z.of_nat K) with (duration a - 1) at 1 by lia.
        rewrite (simulate_loop_idle str_hash set_iter set_iter_perm).
        -- replace (Z.of_nat (K + S n) <? duration a) with false
             by (symmetry; apply Z.ltb_ge; lia).
           reflexivity.
        -- apply Spark_ok_small; simpl; lia.
        -- reflexivity.
        -- intros app t [<-|[]]. unfold schedule, present, dict_mem. cbn [running ended dict_get].
           rewrite App_eqb_refl. reflexivity.
      * apply Z.leb_gt in E.
        replace (Z.of_nat K + 1) with (Z.of_nat (S K)) by lia.
        rewrite (IH (S K)) by lia.
        replace (S K + n)%nat with (K + S n)%nat by lia. reflexivity.
    + apply tick_lone.
    + destruct (duration a <=? Z.of_nat K + 1); apply Spark_ok_small; simpl; lia.
    + apply lone_present.
      destruct (duration a <=? Z.of_nat K + 1); unfold present, dict_mem;
        cbn [running ended dict_get]; rewrite App_eqb_refl; reflexivity.
Qed.

End LoneJob.

(** X20. A job that is alone.  Under a policy that hands out the
    nominal rate ([FIFO], [Fair], [EDFAll], [EDFPure],
    [ShortestJobNext], [LeastLaxityFirst]), the exploration from a seed
    that holds one running job of duration [d > 0] at progress 0, over
    the list made of that job, returns one state: after [steps + 1]
    ticks the job has progress [(steps + 1) / d] if that is below 1, and
    otherwise it has ended with finish time [d - 1], whatever its
    submission time: the first tick, at time 0, already serves it. *)
Theorem lone_job_finishes (str_hash : string -> Z)
    (set_iter : list Spark -> list Spark) :
  (forall l, Permutation (set_iter l) l) ->
  forall sched a sub steps,
    In sched [FIFO; Fair; EDFAll; EDFPure; ShortestJobNext; LeastLaxityFirst] ->
    0 < duration a -> 0 <= steps ->
    simulate str_hash set_iter sched (mkSpark [(a, (sub, Fraction.of_int 0))] []) [a] steps
    = Ok [if steps + 1 <? duration a
          then mkSpark [(a, (sub, Fraction.make (steps + 1) (duration a)))] []
          else mkSpark [] [(a, (sub, duration a - 1))]].
Proof.
  intros Hperm sched a sub steps Hs Hd Hsteps. unfold simulate, py_range.
  rewrite <- (Fraction_make_zero (duration a) Hd).
  change 0 with (Z.of_nat 0) at 1.
  rewrite (simulate_loop_lone str_hash set_iter Hperm sched Hs a sub Hd) by (simpl; lia).
  replace (Z.of_nat (0 + Z.to_nat (steps + 1))) with (steps + 1) by lia.
  reflexivity.
Qed.

Lemma lone_job_finishes_witness :
  let a := mkApp 1 3 2 in
  (forall l : list Spark, Permutation l l) /\
  In LeastLaxityFirst [FIFO; Fair; EDFAll; EDFPure; ShortestJobNext; LeastLaxityFirst] /\
  0 < duration a /\ 0 <= 5 /\
  simulate (fun _ => 0) (fun l => l) LeastLaxityFirst
           (mkSpark [(a, (4, Fraction.of_int 0))] []) [a] 5
  = Ok [mkSpark [] [(a, (4, 2))]].
Proof.
  cbv zeta.
  assert (Hperm : forall l : list Spark, Permutation l l) by (intros l; apply Permutation_refl).
  assert (Hin : In LeastLaxityFirst
                   [FIFO; Fair; EDFAll; EDFPure; ShortestJobNext; LeastLaxityFirst])
    by (simpl; tauto).
  split; [exact Hperm|]. split; [exact Hin|]. split; [reflexivity|]. split; [lia|].
  exact (lone_job_finishes (fun _ => 0) (fun l => l) Hperm LeastLaxityFirst
           (mkApp 1 3 2) 4 5 Hin eq_refl ltac:(lia)).
Defined.

(** ** Equality of states *)

Lemma dict_eqb_ids {V : Type} (veq : V -> V -> bool) (d1 d2 : dict V) :
  dict_eqb veq d1 d2 = true ->
  incl (map id (dict_keys d1)) (map id (dict_keys d2)).
Proof.
  unfold dict_eqb. intros H. apply andb_true_iff in H. destruct H as [_ F].
  rewrite forallb_forall in F. intros i Hi.
  unfold dict_keys in Hi. rewrite map_map in Hi. apply in_map_iff in Hi.
  destruct Hi as ([k v] & <- & Hin). specialize (F _ Hin). cbn [fst snd] in *.
  destruct (dict_get k d2) as [w|] eqn:G; [|discriminate].
  destruct (dict_get_In _ _ _ G) as (k' & Hin' & E). apply App_eqb_eq in E. rewrite E.
  unfold dict_keys. rewrite map_map. apply in_map_iff. exists (k', w). auto.
Qed.

Lemma dict_eqb_sym {V : Type} (veq : V -> V -> bool) (d1 d2 : dict V) :
  (forall u v, veq u v = veq v u) ->
  dict_ok d1 -> dict_ok d2 ->
  dict_eqb veq d1 d2 = true -> dict_eqb veq d2 d1 = true.
Proof.
  intros Hsym Hok1 Hok2 H. pose proof (dict_eqb_ids _ _ _ H) as Hincl.
  unfold dict_eqb in *. apply andb_true_iff in H. destruct H as [L F].
  apply Nat.eqb_eq in L. rewrite forallb_forall in F.
  apply andb_true_iff. split; [apply Nat.eqb_eq; congruence|].
  assert (Hback : incl (map id (dict_keys d2)) (map id (dict_keys d1))).
  { apply NoDup_length_incl; [exact Hok1| |exact Hincl].
    unfold dict_keys. rewrite !length_map. lia. }
  apply forallb_forall. intros [k2 v2] Hin2. cbn [fst snd].
  assert (Hid : In (id k2) (map id (dict_keys d1))).
  { apply Hback. unfold dict_keys. rewrite map_map. apply in_map_iff.
    exists (k2, v2). auto. }
  unfold dict_keys in Hid. rewrite map_map in Hid. apply in_map_iff in Hid.
  destruct Hid as ([k1 v1] & Eid & Hin1). cbn [fst] in Eid.
  assert (E : App_eqb k2 k1 = true) by (apply App_eqb_eq; congruence).
  rewrite (dict_get_congr _ _ d1 E), (dict_ok_get _ _ _ Hok1 Hin1).
  specialize (F _ Hin1). cbn [fst snd] in F.
  rewrite <- (dict_get_congr _ _ d2 E), (dict_ok_get _ _ _ Hok2 Hin2) in F.
  rewrite Hsym. exact F.
Qed.

Lemma dict_eqb_lookup {V : Type} (veq : V -> V -> bool) (d1 d2 : dict V) :
  (forall u v, veq u v = veq v u) ->
  dict_ok d1 -> dict_ok d2 ->
  dict_eqb veq d1 d2 = true ->
  forall a, same_entry veq (dict_get a d1) (dict_get a d2).
Proof.
  intros Hsym Hok1 Hok2 H a.
  assert (G : forall (x y : dict V), dict_eqb veq x y = true ->
              forall v, dict_get a x = Some v ->
                exists w, dict_get a y = Some w /\ veq v w = true).
  { intros x y Hxy v Hv. unfold dict_eqb in Hxy. apply andb_true_iff in Hxy.
    destruct Hxy as [_ F]. rewrite forallb_forall in F.
    destruct (dict_get_In _ _ _ Hv) as (k & Hin & E).
    specialize (F _ Hin). cbn [fst snd] in F. rewrite (dict_get_congr _ _ y E).
    destruct (dict_get k y) as [w|]; [eauto | discriminate]. }
  unfold same_entry. destruct (dict_get a d1) as [v|] eqn:G1.
  - destruct (G d1 d2 H v G1) as (w & -> & Hw). exact Hw.
  - destruct (dict_get a d2) as [w|] eqn:G2; [|exact Logic.I].
    destruct (G d2 d1 (dict_eqb_sym _ _ _ Hsym Hok1 Hok2 H) w G2) as (v & Hv & _).
    congruence.
Qed.

Lemma running_value_eqb_sym (u v : Z * Q) : running_value_eqb u v = running_value_eqb v u.
Proof.
  unfold running_value_eqb, Fraction.eqb. rewrite (Z.eqb_sym (fst u)). f_equal.
  destruct (Qeq_bool (snd u) (snd v)) eqn:E1, (Qeq_bool (snd v) (snd u)) eqn:E2;
    try reflexivity.
  - apply Qeq_bool_iff in E1. symmetry in E1. apply Qeq_bool_iff in E1. congruence.
  - apply Qeq_bool_iff in E2. symmetry in E2. apply Qeq_bool_iff in E2. congruence.
Qed.

Lemma ended_value_eqb_sym (u v : Z * Z) : ended_value_eqb u v = ended_value_eqb v u.
Proof.
  unfold ended_value_eqb. rewrite (Z.eqb_sym (fst u)), (Z.eqb_sym (snd u)). reflexivity.
Qed.

(** X21. [Spark.__eq__] is an equivalence on states whose mappings have
    no duplicate key: reflexive, symmetric and transitive.  Two such
    states that are equal answer every lookup alike: a job is running in
    both or in neither, with the same submission time and an equal
    progress, and likewise for [ended].  The order of insertion plays no
    part. *)
Theorem Spark_eq_is_equivalence :
  (forall s, Spark_ok s -> Spark_eqb s s = true) /\
  (forall s1 s2, Spark_ok s1 -> Spark_ok s2 ->
     Spark_eqb s1 s2 = true -> Spark_eqb s2 s1 = true) /\
  (forall s1 s2 s3,
     Spark_eqb s1 s2 = true -> Spark_eqb s2 s3 = true -> Spark_eqb s1 s3 = true) /\
  (forall s1 s2, Spark_ok s1 -> Spark_ok s2 -> Spark_eqb s1 s2 = true ->
     forall a,
       same_entry running_value_eqb (dict_get a (running s1)) (dict_get a (running s2)) /\
       same_entry ended_value_eqb (dict_get a (ended s1)) (dict_get a (ended s2))).
Proof.
  split; [exact Spark_eqb_refl|]. split; [|split; [exact Spark_eqb_trans|]].
  - intros s1 s2 [R1 E1] [R2 E2]. unfold Spark_eqb. rewrite !andb_true_iff.
    intros [HR HE]. split.
    + exact (dict_eqb_sym _ _ _ running_value_eqb_sym R1 R2 HR).
    + exact (dict_eqb_sym _ _ _ ended_value_eqb_sym E1 E2 HE).
  - intros s1 s2 [R1 E1] [R2 E2]. unfold Spark_eqb. rewrite !andb_true_iff.
    intros [HR HE] a. split.
    + exact (dict_eqb_lookup _ _ _ running_value_eqb_sym R1 R2 HR a).
    + exact (dict_eqb_lookup _ _ _ ended_value_eqb_sym E1 E2 HE a).
Qed.

(** ** No job ends before its duration has passed *)

Lemma In_dict_set_present {V : Type} (b k : App) (v0 v w : V) (d : dict V) :
  dict_ok d -> In (b, v0) d ->
  In (k, w) (dict_set b v d) -> In (k, w) d \/ (k = b /\ w = v).
Proof.
  induction d as [|[k0 x0] d IH]; simpl; [intros _ []|].
  intros Hok Hb. apply dict_ok_cons in Hok. destruct Hok as [Hk0 Hok].
  destruct (App_eqb b k0) eqn:E; simpl.
  - assert (b = k0).
    { destruct Hb as [Hb|Hb]; [congruence|]. apply In_dict_mem in Hb.
      rewrite (dict_mem_congr _ _ _ E) in Hb. congruence. }
    subst k0. intros [H|H]; [|auto]. injection H as <- <-. auto.
  - intros [H|H]; [auto|].
    destruct Hb as [Hb|Hb].
    + injection Hb as -> _. rewrite App_eqb_refl in E. discriminate.
    + destruct (IH Hok Hb H) as [H'|H']; auto.
Qed.

Lemma credit_once_wp {Self : Type} (pick : M Self App) (E : Mem Self -> Prop)
    (m : Mem Self) :
  wp pick (fun a m' => m' = m /\ In a (dict_keys (run m))) E m ->
  wp (a <- pick ;; credit a (nominalRate a))
     (fun _ m' => self m' = self m /\ credited_once (run m) (run m')) E m.
Proof.
  intros H. apply wp_bind. eapply wp_mono; [| |exact H]; [|auto].
  intros a m' [-> Hin]. apply wp_credit.
  destruct (In_keys_get _ _ Hin) as [v Hv]. rewrite Hv. cbn [self run].
  split; [reflexivity|]. right. exists a, v. auto.
Qed.

Lemma exec_wp_ok {Self : Type} (c : M Self unit) (o : Self) (running : RDict)
    (Q : Mem Self -> Prop) :
  wp c (fun _ => Q) (fun _ => True) (mkMem o running) ->
  forall o' r' u, exec c o running = (o', r', Ok u) -> Q (mkMem o' r').
Proof.
  unfold wp, exec. destruct (c (mkMem o running)) as [[o1 r1] [u1|e]]; intros H o' r' u X.
  - injection X as <- <-. exact H.
  - discriminate.
Qed.

(** A policy that picks one job with [min] or [max], by a key that only
    reads the state, and credits it with its nominal rate. *)
Lemma selecting_wp {Self K : Type}
    (choose : (K -> K -> bool) -> (App -> M Self K) -> list App -> M Self App)
    (lt : K -> K -> bool) (key : App -> M Self K) (m : Mem Self) :
  choose = py_min \/ choose = py_max ->
  (forall a, exists o, key a m = (m, lookup_result o)) ->
  wp (running <- get_running ;;
      if dict_is_empty running then ret tt else
      a <- choose lt key (dict_keys running) ;; credit a (nominalRate a))
     (fun _ m' => self m' = self m /\ credited_once (run m) (run m')) (fun _ => True) m.
Proof.
  intros Hch Hkey. apply wp_bind, wp_get_running.
  destruct (dict_is_empty (run m)) eqn:Emp.
  - apply wp_ret. split; [reflexivity | left; reflexivity].
  - apply credit_once_wp.
    assert (Hk : forall a m0, In a (dict_keys (run m)) -> m0 = m ->
                   wp (key a) (fun _ m' => m' = m) (fun _ => True) m0).
    { intros a m0 _ ->. destruct (Hkey a) as [o Ho]. unfold wp. rewrite Ho.
      destruct o; [reflexivity | exact Logic.I]. }
    assert (Hne : dict_keys (run m) <> []).
    { destruct (run m); [discriminate Emp | discriminate]. }
    destruct Hch as [->| ->].
    + apply (wp_py_min lt key (fun m' => m' = m) (fun _ => True)); [exact Hk|exact Hne|reflexivity].
    + apply (wp_py_max lt key (fun m' => m' = m) (fun _ => True)); [exact Hk|exact Hne|reflexivity].
Qed.

(** What one call of a nominal-rate policy does to an entry: nothing,
    or one credit of the nominal rate, or of an equal share of it. *)
Lemma addProgress_nominal (sched sched' : Scheduler) (running running' : RDict)
    (t : Z) (u : unit) :
  nominal sched = true -> dict_ok running ->
  addProgress sched running t = (sched', running', Ok u) ->
  sched' = sched /\
  forall k sub p', In (k, (sub, p')) running' ->
    exists p, In (k, (sub, p)) running /\
      (p' = p \/ p' = Fraction.add p (nominalRate k) \/
       p' = Fraction.add p (Fraction.div (nominalRate k)
                              (Fraction.of_int (Z.of_nat (length running))))).
Proof.
  intros Hnom Hok.
  assert (Hone : forall r', credited_once running r' ->
            forall k sub p', In (k, (sub, p')) r' ->
              exists p, In (k, (sub, p)) running /\
                (p' = p \/ p' = Fraction.add p (nominalRate k) \/
                 p' = Fraction.add p (Fraction.div (nominalRate k)
                                        (Fraction.of_int (Z.of_nat (length running)))))).
  { intros r' [->|(best & v & Hb & Hv & ->)] k sub p' Hin; [eauto|].
    unfold dict_keys in Hb. apply in_map_iff in Hb. destruct Hb as ([b v0] & <- & Hb).
    cbn [fst] in *.
    assert (v0 = v) by (pose proof (dict_ok_get _ _ _ Hok Hb); congruence). subst v0.
    destruct (In_dict_set_present _ _ _ _ _ _ Hok Hb Hin) as [H|[-> H]]; [eauto|].
    destruct v as [sb p]. injection H as -> ->. cbn [fst snd]. eauto. }
  assert (Hall : forall g, running' = credit_all g running ->
            forall k sub p', In (k, (sub, p')) running' ->
              exists p, In (k, (sub, p)) running /\ p' = Fraction.add p (g k)).
  { intros g -> k sub p' Hin. unfold credit_all in Hin. apply in_map_iff in Hin.
    destruct Hin as ([k0 [sb p]] & H & Hin). cbn [fst snd] in H.
    injection H as <- <- <-. eauto. }
  assert (Hsel : forall (Self : Type) (c : M Self unit) (o o' : Self),
            wp c (fun _ m' => self m' = o /\ credited_once running (run m'))
               (fun _ => True) (mkMem o running) ->
            exec c o running = (o', running', Ok u) ->
            o' = o /\ credited_once running running').
  { intros Self c o o' W X. exact (exec_wp_ok c o running _ W o' running' u X). }
  destruct sched as [| | | |o| | |priorities|o]; try discriminate Hnom.
  - unfold addProgress, lift.
    destruct (exec _ _ _) as [[o1 r1] res1] eqn:X. intros Y. injection Y as <- <- ->.
    split; [reflexivity|]. apply Hone.
    apply (Hsel unit (FIFO_addProgress t) tt o1); [|exact X].
    apply (selecting_wp py_min Z.ltb); [auto|]. intros a. eexists.
    apply (getitem_fst_pure running a).
  - rewrite (Fair_run running t Hok). intros Y. injection Y as <- <-.
    split; [reflexivity|]. intros k sub p' Hin.
    destruct (Hall _ eq_refl k sub p' Hin) as (p & Hp & ->). eauto.
  - rewrite (EDFAll_run running t Hok). intros Y. injection Y as <- <-.
    split; [reflexivity|]. intros k sub p' Hin.
    destruct (Hall _ eq_refl k sub p' Hin) as (p & Hp & ->). eauto.
  - unfold addProgress, lift.
    destruct (exec _ _ _) as [[o1 r1] res1] eqn:X. intros Y. injection Y as <- <- ->.
    split; [reflexivity|]. apply Hone.
    apply (Hsel unit (EDFPure_addProgress t) tt o1); [|exact X].
    apply (selecting_wp py_min Z.ltb); [auto|]. intros a.
    exists (Some (deadline a)). reflexivity.
  - unfold addProgress, lift.
    destruct (exec _ _ _) as [[o1 r1] res1] eqn:X. intros Y. injection Y as <- <- ->.
    split; [reflexivity|]. apply Hone.
    apply (Hsel unit (ShortestJobNext_addProgress t) tt o1); [|exact X].
    apply (selecting_wp py_min Z.ltb); [auto|]. intros a.
    exists (Some (duration a)). reflexivity.
  - unfold addProgress, lift.
    destruct (exec _ _ _) as [[o1 r1] res1] eqn:X. intros Y. injection Y as <- <- ->.
    split; [reflexivity|]. apply Hone.
    apply (Hsel unit (LeastLaxityFirst_addProgress t) tt o1); [|exact X].
    apply (selecting_wp py_min Fraction.ltb); [auto|]. intros a. eexists.
    apply (laxity_pure t running a).
  - unfold addProgress, lift.
    destruct (exec _ _ _) as [[o1 r1] res1] eqn:X. intros Y. injection Y as <- <- ->.
    destruct (Hsel (dict Z) (PriorityScheduler_addProgress t) priorities o1) as [-> Hc];
      [|exact X|].
    + apply (selecting_wp py_max Z.ltb); [auto|]. intros a. eexists.
      apply priority_of_pure.
    + split; [reflexivity|]. apply Hone. exact Hc.
Qed.

Lemma pace_step (p p' : Q) (d n c : Z) :
  0 < d -> 1 <= n ->
  (p * inject_Z d <= inject_Z c)%Q ->
  p' = p \/ p' = Fraction.add p (Fraction.make 1 d) \/
  p' = Fraction.add p (Fraction.div (Fraction.make 1 d) (Fraction.of_int n)) ->
  (p' * inject_Z d <= inject_Z (c + 1))%Q.
Proof.
  intros Hd Hn Hp Hcase.
  assert (Hdq : ~ (inject_Z d == 0)%Q).
  { intros H. unfold Qeq in H. simpl in H. lia. }
  assert (Hnq : ~ (inject_Z n == 0)%Q).
  { intros H. unfold Qeq in H. simpl in H. lia. }
  assert (Hinv : (/ inject_Z n <= 1)%Q).
  { destruct n as [|q|q]; try lia. unfold Qle, Qinv, inject_Z. simpl. lia. }
  assert (Hninv : (0 <= / inject_Z n)%Q).
  { apply Qinv_le_0_compat. replace 0%Q with (inject_Z 0) by reflexivity.
    rewrite <- Zle_Qle. lia. }
  rewrite inject_Z_plus.
  assert (H : exists e, (p' * inject_Z d == p * inject_Z d + e)%Q /\ (e <= 1)%Q).
  { destruct Hcase as [->|[->| ->]].
    - exists 0%Q. split; [ring | discriminate].
    - exists 1%Q. split; [|apply Qle_refl].
      unfold Fraction.add, Fraction.make. rewrite !Qred_correct. field. exact Hdq.
    - exists (/ inject_Z n)%Q. split; [|exact Hinv].
      unfold Fraction.add, Fraction.div, Fraction.make, Fraction.of_int.
      rewrite !Qred_correct. field. split; assumption. }
  destruct H as (e & -> & He). apply Qplus_le_compat; assumption.
Qed.

Lemma tick_paced (seed : Spark) (apps : list App) (sched sched' : Scheduler)
    (s s' : Spark) (t : Z) :
  (forall a, In a apps -> 0 < duration a) ->
  nominal sched = true -> paced seed apps t s ->
  tick sched s t = Ok (sched', s') ->
  nominal sched' = true /\ paced seed apps (t + 1) s'.
Proof.
  intros Hdur Hnom (Hok & Hdis & Hpres & Hrun & Hend) T.
  assert (Hok' : Spark_ok s') by (eapply tick_Spark_ok; eassumption).
  assert (Hdis' : disjoint s') by exact (tick_disjoint _ _ _ _ _ T).
  assert (Hpres' : forall a, present seed a = true -> present s' a = true).
  { intros a Ha. rewrite (tick_present _ _ _ _ _ a T). apply Hpres. exact Ha. }
  revert T. unfold tick. destruct (dict_is_empty (running s)) eqn:Emp.
  - intros X. injection X as <- <-. split; [exact Hnom|].
    split; [exact Hok|]. split; [exact Hdis|]. split; [exact Hpres|]. split; [|exact Hend].
    destruct (running s); [intros k sub p []|discriminate Emp].
  - destruct (addProgress sched (running s) t) as [[sched1 r1] [u|e]] eqn:AP;
      [|discriminate].
    intros X. injection X as <- <-.
    destruct Hok as [Hokr Hoke].
    destruct (addProgress_nominal _ _ _ _ _ _ Hnom Hokr AP) as [-> Hentries].
    apply addProgress_keeps in AP. destruct AP as [K _].
    assert (Hok1 : dict_ok r1) by (apply (dict_ok_keys (running s)); assumption).
    destruct (tick_loops t r1 (ended s) Hok1) as [He Hr].
    { intros app Hm. apply Hdis. rewrite dict_mem_existsb in *. rewrite <- K. exact Hm. }
    cbv zeta in Hr.
    assert (Hlen : 1 <= Z.of_nat (length (running s))).
    { destruct (running s); [discriminate Emp | simpl; lia]. }
    assert (Hbound : forall k sub p', In (k, (sub, p')) r1 -> present seed k = false ->
              In k apps /\ (p' * inject_Z (duration k) <= inject_Z (t - sub))%Q).
    { intros k sub p' Hin Hk. destruct (Hentries k sub p' Hin) as (p & Hp & Hcase).
      destruct (Hrun k sub p Hp Hk) as [Happ Hb]. split; [exact Happ|].
      replace (t - sub) with (t - 1 - sub + 1) by lia.
      apply (pace_step p p' (duration k) (Z.of_nat (length (running s)))
               (t - 1 - sub) (Hdur k Happ) Hlen Hb Hcase). }
    split; [exact Hnom|].
    split; [exact Hok'|]. split; [exact Hdis'|]. split; [exact Hpres'|].
    cbn [running ended]. split.
    + rewrite Hr. intros k sub p' Hin Hk. apply filter_In in Hin. destruct Hin as [Hin _].
      replace (t + 1 - 1 - sub) with (t - sub) by lia. exact (Hbound k sub p' Hin Hk).
    + rewrite He. intros k sub fin Hin Hk. apply in_app_or in Hin.
      destruct Hin as [Hin|Hin]; [exact (Hend k sub fin Hin Hk)|].
      apply in_map_iff in Hin. destruct Hin as ([k0 [sb p']] & H & Hin).
      cbn [fst snd] in H. injection H as -> -> ->.
      apply filter_In in Hin. destruct Hin as [Hin Hfin].
      destruct (Hbound k sub p' Hin Hk) as [Happ Hb].
      unfold finished, Fraction.leb, Fraction.of_int in Hfin. cbn [snd] in Hfin.
      apply Qle_bool_iff in Hfin.
      assert (Hd : (inject_Z (duration k) <= inject_Z (fin - sub))%Q).
      { apply Qle_trans with (p' * inject_Z (duration k))%Q; [|exact Hb].
        rewrite <- (Qmult_1_l (inject_Z (duration k))) at 1.
        apply Qmult_le_compat_r; [exact Hfin|].
        replace 0%Q with (inject_Z 0) by reflexivity. rewrite <- Zle_Qle.
        pose proof (Hdur k Happ). lia. }
      rewrite <- Zle_Qle in Hd. exact Hd.
Qed.

Lemma schedule_paced (seed : Spark) (apps : list App) (s : Spark) (app : App) (t : Z) :
  In app apps -> paced seed apps (t + 1) s -> paced seed apps (t + 1) (schedule s app t).
Proof.
  intros Happ (Hok & Hdis & Hpres & Hrun & Hend).
  split; [apply schedule_Spark_ok; exact Hok|].
  split; [apply schedule_disjoint; exact Hdis|].
  split; [intros a Ha; apply schedule_present; apply Hpres; exact Ha|].
  destruct (schedule_arrival s app t) as [->|[Hp ->]]; [split; assumption|].
  cbn [running ended]. split; [|exact Hend].
  intros k sub p Hin Hk. apply in_app_or in Hin. destruct Hin as [Hin|[Hin|[]]].
  - exact (Hrun k sub p Hin Hk).
  - injection Hin as <- <- <-. split; [exact Happ|].
    replace (t + 1 - 1 - t) with 0 by lia. unfold Fraction.of_int.
    rewrite Qmult_0_l. apply Qle_refl.
Qed.

(** X22. No job ends before its duration has passed.  Under a policy
    that hands out at most the nominal rate per tick ([FIFO], [Fair],
    [EDFAll], [EDFPure], [ShortestJobNext], [LeastLaxityFirst],
    [PriorityScheduler]), with jobs of positive duration and a seed
    whose mappings are duplicate-free and disjoint, every job that
    arrived during the exploration and has ended has a turnaround
    [finish - submission] of at least its duration; so the waiting time
    [max(0, turnaround - duration)] of [computeMetrics] is
    [turnaround - duration] for it. *)
Theorem no_early_finish (str_hash : string -> Z)
    (set_iter : list Spark -> list Spark) :
  (forall l, Permutation (set_iter l) l) ->
  forall sched seed apps steps states,
    nominal sched = true ->
    Spark_ok seed -> disjoint seed ->
    (forall a, In a apps -> 0 < duration a) ->
    simulate str_hash set_iter sched seed apps steps = Ok states ->
    forall s k sub fin,
      In s states -> In (k, (sub, fin)) (ended s) -> present seed k = false ->
      duration k <= fin - sub /\
      Z.max 0 (fin - sub - duration k) = fin - sub - duration k.
Proof.
  intros Hperm sched seed apps steps states Hnom Hok Hdis Hdur Hsim s k sub fin Hs Hin Hk.
  assert (H : paced seed apps (Z.max 0 (steps + 1)) s).
  { apply (simulate_indexed str_hash set_iter Hperm apps (Z.max 0 (steps + 1))
             (fun sc => nominal sc = true) (paced seed apps))
      with (sched := sched) (initial := seed) (steps := steps) (states := states).
    - intros sc sc' s0 s1 t _ Hsc H0 T. exact (tick_paced _ _ _ _ _ _ _ Hdur Hsc H0 T).
    - intros s0 app t _ Happ. apply schedule_paced. exact Happ.
    - lia.
    - exact Hnom.
    - split; [exact Hok|]. split; [exact Hdis|]. split; [auto|]. split.
      + intros x sb p Hx Hpx. exfalso. apply orb_false_iff in Hpx. destruct Hpx as [Hpx _].
        apply In_dict_mem in Hx. congruence.
      + intros x sb fn Hx Hpx. exfalso. apply orb_false_iff in Hpx. destruct Hpx as [_ Hpx].
        apply In_dict_mem in Hx. congruence.
    - exact Hsim.
    - exact Hs. }
  destruct H as (_ & _ & _ & _ & Hend). pose proof (Hend k sub fin Hin Hk). lia.
Qed.

Lemma no_early_finish_witness :
  let j1 := mkApp 1 2 2 in
  let j2 := mkApp 2 1 1 in
  let seed := mkSpark [(j1, (1, 0%Q))] [] in
  (forall l : list Spark, Permutation l l) /\
  nominal EDFAll = true /\ Spark_ok seed /\ disjoint seed /\
  (forall a, In a [j1; j2] -> 0 < duration a) /\
  exists states,
    simulate (fun _ => 0) (fun l => l) EDFAll seed [j1; j2] 2 = Ok states /\
    length states = 4%nat /\
    forall s k sub fin,
      In s states -> In (k, (sub, fin)) (ended s) -> present seed k = false ->
      duration k <= fin - sub /\
      Z.max 0 (fin - sub - duration k) = fin - sub - duration k.
Proof.
  cbv zeta.
  assert (Hperm : forall l : list Spark, Permutation l l) by (intros l; apply Permutation_refl).
  assert (Hok : Spark_ok (mkSpark [(mkApp 1 2 2, (1, 0%Q))] [])).
  { apply Spark_ok_small; simpl; lia. }
  assert (Hdis : disjoint (mkSpark [(mkApp 1 2 2, (1, 0%Q))] [])).
  { intros app _. reflexivity. }
  assert (Hdur : forall a, In a [mkApp 1 2 2; mkApp 2 1 1] -> 0 < duration a).
  { intros a [<-|[<-|[]]]; reflexivity. }
  split; [exact Hperm|]. split; [reflexivity|]. split; [exact Hok|]. split; [exact Hdis|].
  split; [exact Hdur|].
  eexists. split; [vm_compute; reflexivity|]. split; [reflexivity|].
  exact (no_early_finish (fun _ => 0) (fun l => l) Hperm
           EDFAll _ [mkApp 1 2 2; mkApp 2 1 1] 2 _ eq_refl Hok Hdis Hdur eq_refl).
Defined.

(** ** The exploration at its bounds *)

(** X23. [simulate] at its bounds.  With a negative number of steps the
    loop body never runs and the result is the set holding just the
    initial state, whatever the scheduler.  With an empty list of jobs
    no job ever arrives, so whenever [simulate] returns, the set holds
    exactly one state. *)
Theorem simulate_at_bounds (str_hash : string -> Z)
    (set_iter : list Spark -> list Spark) :
  (forall l, Permutation (set_iter l) l) ->
  (forall sched initial apps steps,
     steps < 0 -> simulate str_hash set_iter sched initial apps steps = Ok [initial]) /\
  (forall sched initial steps states,
     simulate str_hash set_iter sched initial [] steps = Ok states ->
     exists s, states = [s]).
Proof.
  intros Hperm. split.
  - intros sched initial apps steps Hneg. unfold simulate, py_range.
    replace (Z.to_nat (steps + 1)) with O by lia. reflexivity.
  - intros sched initial steps states. unfold simulate.
    generalize (py_range (steps + 1)). intros times.
    destruct (simulate_loop _ _ _ _ _ _) as [[sched' final]|e] eqn:L; [|discriminate].
    intros X. injection X as <-.
    revert sched initial L. induction times as [|t times IH]; intros sched initial; simpl.
    + intros X. injection X as _ <-. eauto.
    + rewrite (set_iter_singleton set_iter Hperm). simpl.
      destruct (tick sched initial t) as [[sched1 s1]|e]; [|discriminate].
      apply IH.
Qed.

Lemma simulate_at_bounds_witness :
  let j1 := mkApp 1 2 2 in
  let seed := mkSpark [(j1, (1, 0%Q))] [] in
  (forall l : list Spark, Permutation l l) /\
  simulate (fun _ => 0) (fun l => l) (PriorityScheduler []) seed [j1] (-1) = Ok [seed] /\
  (exists s, simulate (fun _ => 0) (fun l => l) FIFO seed [] 3 = Ok [s]).
Proof.
  cbv zeta.
  assert (Hperm : forall l : list Spark, Permutation l l) by (intros l; apply Permutation_refl).
  split; [exact Hperm|]. split.
  - apply (proj1 (simulate_at_bounds (fun _ => 0) (fun l => l) Hperm)). lia.
  - destruct (simulate (fun _ => 0) (fun l => l) FIFO
                (mkSpark [(mkApp 1 2 2, (1, 0%Q))] []) [] 3) as [states|e] eqn:E.
    + destruct (proj2 (simulate_at_bounds (fun _ => 0) (fun l => l) Hperm) _ _ _ _ E)
        as [s ->].
      exists s. reflexivity.
    + vm_compute in E. discriminate E.
Defined.

(** ** A round of the round robin *)

Lemma dict_set_nth {V : Type} (r : dict V) :
  forall i k v0 v,
    dict_ok r -> nth_error r i = Some (k, v0) ->
    dict_set k v r = list_update r i (k, v).
Proof.
  induction r as [|[k0 x0] r IH]; intros i k v0 v Hok Hn.
  - destruct i; discriminate.
  - apply dict_ok_cons in Hok. destruct Hok as [Hk0 Hok]. destruct i as [|i]; simpl in *.
    + injection Hn as -> ->. rewrite App_eqb_refl. reflexivity.
    + destruct (App_eqb k k0) eqn:E.
      * exfalso. apply nth_error_In in Hn. apply In_dict_mem in Hn.
        rewrite (dict_mem_congr _ _ _ E) in Hn. congruence.
      * rewrite (IH i k v0 v Hok Hn). reflexivity.
Qed.

(** One call, by position: the entry at the new cursor is credited. *)
Lemma RoundRobin_step_at (o : RoundRobinObj) (running : RDict) (time : Z) :
  dict_ok running -> running <> [] ->
  let n := Z.of_nat (length running) in
  let idx := (last_index o + 1) mod n in
  exists e,
    nth_error running (Z.to_nat idx) = Some e /\
    addProgress (RoundRobin o) running time
    = (RoundRobin (mkRoundRobin (time_slice o) idx),
       list_update running (Z.to_nat idx)
         (credit_entry (fun app => Fraction.mul (nominalRate app)
                                     (Fraction.of_int (time_slice o))) e),
       Ok tt).
Proof.
  intros Hok Hne n idx.
  destruct (RoundRobin_step o running time Hne) as (_ & app & sub & p & Hnth & Hget & Hrun).
  fold n in Hnth, Hrun. fold idx in Hnth, Hrun.
  unfold dict_keys in Hnth. rewrite nth_error_map in Hnth.
  destruct (nth_error running (Z.to_nat idx)) as [[k v]|] eqn:Hn; [|discriminate].
  cbn in Hnth. injection Hnth as ->.
  assert (v = (sub, p)).
  { apply nth_error_In in Hn. pose proof (dict_ok_get _ _ _ Hok Hn). congruence. }
  subst v. exists (app, (sub, p)). split; [reflexivity|].
  rewrite Hrun. rewrite (dict_set_nth running _ _ _ _ Hok Hn). reflexivity.
Qed.

Section Round.

Variable r0 : RDict.
Variable ts c : Z.
Variable time : Z.
Hypothesis r0_ok : dict_ok r0.

Local Notation "'n'" := (Z.of_nat (length r0)).
Local Notation "'cred'" :=
  (credit_entry (fun app => Fraction.mul (nominalRate app) (Fraction.of_int ts))).

Local Notation "'round_state'" := (round_state r0 ts c).

Lemma round_state_keys (j : Z) (o : RoundRobinObj) (r : RDict) :
  round_state j o r -> dict_keys r = dict_keys r0.
Proof.
  intros (_ & _ & Hlen & Hnth). unfold dict_keys.
  apply nth_error_ext. intros i. rewrite !nth_error_map.
  destruct (nth_error r0 i) as [e|] eqn:E.
  - rewrite (Hnth i e E). destruct (_ <? j); reflexivity.
  - apply nth_error_None in E. rewrite <- Hlen in E. apply nth_error_None in E.
    rewrite E. reflexivity.
Qed.

Lemma round_step (j : Z) (o : RoundRobinObj) (r : RDict) :
  0 <= j < n -> round_state j o r ->
  exists o' r',
    addProgress (RoundRobin o) r time = (RoundRobin o', r', Ok tt) /\
    round_state (j + 1) o' r'.
Proof.
  intros Hj Hst. pose proof (round_state_keys j o r Hst) as Hkeys.
  destruct Hst as (Hts & Hlast & Hlen & Hnth).
  assert (Hok : dict_ok r) by (apply (dict_ok_keys r0); assumption).
  assert (Hne : r <> []).
  { intros ->. simpl in Hlen. rewrite <- Hlen in Hj. simpl in Hj. lia. }
  destruct (RoundRobin_step_at o r time Hok Hne) as (e & He & Hrun).
  cbv zeta in He, Hrun. rewrite Hlen in He, Hrun.
  set (idx := (last_index o + 1) mod n) in *.
  assert (Hidx : idx = (c + j + 1) mod n).
  { unfold idx. rewrite Hlast. destruct (j =? 0) eqn:E.
    - apply Z.eqb_eq in E. subst j. f_equal. lia.
    - rewrite Zplus_mod_idemp_l. reflexivity. }
  assert (Hrange : 0 <= idx < n) by (unfold idx; apply Z.mod_pos_bound; lia).
  assert (Hback : (idx - c - 1) mod n = j).
  { rewrite Hidx. replace ((c + j + 1) mod n - c - 1) with ((c + j + 1) mod n - (c + 1)) by lia.
    rewrite Zminus_mod_idemp_l. replace (c + j + 1 - (c + 1)) with j by lia.
    apply Z.mod_small. exact Hj. }
  rewrite Hts in Hrun.
  eexists. eexists. split; [exact Hrun|].
  split; [reflexivity|]. split.
  { cbn [last_index]. replace (j + 1 =? 0) with false by (symmetry; apply Z.eqb_neq; lia).
    rewrite Hidx. f_equal. lia. }
  split; [rewrite length_list_update; exact Hlen|].
  intros i e0 Hi. destruct (Nat.eq_dec i (Z.to_nat idx)) as [->|Hneq].
  - rewrite (nth_error_list_update_same _ _ _ _ He).
    rewrite (Hnth _ _ Hi) in He. rewrite Z2Nat.id in * by lia. rewrite Hback in *.
    replace (j <? j) with false in He by (symmetry; apply Z.ltb_ge; lia).
    replace (j <? j + 1) with true by (symmetry; apply Z.ltb_lt; lia).
    injection He as ->. reflexivity.
  - rewrite (nth_error_list_update_other _ _ _ _ Hneq). rewrite (Hnth _ _ Hi).
    assert (Hi' : 0 <= Z.of_nat i < n).
    { assert (nth_error r0 i <> None) by congruence. apply nth_error_Some in H. lia. }
    assert (Hother : (Z.of_nat i - c - 1) mod n <> j).
    { intros Hm. apply Hneq.
      assert (idx = Z.of_nat i).
      { rewrite Hidx. rewrite <- Hm.
        replace (c + (Z.of_nat i - c - 1) mod n + 1) with ((c + 1) + (Z.of_nat i - c - 1) mod n)
          by lia.
        rewrite Zplus_mod_idemp_r. replace (c + 1 + (Z.of_nat i - c - 1)) with (Z.of_nat i) by lia.
        apply Z.mod_small. exact Hi'. }
      lia. }
    assert (Hm : 0 <= (Z.of_nat i - c - 1) mod n < n) by (apply Z.mod_pos_bound; lia).
    destruct ((Z.of_nat i - c - 1) mod n <? j) eqn:E1.
    + apply Z.ltb_lt in E1.
      replace ((Z.of_nat i - c - 1) mod n <? j + 1) with true
        by (symmetry; apply Z.ltb_lt; lia).
      reflexivity.
    + apply Z.ltb_ge in E1.
      replace ((Z.of_nat i - c - 1) mod n <? j + 1) with false
        by (symmetry; apply Z.ltb_ge; lia).
      reflexivity.
Qed.

Lemma round_calls :
  forall m j o r,
    0 <= j -> j + Z.of_nat m <= n -> round_state j o r ->
    exists o' r',
      addProgress_times m (RoundRobin o) r time = (RoundRobin o', r', Ok tt) /\
      round_state (j + Z.of_nat m) o' r'.
Proof.
  induction m as [|m IH]; intros j o r Hj Hm Hst.
  - exists o, r. split; [reflexivity|]. replace (j + Z.of_nat 0) with j by lia. exact Hst.
  - destruct (round_step j o r ltac:(lia) Hst) as (o1 & r1 & Hrun & Hst1).
    destruct (IH (j + 1) o1 r1 ltac:(lia) ltac:(lia) Hst1) as (o2 & r2 & Hrun2 & Hst2).
    exists o2, r2. split.
    + cbn [addProgress_times]. rewrite Hrun. exact Hrun2.
    + replace (j + Z.of_nat (S m)) with (j + 1 + Z.of_nat m) by lia. exact Hst2.
Qed.

End Round.

(** X24. A round of the round robin.  [n] calls of
    [RoundRobin.addProgress] in a row on the same dictionary of [n > 0]
    jobs all return, credit every job exactly once with its nominal
    rate times the time slice, and leave the cursor where it started,
    modulo [n]. *)
Theorem RoundRobin_round (o : RoundRobinObj) (running : RDict) (time : Z) :
  dict_ok running -> running <> [] ->
  addProgress_times (length running) (RoundRobin o) running time
  = (RoundRobin (mkRoundRobin (time_slice o)
                   (last_index o mod Z.of_nat (length running))),
     credit_all (fun app => Fraction.mul (nominalRate app)
                              (Fraction.of_int (time_slice o))) running,
     Ok tt).
Proof.
  intros Hok Hne.
  change (credit_all (fun app => Fraction.mul (nominalRate app)
                                   (Fraction.of_int (time_slice o))) running)
    with (map (credit_entry (fun app => Fraction.mul (nominalRate app)
                                          (Fraction.of_int (time_slice o)))) running).
  assert (Hn : 0 < Z.of_nat (length running)).
  { destruct running; [congruence | simpl; lia]. }
  destruct (round_calls running (time_slice o) (last_index o) time Hok
              (length running) 0 o running) as (o' & r' & Hrun & Hst); [lia|lia| |].
  { split; [reflexivity|]. split; [reflexivity|]. split; [reflexivity|].
    intros i e Hi. rewrite Hi.
    assert (0 <= (Z.of_nat i - last_index o - 1) mod Z.of_nat (length running))
      by (apply Z.mod_pos_bound; lia).
    replace (_ <? 0) with false by (symmetry; apply Z.ltb_ge; lia). reflexivity. }
  rewrite Hrun. destruct Hst as (Hts & Hlast & Hlen & Hnth).
  replace (0 + Z.of_nat (length running) =? 0) with false in Hlast
    by (symmetry; apply Z.eqb_neq; lia).
  assert (Ho : o' = mkRoundRobin (time_slice o)
                     (last_index o mod Z.of_nat (length running))).
  { destruct o' as [ts' li']. cbn in Hts, Hlast. rewrite Hts, Hlast. f_equal.
    rewrite <- (Z.mod_add (last_index o) 1 (Z.of_nat (length running))) by lia.
    f_equal. lia. }
  assert (Hr : r' = map (credit_entry (fun app => Fraction.mul (nominalRate app)
                                         (Fraction.of_int (time_slice o)))) running).
  { apply nth_error_ext. intros i. rewrite nth_error_map.
    destruct (nth_error running i) as [e|] eqn:E.
    - rewrite (Hnth i e E).
      assert (0 <= (Z.of_nat i - last_index o - 1) mod Z.of_nat (length running)
              < Z.of_nat (length running)) by (apply Z.mod_pos_bound; lia).
      replace (_ <? 0 + Z.of_nat (length running)) with true
        by (symmetry; apply Z.ltb_lt; lia).
      reflexivity.
    - apply nth_error_None in E. rewrite <- Hlen in E. apply nth_error_None in E.
      rewrite E. reflexivity. }
  rewrite Ho, Hr. reflexivity.
Qed.

Lemma RoundRobin_round_witness :
  let a1 := mkApp 1 30 50 in
  let a2 := mkApp 2 20 40 in
  let a3 := mkApp 3 40 40 in
  let running := [(a1, (0, 0%Q)); (a2, (7, 1 # 2)); (a3, (7, 0%Q))] in
  let o := mkRoundRobin 10 1 in
  dict_ok running /\ running <> [] /\
  addProgress_times 3 (RoundRobin o) running 5
  = (RoundRobin (mkRoundRobin 10 1),
     [(a1, (0, 1 # 3)); (a2, (7, 1 # 1)); (a3, (7, 1 # 4))], Ok tt).
Proof.
  cbv zeta.
  assert (Hok : dict_ok [(mkApp 1 30 50, (0, 0%Q)); (mkApp 2 20 40, (7, 1 # 2));
                         (mkApp 3 40 40, (7, 0%Q))]).
  { unfold dict_ok. simpl. repeat constructor; simpl; intuition discriminate. }
  split; [exact Hok|]. split; [discriminate|].
  exact (RoundRobin_round (mkRoundRobin 10 1) _ 5 Hok ltac:(discriminate)).
Defined.

(** * The state set of an exploration *)

(** ** Equal states of one exploration have one [repr] *)






(** *** Lists in a strict order *)

Section Ordered.

Context {A : Type}.
Variable R : A -> A -> Prop.



Hypothesis R_irrefl : forall x, ~ R x x.
Hypothesis R_trans : forall x y z, R x y -> R y z -> R x z.


End Ordered.



(** *** What [addProgress] keeps of each entry *)





(** *** The seed is in order *)



(** *** [tick] and [schedule] keep the order *)





(** *** Every state of the exploration is in order *)

Section InOrder.

Variable str_hash : string -> Z.
Variable set_iter : list Spark -> list Spark.
Hypothesis set_iter_perm : forall l, Permutation (set_iter l) l.

Variable seed : Spark.
Variable apps : list App.
Hypothesis apps_distinct : NoDup (map id apps).




(** *** A set of states holds no two elements that the set takes for one *)

Local Notation "'apart'" := (fun a b : Spark => same_elem str_hash a b = false).





End InOrder.

(** *** Equal states in order have one [repr] *)







